(** * ClusterPlanRep: a shallow embedding of
      [ogdf/cluster/ClusterPlanRep.cpp] and the properties of its
      cluster-id bookkeeping.

    The planarized copy is an arena of entities addressed by stable
    handles (nodes, edges and adjacency entries are numbers handed out by
    counters, a null pointer is [None]); every member array of the class
    is a total function with the array's default value.  The methods of
    [ClusterPlanRep] are written in a small state-and-error monad, so that
    an aborted call still shows the state it leaves behind. *)

From Stdlib Require Import ZArith Lia.
From stdpp Require Import base tactics option functions list numbers.
From stdpp Require strings pretty.

(* ================================================================== *)
(** ** Handles *)

Definition node := nat.
Definition edge := nat.
Definition adjEntry := nat.

(** Entities of the original graph (the graph the cluster graph is built
    on), which none of the modelled methods changes. *)
Definition nodeG := nat.
Definition edgeG := nat.

(** An adjacency entry of the original graph is one of the two ends of an
    original edge. *)
Record adjEntryG := AdjG { theEdge : edgeG; isSource : bool }.

Definition twinG (a : adjEntryG) : adjEntryG :=
  AdjG (theEdge a) (negb (isSource a)).

#[global] Instance adjEntryG_eq_dec : EqDecision adjEntryG.
Proof. solve_decision. Defined.

Definition cluster := nat.

(* ================================================================== *)
(** ** Errors and the state monad of the methods *)

Inductive error :=
  | AssertionFailed            (* a failing OGDF_ASSERT of a debug build *)
  | AlgorithmFailureException  (* OGDF_THROW (AlgorithmFailureException) *)
  | NullPointer.               (* a null pointer or an empty list is used *)

#[global] Instance error_eq_dec : EqDecision error.
Proof. solve_decision. Defined.

Inductive res (A : Type) :=
  | Ok (a : A)
  | Err (e : error).
Arguments Ok {A} a.
Arguments Err {A} e.

(** A computation over a state [S]: the state is returned on both exits. *)
Definition M (S A : Type) : Type := S -> res A * S.

Definition ret {S A} (a : A) : M S A := fun s => (Ok a, s).

Definition bind {S A B} (m : M S A) (k : A -> M S B) : M S B :=
  fun s => match m s with
           | (Ok a, s') => k a s'
           | (Err e, s') => (Err e, s')
           end.

Declare Scope cpr_scope.
Delimit Scope cpr_scope with cpr.
Notation "x <- m ;; k" := (bind m (fun x => k))
  (at level 100, m at next level, right associativity) : cpr_scope.
Notation "m ;; k" := (bind m (fun _ => k))
  (at level 100, right associativity) : cpr_scope.
Open Scope cpr_scope.

Definition throw {S A} (e : error) : M S A := fun s => (Err e, s).
Definition gets {S A} (f : S -> A) : M S A := fun s => (Ok (f s), s).
Definition modify {S} (f : S -> S) : M S unit := fun s => (Ok tt, f s).

(** Dereferencing a pointer that may be null. *)
Definition deref {S A} (p : option A) : M S A :=
  match p with
  | Some a => ret a
  | None => throw NullPointer
  end.

(** [for (x : l) body]: the body runs on every element in order; an error
    leaves the loop. *)
Fixpoint forEach {S A} (body : A -> M S unit) (l : list A) : M S unit :=
  match l with
  | [] => ret tt
  | x :: l' => body x ;; forEach body l'
  end.

(* ================================================================== *)
(** ** The graph arena *)

(** [Graph]: nodes, edges and adjacency entries with the links of
    [NodeElement], [EdgeElement] and [AdjElement]. *)
Record Graph := mkGraph {
  nodes : list node;
  edges : list edge;
  m_nodeIdCount : nat;
  m_edgeIdCount : nat;
  m_adjIdCount : nat;
  m_src : edge -> node;
  m_tgt : edge -> node;
  m_adjSrc : edge -> adjEntry;
  m_adjTgt : edge -> adjEntry;
  m_node : adjEntry -> node;
  m_edge : adjEntry -> edge;
  m_twin : adjEntry -> adjEntry;
  adjEntries : node -> list adjEntry
}.

(** The element after [a] in [l]; [None] when [a] is the last one or does
    not occur. *)
Fixpoint succ_in (a : adjEntry) (l : list adjEntry) : option adjEntry :=
  match l with
  | [] => None
  | x :: l' => if decide (x = a) then head l' else succ_in a l'
  end.

Definition pred_in (a : adjEntry) (l : list adjEntry) : option adjEntry :=
  succ_in a (rev l).

(** Modelled from the spec: [AdjElement::cyclicSucc] (glossary: the
    rotation is "the cyclic order of half-edges around a node"): the
    successor in the rotation of its node, the first entry after the
    last one. *)
Definition cyclicSucc (G : Graph) (a : adjEntry) : adjEntry :=
  let l := adjEntries G (m_node G a) in
  match succ_in a l with
  | Some b => b
  | None => default a (head l)
  end.

(** Modelled from the spec: [AdjElement::cyclicPred], the predecessor in
    the rotation, the last entry before the first one. *)
Definition cyclicPred (G : Graph) (a : adjEntry) : adjEntry :=
  let l := adjEntries G (m_node G a) in
  match pred_in a l with
  | Some b => b
  | None => default a (head (rev l))
  end.

(** Modelled from the spec: [AdjElement::twinNode], the node at the
    other end of the entry's edge. *)
Definition twinNode (G : Graph) (a : adjEntry) : node := m_node G (m_twin G a).

(** Modelled from the spec: [NodeElement::degree], the number of
    entries in the rotation of the node. *)
Definition degree (G : Graph) (v : node) : nat := length (adjEntries G v).

(** [l] with [x] put behind the first occurrence of [a]. *)
Fixpoint insert_after (a x : nat) (l : list nat) : list nat :=
  match l with
  | [] => []
  | y :: l' => if decide (y = a) then y :: x :: l' else y :: insert_after a x l'
  end.

(** Modelled from the spec: the edge-split primitive of the planarized
    representation (section 6: "an edge-split primitive returning the new
    node and new edge"; section 9: handle-preserving arena updates), which
    is [Graph::split], declared with the graph class.  Edge [e]
    keeps its source and now ends at the new node [u]; the returned edge
    [e2] runs from [u] to the old target and takes over the adjacency
    entry at that target, so the rotation there is unchanged; [u] gets the
    new target entry of [e] followed by the source entry of [e2]. *)
Definition Graph_split (G : Graph) (e : edge) : Graph * edge :=
  let u := m_nodeIdCount G in
  let e2 := m_edgeIdCount G in
  let adjTgt := m_adjIdCount G in
  let adjSrc := S (m_adjIdCount G) in
  let oldTgt := m_adjTgt G e in
  let oldSrc := m_adjSrc G e in
  (mkGraph
     (nodes G ++ [u])
     (edges G ++ [e2])
     (S u) (S e2) (S (S (m_adjIdCount G)))
     (<[e2 := u]> (m_src G))
     (<[e := u]> (<[e2 := m_tgt G e]> (m_tgt G)))
     (<[e2 := adjSrc]> (m_adjSrc G))
     (<[e := adjTgt]> (<[e2 := oldTgt]> (m_adjTgt G)))
     (<[adjTgt := u]> (<[adjSrc := u]> (m_node G)))
     (<[adjTgt := e]> (<[adjSrc := e2]> (<[oldTgt := e2]> (m_edge G))))
     (<[adjTgt := oldSrc]> (<[oldSrc := adjTgt]>
        (<[adjSrc := oldTgt]> (<[oldTgt := adjSrc]> (m_twin G)))))
     (<[u := [adjTgt; adjSrc]]> (adjEntries G)),
   e2).

(** Modelled from the spec: the edge-insertion primitive (section 6: "an
    edge-insertion primitive between two existing half-edges'
    endpoints"), which is [Graph::newEdge (adjSrc, adjTgt)], declared with the
    graph class.  The new edge runs from the node of
    [adjSrc] to the node of [adjTgt]; its two entries are put behind
    [adjSrc] and behind [adjTgt] in the rotations of these nodes. *)
Definition Graph_newEdge (G : Graph) (adjSrc adjTgt : adjEntry) : Graph * edge :=
  let v := m_node G adjSrc in
  let w := m_node G adjTgt in
  let e := m_edgeIdCount G in
  let aS := m_adjIdCount G in
  let aT := S (m_adjIdCount G) in
  (mkGraph
     (nodes G)
     (edges G ++ [e])
     (m_nodeIdCount G) (S e) (S (S (m_adjIdCount G)))
     (<[e := v]> (m_src G))
     (<[e := w]> (m_tgt G))
     (<[e := aS]> (m_adjSrc G))
     (<[e := aT]> (m_adjTgt G))
     (<[aT := w]> (<[aS := v]> (m_node G)))
     (<[aT := e]> (<[aS := e]> (m_edge G)))
     (<[aT := aS]> (<[aS := aT]> (m_twin G)))
     (alter (insert_after adjTgt aT) w (alter (insert_after adjSrc aS) v (adjEntries G))),
   e).

(** Modelled from the spec: [EdgeElement::adjSource], the entry of the
    edge at its source. *)
Definition adjSource (G : Graph) (e : edge) : adjEntry := m_adjSrc G e.

(** Modelled from the spec: [EdgeElement::adjTarget], the entry of the
    edge at its target. *)
Definition adjTarget (G : Graph) (e : edge) : adjEntry := m_adjTgt G e.

(** Modelled from the spec: [EdgeElement::source]. *)
Definition source (G : Graph) (e : edge) : node := m_src G e.

(** Modelled from the spec: [EdgeElement::target]. *)
Definition target (G : Graph) (e : edge) : node := m_tgt G e.

(* ================================================================== *)
(** ** The cluster graph (read only) *)

(** The original graph: what the modelled methods read of it. *)
Record GraphG := mkGraphG {
  nodesG : list nodeG;
  sourceG : edgeG -> nodeG;
  targetG : edgeG -> nodeG
}.

(** The rooted cluster tree, as the [children] lists give it. *)
#[warnings="-register-all"]
Inductive ClusterTree :=
  | ClusterNode (c : cluster) (children : list ClusterTree).

Definition treeCluster (t : ClusterTree) : cluster :=
  match t with ClusterNode c _ => c end.

Definition children (t : ClusterTree) : list ClusterTree :=
  match t with ClusterNode _ l => l end.

(** [ClusterGraph]: the tree with each cluster's [index ()] and
    [parent ()], [clusterOf] on original nodes, and the list
    [adjEntries (C, .)] of the entries that leave cluster [C], in
    clockwise order. *)
Record ClusterGraph := mkClusterGraph {
  constGraph : GraphG;
  clusterTree : ClusterTree;
  clusters : list cluster;
  index : cluster -> Z;
  parent : cluster -> option cluster;
  clusterOf : nodeG -> cluster;
  clusterAdjEntries : cluster -> list adjEntryG
}.

Definition rootCluster (CG : ClusterGraph) : cluster :=
  treeCluster (clusterTree CG).

(* ================================================================== *)
(** ** The planarized copy *)

(** [PlanRep] (with its base [GraphCopy]): the graph, the copy/original
    links, the chains of the original edges, the expansion links, and of
    the edge types the one bit [setClusterBoundary] sets. *)
Record PlanRep := mkPlanRep {
  graph : Graph;
  m_vOrig : node -> option nodeG;
  m_vCopy : nodeG -> option node;
  m_eOrig : edge -> option edgeG;
  m_eCopy : edgeG -> list edge;
  m_expandedNode : node -> option node;
  m_clusterBoundary : edge -> bool
}.

(** [ClusterPlanRep]: its own members. [m_pClusterGraph] never changes
    and is the [ClusterGraph] the methods below take. *)
Record ClusterPlanRep := mkClusterPlanRep {
  planRep : PlanRep;
  m_edgeClusterID : edge -> Z;
  m_nodeClusterID : node -> Z;
  m_rootAdj : option adjEntry;
  m_clusterOfIndex : Z -> option cluster
}.

Definition set_planRep (P : PlanRep) (st : ClusterPlanRep) : ClusterPlanRep :=
  mkClusterPlanRep P (m_edgeClusterID st) (m_nodeClusterID st) (m_rootAdj st)
    (m_clusterOfIndex st).

Definition set_edgeClusterID (f : edge -> Z) (st : ClusterPlanRep) : ClusterPlanRep :=
  mkClusterPlanRep (planRep st) f (m_nodeClusterID st) (m_rootAdj st)
    (m_clusterOfIndex st).

Definition set_nodeClusterID (f : node -> Z) (st : ClusterPlanRep) : ClusterPlanRep :=
  mkClusterPlanRep (planRep st) (m_edgeClusterID st) f (m_rootAdj st)
    (m_clusterOfIndex st).

Definition set_rootAdj (a : option adjEntry) (st : ClusterPlanRep) : ClusterPlanRep :=
  mkClusterPlanRep (planRep st) (m_edgeClusterID st) (m_nodeClusterID st) a
    (m_clusterOfIndex st).

Definition set_clusterBoundary (f : edge -> bool) (P : PlanRep) : PlanRep :=
  mkPlanRep (graph P) (m_vOrig P) (m_vCopy P) (m_eOrig P) (m_eCopy P)
    (m_expandedNode P) f.

(** The graph of a [ClusterPlanRep]. *)
Definition G (st : ClusterPlanRep) : Graph := graph (planRep st).

(** Modelled from the spec: [GraphCopy::copy (node)], the copy of an
    original node, null when the copy has none. *)
Definition copy (st : ClusterPlanRep) (v : nodeG) : option node :=
  m_vCopy (planRep st) v.

(** Modelled from the spec: [GraphCopy::copy (edge)], the first edge of
    the chain of an original edge, null when the chain is empty. *)
Definition copyE (st : ClusterPlanRep) (e : edgeG) : option edge :=
  head (m_eCopy (planRep st) e).

(** Modelled from the spec: [GraphCopy::original (node)], the original
    of a node of the copy, null for a dummy. *)
Definition original (st : ClusterPlanRep) (v : node) : option nodeG :=
  m_vOrig (planRep st) v.

(** Modelled from the spec: [GraphCopy::chain], the pieces of an
    original edge in the copy, from its source to its target. *)
Definition chain (st : ClusterPlanRep) (e : edgeG) : list edge :=
  m_eCopy (planRep st) e.

(** Modelled from the spec: [PlanRep::expandedNode], the node a gadget
    node replaces, null for a node outside every gadget. *)
Definition expandedNode (st : ClusterPlanRep) (v : node) : option node :=
  m_expandedNode (planRep st) v.

(** Modelled from the spec: [ClusterID (node)] of the class declaration
    (section 4.1: the "[clusterIdOf] accessors"), the entry of the node
    array. *)
Definition ClusterID (st : ClusterPlanRep) (v : node) : Z := m_nodeClusterID st v.

(** Modelled from the spec: [PlanRep::isClusterBoundary] (section 6: "a
    boundary-edge predicate"). *)
Definition isClusterBoundary (st : ClusterPlanRep) (e : edge) : bool :=
  m_clusterBoundary (planRep st) e.

(** Modelled from the spec: [GraphCopy::split], the split of the graph
    with the copy/original bookkeeping of section 6: the new piece
    belongs to the original edge of the split edge and follows it in the
    chain, and it has the type of the split edge. *)
Definition PlanRep_split (P : PlanRep) (e : edge) : PlanRep * edge :=
  let '(G', eNew) := Graph_split (graph P) e in
  (mkPlanRep G' (m_vOrig P) (m_vCopy P)
     (<[eNew := m_eOrig P e]> (m_eOrig P))
     (match m_eOrig P e with
      | Some eo => alter (insert_after e eNew) eo (m_eCopy P)
      | None => m_eCopy P
      end)
     (m_expandedNode P)
     (<[eNew := m_clusterBoundary P e]> (m_clusterBoundary P)),
   eNew).

(** Modelled from the spec: [newEdge (adjSrc, adjTgt)] on the copy; the
    new edge has no original. *)
Definition PlanRep_newEdge (P : PlanRep) (adjSrc adjTgt : adjEntry) : PlanRep * edge :=
  let '(G', e) := Graph_newEdge (graph P) adjSrc adjTgt in
  (mkPlanRep G' (m_vOrig P) (m_vCopy P) (m_eOrig P) (m_eCopy P)
     (m_expandedNode P) (m_clusterBoundary P),
   e).

(* ================================================================== *)
(** ** The methods of ClusterPlanRep *)

(** The two arrays [ModelBoundaries] passes by reference through the
    whole pass, with the copy itself. *)
Record BoundaryState := mkBoundaryState {
  cpr : ClusterPlanRep;
  currentEdge : adjEntryG -> option edge;
  outEdge : adjEntryG -> Z
}.

Definition set_cpr (st : ClusterPlanRep) (s : BoundaryState) : BoundaryState :=
  mkBoundaryState st (currentEdge s) (outEdge s).
Definition set_currentEdge (f : adjEntryG -> option edge) (s : BoundaryState) :=
  mkBoundaryState (cpr s) f (outEdge s).
Definition set_outEdge (f : adjEntryG -> Z) (s : BoundaryState) :=
  mkBoundaryState (cpr s) (currentEdge s) f.

(** A method of the copy run inside the boundary pass. *)
Definition onCpr {A} (m : M ClusterPlanRep A) : M BoundaryState A :=
  fun s => let '(r, st) := m (cpr s) in (r, set_cpr st s).

Section Methods.

(** [debug]: whether the build checks [OGDF_ASSERT]; a release build
    drops the check. *)
Variable debug : bool.

(** [m_pClusterGraph]. *)
Variable CG : ClusterGraph.

(** The methods of the base class that ClusterPlanRep.cpp calls and does
    not define:
    the embedding check, the copy of one connected component, the
    insertion of an edge path, and the two vertex expansions. *)
Variable representsCombEmbedding : ClusterPlanRep -> bool.
Variable initByCC : Z -> PlanRep.
Variable PlanRep_insertEdgePathEmbedded : edgeG -> list adjEntry -> PlanRep -> PlanRep.
Variable PlanRep_expand : bool -> PlanRep -> PlanRep.
Variable OrthoRep : Type.
Variable PlanRep_expandLowDegreeVertices : OrthoRep -> PlanRep -> PlanRep.

(** Modelled from the spec: the macro [OGDF_ASSERT] (section 7:
    precondition violations are assertion failures of a debug build). *)
Definition OGDF_ASSERT {S} (c : bool) : M S unit :=
  if debug && negb c then throw AssertionFailed else ret tt.

(** An assertion whose condition follows pointers: a release build does
    not evaluate it. *)
Definition OGDF_ASSERT_M {S} (c : M S bool) : M S unit :=
  if debug
  then b <- c ;; if b then ret tt else throw AssertionFailed
  else ret tt.

(** [c->index ()] and [c->parent ()] through a pointer that may be null. *)
Definition indexOf {S} (c : option cluster) : M S Z :=
  c' <- deref c ;; ret (index CG c').
Definition parentOf {S} (c : option cluster) : M S (option cluster) :=
  c' <- deref c ;; ret (parent CG c').

(** [m_nodeClusterID[v] = i] and [m_edgeClusterID[e] = i]. *)
Definition setNodeClusterID (v : node) (i : Z) : M ClusterPlanRep unit :=
  modify (fun st => set_nodeClusterID (<[v := i]> (m_nodeClusterID st)) st).
Definition setEdgeClusterID (e : edge) (i : Z) : M ClusterPlanRep unit :=
  modify (fun st => set_edgeClusterID (<[e := i]> (m_edgeClusterID st)) st).

(** The constructor: both arrays start at -1, no root entry, and the
    index table holds every cluster under its index. *)
Definition ClusterPlanRep_new (P : PlanRep) : ClusterPlanRep :=
  mkClusterPlanRep P (fun _ => -1)%Z (fun _ => -1)%Z None
    (fold_left (fun m ci => <[index CG ci := Some ci]> m) (clusters CG) (fun _ => None)).

(** Modelled from the spec: [clusterOfDummy] of the class declaration
    (section 4.1: it "returns the cluster for a node with no original
    back-reference by looking up its cluster-id in the index map; calling
    it on a node whose cluster-id is still unset is a precondition
    violation"). *)
Definition clusterOfDummy (v : node) : M ClusterPlanRep (option cluster) :=
  st <- gets id ;;
  OGDF_ASSERT (bool_decide (original st v = None)) ;;
  OGDF_ASSERT (negb (ClusterID st v =? -1)%Z) ;;
  ret (m_clusterOfIndex st (ClusterID st v)).

(** Modelled from the spec: [PlanRep::initCC], which rebuilds the copy
    for component [i] (lifecycle, section 3: the "cluster-id arrays are
    (re)initialized every time work restarts on a new connected component
    (copies differ per component)"); every array registered with the
    graph is back at its initial value. *)
Definition PlanRep_initCC (i : Z) : M ClusterPlanRep unit :=
  modify (fun st =>
    mkClusterPlanRep (initByCC i) (fun _ => -1)%Z (fun _ => -1)%Z
      (m_rootAdj st) (m_clusterOfIndex st)).

(** The first loop of [initCC] (lines 81-84): every original node's copy
    takes the index of the node's cluster. *)
Definition initCC_nodes : M ClusterPlanRep unit :=
  forEach (fun v =>
      st <- gets id ;;
      c <- deref (copy st v) ;;
      setNodeClusterID c (index CG (clusterOf CG v)))
    (nodesG (constGraph CG)).

(** The second loop of [initCC] (lines 89-93): the edges whose two ends
    have the same cluster-id take it. *)
Definition initCC_edges : M ClusterPlanRep unit :=
  es <- gets (fun st => edges (G st)) ;;
  forEach (fun e =>
      st <- gets id ;;
      if (ClusterID st (source (G st) e) =? ClusterID st (target (G st) e))%Z
      then setEdgeClusterID e (ClusterID st (source (G st) e))
      else ret tt)
    es.

(** [ClusterPlanRep::initCC]. *)
Definition initCC (i : Z) : M ClusterPlanRep unit :=
  PlanRep_initCC i ;;
  initCC_nodes ;;
  initCC_edges.

(** One round of the loop of [insertEdgePathEmbedded] when both ends of
    the crossed edge are originals (lines 142-148). *)
Definition bothOriginal (dummy v1 : node) (orV1 orV2 : nodeG) : M ClusterPlanRep unit :=
  OGDF_ASSERT (bool_decide (clusterOf CG orV1 = clusterOf CG orV2)) ;;
  st <- gets id ;;
  OGDF_ASSERT (negb (m_nodeClusterID st v1 =? -1)%Z) ;;
  setNodeClusterID dummy (m_nodeClusterID st v1).

(** The same when exactly one end is an original: [orC] is the cluster
    of the original, [dC] the cluster of the dummy (lines 149-165). *)
Definition oneOriginal (dummy : node) (orC : cluster) (dC : option cluster)
  : M ClusterPlanRep unit :=
  OGDF_ASSERT_M
    (if bool_decide (Some orC = dC) then ret true
     else pd <- parentOf dC ;;
          if bool_decide (Some orC = pd) then ret true
          else ret (bool_decide (parent CG orC = dC))) ;;
  if bool_decide (Some orC = dC) then setNodeClusterID dummy (index CG orC)
  else
    pd <- parentOf dC ;;
    if bool_decide (Some orC = pd) then setNodeClusterID dummy (index CG orC)
    else throw AlgorithmFailureException.

(** The same when no end is an original (lines 166-182). *)
Definition noOriginal (dummy : node) (c1 c2 : option cluster) : M ClusterPlanRep unit :=
  OGDF_ASSERT_M
    (if bool_decide (c1 = c2) then ret true
     else p2 <- parentOf c2 ;;
          if bool_decide (c1 = p2) then ret true
          else p1 <- parentOf c1 ;;
               if bool_decide (p1 = c2) then ret true
               else ret (bool_decide (p1 = p2))) ;;
  if bool_decide (c1 = c2) then i <- indexOf c1 ;; setNodeClusterID dummy i
  else
    p2 <- parentOf c2 ;;
    if bool_decide (c1 = p2) then i <- indexOf c1 ;; setNodeClusterID dummy i
    else
      p1 <- parentOf c1 ;;
      if bool_decide (c2 = p1) then i <- indexOf c2 ;; setNodeClusterID dummy i
      else i <- indexOf p1 ;; setNodeClusterID dummy i.

(** The body of the loop over [chain (eOrig)] (lines 111-183). *)
Definition resolveCrossing (eOrig : edgeG) (e : edge) : M ClusterPlanRep unit :=
  st <- gets id ;;
  let dummy := target (G st) e in
  if bool_decide (Some dummy = copy st (targetG (constGraph CG) eOrig)) then ret tt
  else
    OGDF_ASSERT (bool_decide (degree (G st) dummy = 4)) ;;
    let adjIn := adjTarget (G st) e in
    let adjC1 := cyclicPred (G st) adjIn in
    let adjC2 := cyclicSucc (G st) adjIn in
    let v1 := twinNode (G st) adjC1 in
    let v2 := twinNode (G st) adjC2 in
    OGDF_ASSERT (bool_decide (v1 ≠ dummy)) ;;
    OGDF_ASSERT (bool_decide (v2 ≠ dummy)) ;;
    match original st v1, original st v2 with
    | Some orV1, Some orV2 => bothOriginal dummy v1 orV1 orV2
    | Some orV1, None =>
        dC <- clusterOfDummy v2 ;; oneOriginal dummy (clusterOf CG orV1) dC
    | None, Some orV2 =>
        dC <- clusterOfDummy v1 ;; oneOriginal dummy (clusterOf CG orV2) dC
    | None, None =>
        c1 <- clusterOfDummy v1 ;;
        c2 <- clusterOfDummy v2 ;;
        noOriginal dummy c1 c2
    end.

(** [ClusterPlanRep::insertEdgePathEmbedded]; the embedding [E] is a view
    of the graph and has no state of its own here. *)
Definition insertEdgePathEmbedded (eOrig : edgeG) (crossedEdges : list adjEntry)
  : M ClusterPlanRep unit :=
  modify (fun st =>
    set_planRep (PlanRep_insertEdgePathEmbedded eOrig crossedEdges (planRep st)) st) ;;
  st <- gets id ;;
  forEach (resolveCrossing eOrig) (chain st eOrig).

(** The body of the loop of [expand] and of [expandLowDegreeVertices]. *)
Definition updateClusterInfo (v : node) : M ClusterPlanRep unit :=
  st <- gets id ;;
  match expandedNode st v with
  | Some w =>
      OGDF_ASSERT (negb (m_nodeClusterID st w =? -1)%Z) ;;
      setNodeClusterID v (m_nodeClusterID st w)
  | None => ret tt
  end.

(** [ClusterPlanRep::expand]. *)
Definition expand (lowDegreeExpand : bool) : M ClusterPlanRep unit :=
  modify (fun st => set_planRep (PlanRep_expand lowDegreeExpand (planRep st)) st) ;;
  ns <- gets (fun st => nodes (G st)) ;;
  forEach updateClusterInfo ns.

(** [ClusterPlanRep::expandLowDegreeVertices]. *)
Definition expandLowDegreeVertices (OR : OrthoRep) : M ClusterPlanRep unit :=
  modify (fun st => set_planRep (PlanRep_expandLowDegreeVertices OR (planRep st)) st) ;;
  ns <- gets (fun st => nodes (G st)) ;;
  forEach updateClusterInfo ns.

(** [split], [newEdge] and [setClusterBoundary] on the copy. *)
Definition split (e : edge) : M ClusterPlanRep edge :=
  fun st => let '(P, eNew) := PlanRep_split (planRep st) e in (Ok eNew, set_planRep P st).
Definition newEdge (adjSrc adjTgt : adjEntry) : M ClusterPlanRep edge :=
  fun st => let '(P, e) := PlanRep_newEdge (planRep st) adjSrc adjTgt in
            (Ok e, set_planRep P st).
Definition setClusterBoundary (e : edge) : M ClusterPlanRep unit :=
  modify (fun st =>
    set_planRep (set_clusterBoundary (<[e := true]> (m_clusterBoundary (planRep st)))
                   (planRep st)) st).

(** [currentEdge[a] = e] and [outEdge[a] = d]. *)
Definition setCurrentEdge (a : adjEntryG) (e : option edge) : M BoundaryState unit :=
  modify (fun s => set_currentEdge (<[a := e]> (currentEdge s)) s).
Definition setOutEdge (a : adjEntryG) (d : Z) : M BoundaryState unit :=
  modify (fun s => set_outEdge (<[a := d]> (outEdge s)) s).

(** One round of the first loop of [insertBoundary] (lines 268-328) for
    the entry [it]; [isLast] says that no entry follows it.  The two
    lists of the method are handed through. *)
Definition insertBoundary_split (C : cluster) (clusterIsLeaf : bool)
    (it : adjEntryG) (isLast : bool) (lists : list adjEntry * list adjEntry)
  : M BoundaryState (list adjEntry * list adjEntry) :=
  let '(sourceEntries, targetEntries) := lists in
  (if clusterIsLeaf then
     s <- gets id ;;
     (if bool_decide (currentEdge s it = None)
      then setCurrentEdge it (copyE (cpr s) (theEdge it))
      else ret tt) ;;
     setOutEdge it (if isSource it then 1 else 0)%Z
   else ret tt) ;;
  s <- gets id ;;
  (if (outEdge s it =? 2)%Z
   then setOutEdge it (if isSource it then 1 else 0)%Z
   else ret tt) ;;
  s <- gets id ;;
  (if bool_decide (currentEdge s it = None)
   then setCurrentEdge it (copyE (cpr s) (theEdge it))
   else ret tt) ;;
  s <- gets id ;;
  OGDF_ASSERT (negb (outEdge s it =? 2)%Z) ;;
  let isOut := (outEdge s it =? 1)%Z in
  splitEdge <- deref (currentEdge s it) ;;
  newE <- onCpr (split splitEdge) ;;
  lists' <-
    (if isOut then
       setCurrentEdge it (Some newE) ;;
       setCurrentEdge (twinG it) (Some newE) ;;
       s <- gets id ;;
       let sourceEntries := sourceEntries ++ [adjSource (G (cpr s)) newE] in
       let targetEntries := targetEntries ++ [adjTarget (G (cpr s)) splitEdge] in
       onCpr (setNodeClusterID (source (G (cpr s)) newE) (index CG C)) ;;
       ret (sourceEntries, targetEntries)
     else
       s <- gets id ;;
       let sourceEntries := sourceEntries ++ [adjTarget (G (cpr s)) splitEdge] in
       let targetEntries := targetEntries ++ [adjSource (G (cpr s)) newE] in
       onCpr (setNodeClusterID (source (G (cpr s)) newE) (index CG C)) ;;
       ret (sourceEntries, targetEntries)) ;;
  (if bool_decide (parent CG C = Some (rootCluster CG)) && isLast then
     s <- gets id ;;
     e <- deref (currentEdge s it) ;;
     onCpr (modify (set_rootAdj (Some (adjSource (G (cpr s)) e)))) ;;
     s <- gets id ;;
     OGDF_ASSERT (bool_decide (m_rootAdj (cpr s) ≠ None))
   else ret tt) ;;
  ret lists'.

(** The first loop of [insertBoundary]. *)
Fixpoint insertBoundary_splits (C : cluster) (clusterIsLeaf : bool)
    (outAdj : list adjEntryG) (lists : list adjEntry * list adjEntry)
  : M BoundaryState (list adjEntry * list adjEntry) :=
  match outAdj with
  | [] => ret lists
  | it :: rest =>
      lists' <- insertBoundary_split C clusterIsLeaf it
                  (bool_decide (rest = [])) lists ;;
      insertBoundary_splits C clusterIsLeaf rest lists'
  end.

(** The second loop of [insertBoundary] (lines 339-348): it runs while
    [targetEntries] is not empty and pops the front of both lists. *)
Fixpoint insertBoundary_connect (C : cluster)
    (sourceEntries targetEntries : list adjEntry) : M BoundaryState unit :=
  match targetEntries with
  | [] => ret tt
  | adjTgt :: targetEntries' =>
      adjSrc <- deref (head sourceEntries) ;;
      e <- onCpr (newEdge adjSrc adjTgt) ;;
      onCpr (setClusterBoundary e) ;;
      onCpr (setEdgeClusterID e (index CG C)) ;;
      s <- gets id ;;
      OGDF_ASSERT (representsCombEmbedding (cpr s)) ;;
      insertBoundary_connect C (tail sourceEntries) targetEntries'
  end.

(** [ClusterPlanRep::insertBoundary]. *)
Definition insertBoundary (C : cluster) (clusterIsLeaf : bool) : M BoundaryState unit :=
  s <- gets id ;;
  OGDF_ASSERT (representsCombEmbedding (cpr s)) ;;
  let outAdj := clusterAdjEntries CG C in
  if bool_decide (outAdj = []) then ret tt
  else
    lists <- insertBoundary_splits C clusterIsLeaf outAdj ([], []) ;;
    let '(sourceEntries, targetEntries) := lists in
    OGDF_ASSERT (bool_decide (length targetEntries = length sourceEntries)) ;;
    flipper <- deref (head targetEntries) ;;
    let targetEntries := tail targetEntries ++ [flipper] in
    insertBoundary_connect C sourceEntries targetEntries ;;
    s <- gets id ;;
    OGDF_ASSERT (representsCombEmbedding (cpr s)).

(** [ClusterPlanRep::convertClusterGraph]: the children first, then the
    cluster itself unless it is the root. *)
Fixpoint convertClusterGraph (act : ClusterTree) : M BoundaryState unit :=
  match act with
  | ClusterNode c kids =>
      let isRoot := bool_decide (c = rootCluster CG) in
      (if isRoot && bool_decide (kids = []) then
         s <- gets id ;;
         e <- deref (head (edges (G (cpr s)))) ;;
         onCpr (modify (set_rootAdj (Some (adjSource (G (cpr s)) e))))
       else ret tt) ;;
      let isLeaf := bool_decide (kids = []) && negb isRoot in
      (fix each (l : list ClusterTree) : M BoundaryState unit :=
         match l with
         | [] => ret tt
         | child :: l' => convertClusterGraph child ;; each l'
         end) kids ;;
      if isRoot then ret tt else insertBoundary c isLeaf
  end.

(** [ClusterPlanRep::ModelBoundaries]: the two arrays start undefined (2)
    and null. *)
Definition ModelBoundaries : M ClusterPlanRep unit :=
  fun st =>
    let '(r, s) := convertClusterGraph (clusterTree CG)
                     (mkBoundaryState st (fun _ => None) (fun _ => 2%Z)) in
    (r, cpr s).

End Methods.


(* ================================================================== *)
(** ** The GML output *)

Module GML.

Import Stdlib.Strings.Ascii Stdlib.Strings.String.StringSyntax.
#[local] Open Scope string_scope.
#[local] Infix "+:+" := String.append (at level 60, right associativity).

(** The node types [writeGML] tells apart; every other value of
    [Graph::NodeType] is [otherNodeType]. *)
Inductive NodeType :=
  | generalizationMerger
  | generalizationExpander
  | highDegreeExpander
  | lowDegreeExpander
  | dummy
  | otherNodeType.

#[global] Instance NodeType_eq_dec : EqDecision NodeType.
Proof. solve_decision. Defined.

(** The newline and the double quote of the C++ string literals. *)
Definition nl : String.string := String.String (Ascii.ascii_of_nat 10) String.EmptyString.
Definition dq : String.string := String.String (Ascii.ascii_of_nat 34) String.EmptyString.
Definition quoted (t : String.string) : String.string := dq +:+ t +:+ dq.

(** [os << std::hex << v] for an [int] [v]: the digits of the value as
    an unsigned 32-bit number, lower case, without leading zeros. *)
Definition hexDigit (d : Z) : ascii :=
  match d with
  | 0 => "0" | 1 => "1" | 2 => "2" | 3 => "3" | 4 => "4" | 5 => "5"
  | 6 => "6" | 7 => "7" | 8 => "8" | 9 => "9" | 10 => "a" | 11 => "b"
  | 12 => "c" | 13 => "d" | 14 => "e" | _ => "f"
  end%char%Z.

Fixpoint hexDigits (fuel : nat) (v : Z) (acc : String.string) : String.string :=
  match fuel with
  | 0 => acc
  | S fuel' =>
      let acc' := String.String (hexDigit (v mod 16)) acc in
      if (v / 16 =? 0)%Z then acc' else hexDigits fuel' (v / 16) acc'
  end.

Definition show_hex (v : Z) : String.string :=
  hexDigits 8 (v mod 2 ^ 32) String.EmptyString.

(** [std::setw (w)] with [std::setfill (c)] in front of a text: the
    text is filled up on the left to the width [w]. *)
Fixpoint fill (n : nat) (c : ascii) : String.string :=
  match n with
  | 0 => String.EmptyString
  | S n' => String.String c (fill n' c)
  end.

Definition setw (w : nat) (c : ascii) (t : String.string) : String.string :=
  fill (w - String.length t) c +:+ t.

(** The colour [writeGML] computes from a cluster index (lines
    447-450), as [int] arithmetic without overflow. *)
Definition clusterColour (i : Z) : String.string :=
  setw 6 "0" (show_hex (i * 256 * 256 + i * 256 + i * 4)).

(** The stream and the two locals of [writeGML]: what has been written
    to [os], one text for each output statement, in order; the array
    [id]; and the counter [nextId]. *)
Record Writer := mkWriter {
  os : list String.string;
  id : node -> Z;
  nextId : Z
}.

(** The content of the stream. *)
Definition contents (w : Writer) : String.string :=
  fold_right String.append String.EmptyString (os w).

(** One output statement [os << ... ;]. *)
Definition put (t : String.string) : M Writer unit :=
  modify (fun w => mkWriter (os w ++ [t]) (id w) (nextId w)).

Definition fillLine (colour : String.string) : String.string :=
  "      fill " +:+ quoted colour +:+ nl.

Section WriteGML.

(** [m_pClusterGraph]. *)
Variable CG : ClusterGraph.

(** What the method reads of the base class and of the layout, none of
    it defined in ClusterPlanRep.cpp: the edge types with their output
    operator, the types of nodes and edges, the brother and half-brother
    flags, and the coordinates, which the stream writes with
    [showpoint] and a precision of 10. *)
Variable EdgeType : Type.
Context `{EqDecision EdgeType}.
Variable generalization : EdgeType.
Variable show_EdgeType : EdgeType -> String.string.
Variable typeOfNode : node -> NodeType.
Variable typeOfEdge : edge -> EdgeType.
Variable isBrother : edge -> bool.
Variable isHalfBrother : edge -> bool.
Variable double : Type.
Variable show_double : double -> String.string.
Variable ten : double.

(** [Layout]: the coordinates of the nodes. *)
Record Layout := mkLayout {
  x : node -> double;
  y : node -> double
}.

(** The body of the loop over the nodes (lines 414-464). *)
Definition writeNode (st : ClusterPlanRep) (drawing : Layout) (v : node)
  : M Writer unit :=
  let ori := original st v in
  put ("  node [" +:+ nl) ;;
  n <- gets nextId ;;
  modify (fun w => mkWriter (os w) (<[v := n]> (id w)) (n + 1)%Z) ;;
  put ("    id " +:+ pretty.pretty n +:+ nl) ;;
  put ("    graphics [" +:+ nl) ;;
  put ("      x " +:+ show_double (x drawing v) +:+ nl) ;;
  put ("      y " +:+ show_double (y drawing v) +:+ nl) ;;
  put ("      w " +:+ show_double ten +:+ nl) ;;
  put ("      h " +:+ show_double ten +:+ nl) ;;
  put ("      type " +:+ quoted "rectangle" +:+ nl) ;;
  put ("      width 1.0" +:+ nl) ;;
  (match typeOfNode v with
   | generalizationMerger =>
       put ("      type " +:+ quoted "oval" +:+ nl) ;;
       put (fillLine "#0000A0")
   | generalizationExpander =>
       put ("      type " +:+ quoted "oval" +:+ nl) ;;
       put (fillLine "#00FF00")
   | highDegreeExpander | lowDegreeExpander =>
       put (fillLine "#FFFF00")
   | dummy =>
       put ("      type " +:+ quoted "oval" +:+ nl)
   | otherNodeType =>
       o <- deref ori ;;
       let i := index CG (clusterOf CG o) in
       if negb (i =? 0)%Z then
         put (fillLine ("#" +:+ clusterColour i))
       else if (4 <? degree (G st) v)%nat then
         put (fillLine "#FFFF00")
       else
         put (fillLine "#000000")
   end) ;;
  put ("    ]" +:+ nl) ;;
  put ("  ]" +:+ nl).

(** An end of the edge is a generalization expander or merger (lines
    489-492). *)
Definition atGeneralization (st : ClusterPlanRep) (e : edge) : bool :=
  bool_decide (typeOfNode (source (G st) e) = generalizationExpander)
  || bool_decide (typeOfNode (source (G st) e) = generalizationMerger)
  || bool_decide (typeOfNode (target (G st) e) = generalizationExpander)
  || bool_decide (typeOfNode (target (G st) e) = generalizationMerger).

(** The body of the loop over the edges (lines 467-519). *)
Definition writeEdge (st : ClusterPlanRep) (e : edge) : M Writer unit :=
  put ("  edge [" +:+ nl) ;;
  ids <- gets id ;;
  put ("    source " +:+ pretty.pretty (ids (source (G st) e)) +:+ nl) ;;
  put ("    target " +:+ pretty.pretty (ids (target (G st) e)) +:+ nl) ;;
  put ("    generalization " +:+ show_EdgeType (typeOfEdge e) +:+ nl) ;;
  put ("    graphics [" +:+ nl) ;;
  put ("      type " +:+ quoted "line" +:+ nl) ;;
  (if bool_decide (typeOfEdge e = generalization) then
     put ("      arrow " +:+ quoted "last" +:+ nl) ;;
     put (fillLine "#FF0000") ;;
     put ("      width 3.0" +:+ nl)
   else
     (if atGeneralization st e then
        put ("      arrow " +:+ quoted "none" +:+ nl) ;;
        (if isBrother e then put (fillLine "#F0F000")
         else if isHalfBrother e then put (fillLine "#FF00AF")
         else if isClusterBoundary st e then put (fillLine "#FF0000")
         else put (fillLine "#FF0000"))
      else
        put ("      arrow " +:+ quoted "none" +:+ nl)) ;;
     (if isBrother e then put (fillLine "#F0F000")
      else if isHalfBrother e then put (fillLine "#FF00AF")
      else if isClusterBoundary st e then put (fillLine "#FF0000")
      else put (fillLine "#00000F")) ;;
     put ("      width 1.0" +:+ nl)) ;;
  put ("    ]" +:+ nl) ;;
  put ("  ]" +:+ nl).

(** [ClusterPlanRep::writeGML (std::ostream &os, const Layout &drawing)].
    The array [id] is not initialized: its entries are what the state
    holds at the start. *)
Definition writeGML (st : ClusterPlanRep) (drawing : Layout) : M Writer unit :=
  modify (fun w => mkWriter (os w) (id w) 0%Z) ;;
  put ("Creator " +:+ quoted "ogdf::GraphAttributes::writeGML" +:+ nl) ;;
  put ("graph [" +:+ nl) ;;
  put ("  directed 1" +:+ nl) ;;
  forEach (writeNode st drawing) (nodes (G st)) ;;
  forEach (writeEdge st) (edges (G st)) ;;
  put ("]" +:+ nl).

End WriteGML.

(** The texts of [ls] that start with [p]. *)
Definition linesWith (p : String.string) (ls : list String.string) : list String.string :=
  List.filter (String.prefix p) ls.

(** A cluster index as one byte of a colour: two hexadecimal digits. *)
Definition byteHex (b : Z) : String.string := setw 2 "0" (show_hex b).

End GML.
(* ================================================================== *)
(** ** Properties of computations *)

(** [reads m]: the computation [m] leaves the state as it finds it. *)
Definition reads {S A} (m : M S A) : Prop :=
  ∀ s r s', m s = (r, s') -> s' = s.

(** [keeps proj m]: the computation [m] leaves the part [proj] of the
    state as it finds it, however it ends. *)
Definition keeps {S A B} (proj : S -> B) (m : M S A) : Prop :=
  ∀ s r s', m s = (r, s') -> proj s' = proj s.

(* ================================================================== *)
(** ** Crossing resolution: the specified properties *)

(** The two nodes next to the crossing on the crossed edge, as the loop
    of [insertEdgePathEmbedded] finds them from the chain edge [e]. *)
Definition flanking (st : ClusterPlanRep) (e : edge) : node * node :=
  let adjIn := adjTarget (G st) e in
  (twinNode (G st) (cyclicPred (G st) adjIn),
   twinNode (G st) (cyclicSucc (G st) adjIn)).

(** The state after [m_nodeClusterID[v] = i]. *)
Definition withNodeClusterID (v : node) (i : Z) (st : ClusterPlanRep) : ClusterPlanRep :=
  set_nodeClusterID (<[v := i]> (m_nodeClusterID st)) st.

(** The specification's rule for a crossing between two dummies
    (section 4.3, third case), in its words: c1 if c1 = c2, else c1 if
    c1 = parent (c2), else c2 if c2 = parent (c1), otherwise parent (c1). *)
Definition spec_noOriginalID (CG : ClusterGraph) (c1 c2 : cluster) : option Z :=
  if bool_decide (c1 = c2) then Some (index CG c1)
  else if bool_decide (Some c1 = parent CG c2) then Some (index CG c1)
  else if bool_decide (Some c2 = parent CG c1) then Some (index CG c2)
  else index CG <$> parent CG c1.

(** The specified behaviour of the second case on the exception: the
    round [out] raises AlgorithmFailureException if and only if none of
    the three relations between [orC] and [dC] holds. *)
Definition throws_iff_no_relation (CG : ClusterGraph) (out : res unit)
    (orC dC : cluster) : Prop :=
  out = Err AlgorithmFailureException ↔
  ¬ (orC = dC ∨ Some orC = parent CG dC ∨ Some dC = parent CG orC).

(** What a debug build asserts on the way through the third case. *)
Definition noOriginal_asserted (CG : ClusterGraph) (st : ClusterPlanRep)
    (dummy v1 v2 : node) (c1 c2 : cluster) : Prop :=
  degree (G st) dummy = 4 ∧ v1 ≠ dummy ∧ v2 ≠ dummy ∧
  ClusterID st v1 ≠ (-1)%Z ∧ ClusterID st v2 ≠ (-1)%Z ∧
  (c1 = c2 ∨ Some c1 = parent CG c2 ∨ parent CG c1 = Some c2
   ∨ parent CG c1 = parent CG c2).


(** The nodes the loop of [insertEdgePathEmbedded] does not skip: the
    targets of the chain edges that are not the copy of the target of
    [eOrig]. *)
Definition crossingDummies (CG : ClusterGraph) (st : ClusterPlanRep) (eOrig : edgeG)
  : list node :=
  filter (fun v => Some v ≠ copy st (targetG (constGraph CG) eOrig))
    (map (target (G st)) (chain st eOrig)).

(** [assigns D f f']: the array [f'] comes from [f] by assignments
    [f[v] = i] at nodes [v] that satisfy [D], and by nothing else. *)
Inductive assigns {K : Type} `{EqDecision K} (D : K -> Prop)
  : (K -> Z) -> (K -> Z) -> Prop :=
  | assigns_none f : assigns D f f
  | assigns_more f f' v i :
      assigns D f f' -> D v -> assigns D f (<[v := i]> f').

(** [atMost v st st']: [st'] is [st], or [st] after one assignment to
    the cluster-id of [v]. *)
Definition atMost (v : node) (st st' : ClusterPlanRep) : Prop :=
  st' = st ∨ ∃ i, st' = withNodeClusterID v i st.

(** [writesAtMost v m]: [m] does nothing to the state but, possibly, one
    assignment to the cluster-id of [v]. *)
Definition writesAtMost {A} (v : node) (m : M ClusterPlanRep A) : Prop :=
  ∀ st r st', m st = (r, st') -> atMost v st st'.

(* ================================================================== *)
(** ** Vertex expansion: the specified property *)

(** The expansion links are those of gadgets: the node a gadget node
    points to is the replaced vertex, which belongs to no gadget but,
    possibly, its own. *)
Definition expansion_wf (st : ClusterPlanRep) : Prop :=
  ∀ u w w', expandedNode st u = Some w -> expandedNode st w = Some w' -> w' = w.

(** The precondition: the cluster-id of every replaced vertex is set. *)
Definition replaced_ids_set (st : ClusterPlanRep) : Prop :=
  ∀ u w, u ∈ nodes (G st) -> expandedNode st u = Some w ->
         ClusterID st w ≠ (-1)%Z.

(** In [st2] every gadget node of [st1] has the cluster-id the replaced
    vertex has in [st1], and the replaced vertex has kept it. *)
Definition gadget_ids_propagated (st1 st2 : ClusterPlanRep) : Prop :=
  ∀ u w, u ∈ nodes (G st1) -> expandedNode st1 u = Some w ->
         ClusterID st2 u = ClusterID st1 w ∧ ClusterID st2 w = ClusterID st1 w.

(** The specified outcome of a run [out] of an expansion method, where
    [st1] is the state the base class hands to the loop: with the
    precondition the run ends well and has propagated the ids; a debug
    build stops at an unset id with a failed assertion (a release build
    copies it like any other). *)
Definition expansion_outcome (debug : bool) (st1 : ClusterPlanRep)
    (out : res unit * ClusterPlanRep) : Prop :=
  (replaced_ids_set st1 ∨ debug = false ->
   ∃ st2, out = (Ok tt, st2) ∧ planRep st2 = planRep st1 ∧
          gadget_ids_propagated st1 st2) ∧
  (debug = true ->
   (∃ u w, u ∈ nodes (G st1) ∧ expandedNode st1 u = Some w ∧
           ClusterID st1 w = (-1)%Z) ->
   ∃ st2, out = (Err AssertionFailed, st2)).

(* ================================================================== *)
(** ** Reset for a component: the array after the first loop *)

(** The cluster-id array after the first loop of [initCC] over the
    original nodes [vs]. *)
Definition nodeIDs_after (CG : ClusterGraph) (st : ClusterPlanRep) (vs : list nodeG) (f : node -> Z)
  : node -> Z :=
  fold_left (fun f v => match copy st v with
                        | Some c => <[c := index CG (clusterOf CG v)]> f
                        | None => f
                        end) vs f.

(* ================================================================== *)
(** ** Boundary insertion: the specified properties *)

(** The direction the source computes from the entry itself: 1
    (outgoing) when the entry is the source end of its edge, 0
    (incoming) otherwise. *)
Definition dirOf (it : adjEntryG) : Z := if isSource it then 1%Z else 0%Z.

(** The edge that realizes the entry [it] when its round starts: the
    current edge if there is one, else the copy of the entry's edge. *)
Definition realizing (s : BoundaryState) (it : adjEntryG) : option edge :=
  match currentEdge s it with
  | Some e => Some e
  | None => copyE (cpr s) (theEdge it)
  end.

(** The direction of [it] after the first lines of its round. *)
Definition directionAt (clusterIsLeaf : bool) (s : BoundaryState) (it : adjEntryG) : Z :=
  if clusterIsLeaf then dirOf it
  else if (outEdge s it =? 2)%Z then dirOf it
  else outEdge s it.

(** The nodes [us] and the edges [bs] form one simple cycle of the
    graph: they are as many, at least one, pairwise different, and the
    [i]-th edge runs from the [i]-th node to the next one, the last edge
    back to the first node. *)
Definition simple_cycle (g : Graph) (us : list node) (bs : list edge) : Prop :=
  length bs = length us ∧ 0 < length us ∧ NoDup us ∧ NoDup bs ∧
  ∀ i b, bs !! i = Some b ->
         Some (source g b) = us !! i ∧
         Some (target g b) = us !! ((i + 1) mod length us).

(** The counters of the graph are ahead of its nodes and edges, so that
    what the next split or insertion creates is new. *)
Definition countersAhead (g : Graph) : Prop :=
  (∀ v, v ∈ nodes g -> v < m_nodeIdCount g) ∧
  (∀ e, e ∈ edges g -> e < m_edgeIdCount g).

(** Every direction flag is undefined (2) or the direction the source
    computes for its entry. *)
Definition directionsConsistent (out : adjEntryG -> Z) : Prop :=
  ∀ a, out a = 2%Z ∨ out a = dirOf a.

(** From [out] to [out'] no defined flag has changed. *)
Definition directionsKept (out out' : adjEntryG -> Z) : Prop :=
  ∀ a, out a ≠ 2%Z -> out' a = out a.

(** [setsDirections m]: whatever [m] does to a direction flag, it
    leaves it or sets it to the direction of its entry. *)
Definition setsDirections {A} (m : M BoundaryState A) : Prop :=
  ∀ s r s', m s = (r, s') ->
            ∀ a, outEdge s' a = outEdge s a ∨ outEdge s' a = dirOf a.

(** What the first loop of [insertBoundary] has done after [k] rounds
    from [s]: [k] new nodes and [k] new pieces of split edges; the
    [i]-th entries of both lists sit at the [i]-th new node, which has
    the cluster's index as its cluster-id. *)
Definition splits_post (CG : ClusterGraph) (C : cluster) (k : nat) (s : BoundaryState)
    (srcs tgts : list adjEntry) (s' : BoundaryState) : Prop :=
  let g := G (cpr s) in
  let g' := G (cpr s') in
  nodes g' = nodes g ++ seq (m_nodeIdCount g) k ∧
  edges g' = edges g ++ seq (m_edgeIdCount g) k ∧
  m_nodeIdCount g' = m_nodeIdCount g + k ∧
  m_edgeIdCount g' = m_edgeIdCount g + k ∧
  m_adjIdCount g ≤ m_adjIdCount g' ∧
  length srcs = k ∧ length tgts = k ∧
  (∀ i a, srcs !! i = Some a ∨ tgts !! i = Some a ->
          a < m_adjIdCount g' ∧ m_node g' a = m_nodeIdCount g + i) ∧
  (∀ a, a < m_adjIdCount g -> m_node g' a = m_node g a) ∧
  (∀ i, i < k -> m_nodeClusterID (cpr s') (m_nodeIdCount g + i) = index CG C) ∧
  (∀ v, v < m_nodeIdCount g ->
        m_nodeClusterID (cpr s') v = m_nodeClusterID (cpr s) v) ∧
  m_edgeClusterID (cpr s') = m_edgeClusterID (cpr s) ∧
  m_clusterOfIndex (cpr s') = m_clusterOfIndex (cpr s) ∧
  (∀ e, e < m_edgeIdCount g ->
        isClusterBoundary (cpr s') e = isClusterBoundary (cpr s) e) ∧
  (∀ a, realizing s a ≠ None -> realizing s' a ≠ None).

(** What the second loop of [insertBoundary] has done after [k] rounds
    from [s]: [k] new edges, the [i]-th from the node of the [i]-th
    source entry to the node of the [i]-th target entry, each flagged as
    a boundary and with the cluster's index as its cluster-id. *)
Definition connect_post (CG : ClusterGraph) (C : cluster) (k : nat) (s : BoundaryState)
    (srcs tgts : list adjEntry) (s' : BoundaryState) : Prop :=
  let g := G (cpr s) in
  let g' := G (cpr s') in
  nodes g' = nodes g ∧
  edges g' = edges g ++ seq (m_edgeIdCount g) k ∧
  m_nodeIdCount g' = m_nodeIdCount g ∧
  m_edgeIdCount g' = m_edgeIdCount g + k ∧
  m_adjIdCount g ≤ m_adjIdCount g' ∧
  (∀ i a b, srcs !! i = Some a -> tgts !! i = Some b ->
            source g' (m_edgeIdCount g + i) = m_node g a ∧
            target g' (m_edgeIdCount g + i) = m_node g b) ∧
  (∀ e, e < m_edgeIdCount g ->
        source g' e = source g e ∧ target g' e = target g e ∧
        isClusterBoundary (cpr s') e = isClusterBoundary (cpr s) e ∧
        m_edgeClusterID (cpr s') e = m_edgeClusterID (cpr s) e) ∧
  (∀ i, i < k ->
        isClusterBoundary (cpr s') (m_edgeIdCount g + i) = true ∧
        m_edgeClusterID (cpr s') (m_edgeIdCount g + i) = index CG C) ∧
  m_nodeClusterID (cpr s') = m_nodeClusterID (cpr s) ∧
  m_clusterOfIndex (cpr s') = m_clusterOfIndex (cpr s) ∧
  m_rootAdj (cpr s') = m_rootAdj (cpr s) ∧
  currentEdge s' = currentEdge s ∧ outEdge s' = outEdge s.

(* ================================================================== *)
(** ** Example instances *)

(** The graph without nodes; [Graph::newNode ()] and
    [Graph::newEdge (v, w)], which put the new entries at the end of the
    rotations, build the examples. *)
Definition Graph_empty : Graph :=
  mkGraph [] [] 0 0 0 (fun _ => 0) (fun _ => 0) (fun _ => 0)
    (fun _ => 0) (fun _ => 0) (fun _ => 0) (fun _ => 0)
    (fun _ => []).

Definition Graph_newNode (g : Graph) : Graph :=
  let u := m_nodeIdCount g in
  mkGraph (nodes g ++ [u]) (edges g) (S u) (m_edgeIdCount g) (m_adjIdCount g)
    (m_src g) (m_tgt g) (m_adjSrc g) (m_adjTgt g) (m_node g) (m_edge g)
    (m_twin g) (<[u := []]> (adjEntries g)).

Definition Graph_newEdgeVW (v w : node) (g : Graph) : Graph :=
  let e := m_edgeIdCount g in
  let aS := m_adjIdCount g in
  let aT := S (m_adjIdCount g) in
  mkGraph (nodes g) (edges g ++ [e]) (m_nodeIdCount g) (S e)
    (S (S (m_adjIdCount g)))
    (<[e := v]> (m_src g)) (<[e := w]> (m_tgt g))
    (<[e := aS]> (m_adjSrc g)) (<[e := aT]> (m_adjTgt g))
    (<[aT := w]> (<[aS := v]> (m_node g)))
    (<[aT := e]> (<[aS := e]> (m_edge g)))
    (<[aT := aS]> (<[aS := aT]> (m_twin g)))
    (alter (fun l => l ++ [aT]) w (alter (fun l => l ++ [aS]) v (adjEntries g))).

(** The copy of a connected original graph with [n] nodes and the edges
    [es]: node [i] is the copy of original node [i], edge [k] the copy of
    original edge [k], whose chain it is. *)
Definition PlanRep_of (n : nat) (es : list (node * node)) : PlanRep :=
  let g0 := Nat.iter n Graph_newNode Graph_empty in
  let g := fold_left (fun g vw => Graph_newEdgeVW (fst vw) (snd vw) g) es g0 in
  mkPlanRep g
    (fun v => if decide (v < n) then Some v else None)
    (fun v => if decide (v < n) then Some v else None)
    (fun e => if decide (e < length es) then Some e else None)
    (fun e => if decide (e < length es) then [e] else [])
    (fun _ => None)
    (fun _ => false).

(** An instance of the base class's path insertion for the examples:
    every crossed entry but the last has its edge split, and a new edge
    of the chain of [eOrig] runs from the entry reached so far to the new
    node; the last entry is where the path ends. *)
Definition addToChain (eOrig : edgeG) (e : edge) (P : PlanRep) : PlanRep :=
  mkPlanRep (graph P) (m_vOrig P) (m_vCopy P)
    (<[e := Some eOrig]> (m_eOrig P))
    (alter (fun l => l ++ [e]) eOrig (m_eCopy P))
    (m_expandedNode P) (m_clusterBoundary P).

Fixpoint example_insertPath (eOrig : edgeG) (adjSrc : adjEntry)
    (crossed : list adjEntry) (P : PlanRep) : PlanRep :=
  match crossed with
  | [] => P
  | [adjTgt] =>
      let '(P1, eNew) := PlanRep_newEdge P adjSrc adjTgt in
      addToChain eOrig eNew P1
  | adj :: rest =>
      let crossedEdge := m_edge (graph P) adj in
      let '(P1, piece) := PlanRep_split P crossedEdge in
      let '(P2, eNew) :=
        PlanRep_newEdge P1 adjSrc (adjTarget (graph P1) crossedEdge) in
      example_insertPath eOrig (adjSource (graph P2) piece) rest
        (addToChain eOrig eNew P2)
  end.

Definition example_insertEdgePathEmbedded (eOrig : edgeG)
    (crossedEdges : list adjEntry) (P : PlanRep) : PlanRep :=
  match crossedEdges with
  | [] => P
  | adjSrc :: rest =>
      example_insertPath eOrig adjSrc rest
        (mkPlanRep (graph P) (m_vOrig P) (m_vCopy P) (m_eOrig P)
           (<[eOrig := []]> (m_eCopy P)) (m_expandedNode P) (m_clusterBoundary P))
  end.

(** A cluster tree: root 0, its child 1, and the children 2 and 3 of 1;
    cluster [c] has index [10 + c]. *)
Definition example_tree : ClusterTree :=
  ClusterNode 0 [ClusterNode 1 [ClusterNode 2 []; ClusterNode 3 []]].

Definition example_parent (c : cluster) : option cluster :=
  match c with
  | 1 => Some 0
  | 2 | 3 => Some 1
  | _ => None
  end.

(** The original graph of the crossing example: the path
    0 - 1 - 2 - 3 (edges 1, 0, 2 in this order of the path) and the edge
    3 from node 0 to node 3, which is the one to insert.  All original
    nodes lie in cluster 2. *)
Definition crossing_CG : ClusterGraph :=
  mkClusterGraph
    (mkGraphG [0; 1; 2; 3]
       (fun e => match e with 0 => 1 | 1 => 0 | 2 => 2 | _ => 0 end)
       (fun e => match e with 0 => 2 | 1 => 1 | 2 => 3 | _ => 3 end))
    example_tree [0; 1; 2; 3]
    (fun c => 10 + Z.of_nat c)%Z example_parent
    (fun _ => 2)
    (fun _ => []).

(** The copy before the insertion (edges 0, 1, 2), in which the nodes the
    function [orig] sends to [None] pass for dummies, with the cluster
    ids [ids]. *)
Definition crossing_before (orig : node -> option nodeG) (ids : node -> Z)
  : ClusterPlanRep :=
  let P := PlanRep_of 4 [(1, 2); (0, 1); (2, 3)] in
  mkClusterPlanRep
    (mkPlanRep (graph P) orig (m_vCopy P) (m_eOrig P) (<[3 := []]> (m_eCopy P))
       (m_expandedNode P) (m_clusterBoundary P))
    (fun _ => -1)%Z ids None
    (m_clusterOfIndex (ClusterPlanRep_new crossing_CG P)).

(** The path of edge 3: it leaves node 0 behind the source entry of
    edge 1, crosses edge 0 and ends at node 3 behind the target entry of
    edge 2. *)
Definition crossing_path (g : Graph) : list adjEntry :=
  [adjSource g 1; adjSource g 0; adjTarget g 2].

(** The copy after the base class has inserted the path. *)
Definition crossing_after (orig : node -> option nodeG) (ids : node -> Z)
  : ClusterPlanRep :=
  let st := crossing_before orig ids in
  set_planRep
    (example_insertEdgePathEmbedded 3 (crossing_path (G st)) (planRep st)) st.

(** Both ends of the crossed edge are dummies of the sibling clusters 2
    and 3. *)
Definition siblings_orig (v : node) : option nodeG :=
  match v with 0 => Some 0 | 3 => Some 3 | _ => None end.
Definition siblings_ids (v : node) : Z :=
  match v with 1 => 12%Z | 2 => 13%Z | _ => (-1)%Z end.

(** Node 1 is an original (of cluster 2), node 2 a dummy of cluster 1,
    the parent of cluster 2. *)
Definition parent_orig (v : node) : option nodeG :=
  match v with 0 => Some 0 | 1 => Some 1 | 3 => Some 3 | _ => None end.
Definition parent_ids (v : node) : Z :=
  match v with 0 | 1 | 3 => 12%Z | 2 => 11%Z | _ => (-1)%Z end.

(** The expansion example: the centre 0 of a star with six leaves has
    cluster-id 5 and is replaced by the gadget of the nodes 0, 7 and 8. *)
Definition star_before : ClusterPlanRep :=
  mkClusterPlanRep
    (PlanRep_of 7 [(0, 1); (0, 2); (0, 3); (0, 4); (0, 5); (0, 6)])
    (fun _ => -1)%Z
    (fun v => match v with 0 => 5%Z | 7 | 8 => (-1)%Z | _ => 4%Z end)
    None (fun _ => None).

Definition example_expand (lowDegreeExpand : bool) (P : PlanRep) : PlanRep :=
  mkPlanRep (Graph_newNode (Graph_newNode (graph P)))
    (m_vOrig P) (m_vCopy P) (m_eOrig P) (m_eCopy P)
    (fun v => match v with 0 | 7 | 8 => Some 0 | _ => None end)
    (m_clusterBoundary P).

(** The component example: the path 0 - 1 - 2 with the nodes 0 and 1 in
    cluster 2 and node 2 in cluster 3; its one component is copied node
    by node and edge by edge. *)
Definition path_CG : ClusterGraph :=
  mkClusterGraph
    (mkGraphG [0; 1; 2]
       (fun e => match e with 0 => 0 | _ => 1 end)
       (fun e => match e with 0 => 1 | _ => 2 end))
    example_tree [0; 1; 2; 3]
    (fun c => 10 + Z.of_nat c)%Z example_parent
    (fun v => match v with 0 | 1 => 2 | _ => 3 end)
    (fun _ => []).

Definition path_initByCC (i : Z) : PlanRep := PlanRep_of 3 [(0, 1); (1, 2)].

(** The boundary example (scenario 1 of the specification): the root 0
    has the two leaf clusters 1 and 2; the original nodes 0 and 1 lie in
    cluster 1, the nodes 2 and 3 in cluster 2; the edges 0 (from node 0
    to node 2) and 1 (from node 1 to node 3) join the clusters, the
    edges 2 and 3 lie inside them.  Clockwise, cluster 1 is left by the
    source ends of the edges 0 and 1, cluster 2 by the target ends of
    the edges 1 and 0. *)
Definition boundary_CG : ClusterGraph :=
  mkClusterGraph
    (mkGraphG [0; 1; 2; 3]
       (fun e => match e with 0 => 0 | 1 => 1 | 2 => 0 | _ => 2 end)
       (fun e => match e with 0 => 2 | 1 => 3 | 2 => 1 | _ => 3 end))
    (ClusterNode 0 [ClusterNode 1 []; ClusterNode 2 []])
    [0; 1; 2]
    (fun c => 10 + Z.of_nat c)%Z
    (fun c => match c with 1 | 2 => Some 0 | _ => None end)
    (fun v => match v with 0 | 1 => 1 | _ => 2 end)
    (fun c => match c with
              | 1 => [AdjG 0 true; AdjG 1 true]
              | 2 => [AdjG 1 false; AdjG 0 false]
              | _ => []
              end).

(** Its copy before the boundaries are modelled, as [initCC] leaves it. *)
Definition boundary_cpr : ClusterPlanRep :=
  mkClusterPlanRep
    (PlanRep_of 4 [(0, 2); (1, 3); (0, 1); (2, 3)])
    (fun e => match e with 2 => 11%Z | 3 => 12%Z | _ => (-1)%Z end)
    (fun v => match v with 0 | 1 => 11%Z | 2 | 3 => 12%Z | _ => (-1)%Z end)
    None
    (m_clusterOfIndex
       (ClusterPlanRep_new boundary_CG (PlanRep_of 4 [(0, 2); (1, 3); (0, 1); (2, 3)]))).

(** The state in which [ModelBoundaries] starts its pass. *)
Definition boundary_start : BoundaryState :=
  mkBoundaryState boundary_cpr (fun _ => None) (fun _ => 2%Z).

(* ================================================================== *)
(** ** Further notions *)

(** The index table as the loop of the constructor (lines 66-67) builds
    it over the clusters [l], from the table [m]. *)
Definition indexTable (CG : ClusterGraph) (l : list cluster)
    (m : Z -> option cluster) : Z -> option cluster :=
  fold_left (fun m ci => <[index CG ci := Some ci]> m) l m.

(** [noException m]: the computation [m] never ends with
    AlgorithmFailureException. *)
Definition noException {A} (m : M ClusterPlanRep A) : Prop :=
  ∀ st r st', m st = (r, st') -> r ≠ Err AlgorithmFailureException.

(** Exactly one of the two nodes next to the crossing that chain edge
    [e] ends at is an original. *)
Definition oneIsOriginal (st : ClusterPlanRep) (e : edge) : Prop :=
  (original st (flanking st e).1 ≠ None ∧ original st (flanking st e).2 = None) ∨
  (original st (flanking st e).1 = None ∧ original st (flanking st e).2 ≠ None).

(** What the expansion methods leave alone, from the state [st0] they
    start in over the state [st1] the base class hands to the loop to
    the state [st2] they end in: the copy is as the base class left it,
    the edge cluster-ids, the outer-face entry and the index table are
    as at the start, and so is the cluster-id of every node that has no
    expansion link or is no node of the graph. *)
Definition expansion_frame (st0 st1 st2 : ClusterPlanRep) : Prop :=
  planRep st2 = planRep st1 ∧
  m_edgeClusterID st2 = m_edgeClusterID st0 ∧
  m_rootAdj st2 = m_rootAdj st0 ∧
  m_clusterOfIndex st2 = m_clusterOfIndex st0 ∧
  ∀ v, expandedNode st1 v = None ∨ v ∉ nodes (G st1) ->
       ClusterID st2 v = ClusterID st0 v.

(** The crossing example with all four nodes originals (of cluster 2,
    whose index is 12). *)
Definition both_orig (v : node) : option nodeG :=
  match v with 0 | 1 | 2 | 3 => Some v | _ => None end.
Definition both_ids (v : node) : Z :=
  match v with 0 | 1 | 2 | 3 => 12%Z | _ => (-1)%Z end.

(** A path for edge 3 that crosses nothing: it leaves node 0 behind the
    source entry of edge 1 and ends at node 3 behind the target entry of
    edge 2. *)
Definition direct_path (g : Graph) : list adjEntry :=
  [adjSource g 1; adjTarget g 2].


(** The links of the copy that boundary modelling has no business
    with: the original of every node, the copy of every original node,
    the expansion links and the index table. *)
Definition links (st : ClusterPlanRep)
  : (node -> option nodeG) * (nodeG -> option node) * (node -> option node)
    * (Z -> option cluster) :=
  (m_vOrig (planRep st), m_vCopy (planRep st), m_expandedNode (planRep st),
   m_clusterOfIndex st).

(** [insertion_proof p]: the part [p] of the copy is the same after an
    edge insertion, after a change of a boundary flag, of a cluster-id
    or of the outer-face entry. *)
Definition insertion_proof {B} (p : ClusterPlanRep -> B) : Prop :=
  (∀ st a b, p (set_planRep (fst (PlanRep_newEdge (planRep st) a b)) st) = p st) ∧
  (∀ st f, p (set_planRep (set_clusterBoundary f (planRep st)) st) = p st) ∧
  (∀ st f, p (set_nodeClusterID f st) = p st) ∧
  (∀ st f, p (set_edgeClusterID f st) = p st) ∧
  (∀ st a, p (set_rootAdj a st) = p st).

(** [split_proof p]: the part [p] is also the same after an edge
    split. *)
Definition split_proof {B} (p : ClusterPlanRep -> B) : Prop :=
  ∀ st e, p (set_planRep (fst (PlanRep_split (planRep st) e)) st) = p st.

(** The clusters in the order in which [convertClusterGraph] inserts
    their boundaries: the children's subtrees from left to right, then
    the cluster itself, which is left out when it is the root. *)
Fixpoint boundaryOrder (CG : ClusterGraph) (t : ClusterTree) : list cluster :=
  match t with
  | ClusterNode c kids =>
      (fix each (l : list ClusterTree) : list cluster :=
         match l with
         | [] => []
         | child :: l' => boundaryOrder CG child ++ each l'
         end) kids
      ++ (if bool_decide (c = rootCluster CG) then [] else [c])
  end.

(** The cluster-ids of the boundary nodes of the clusters [cs], in the
    order of their insertion: for each cluster as many times its index
    as the cluster has adjacent entries. *)
Definition boundaryIDs (CG : ClusterGraph) (cs : list cluster) : list Z :=
  flat_map (fun c => replicate (length (clusterAdjEntries CG c)) (index CG c)) cs.

(** One of the clusters [cs] is a child of the root and has adjacent
    entries. *)
Definition hasOuterBoundary (CG : ClusterGraph) (cs : list cluster) : Prop :=
  ∃ c, c ∈ cs ∧ parent CG c = Some (rootCluster CG) ∧ clusterAdjEntries CG c ≠ [].

(** What the insertion of the boundaries of the clusters [cs] has done
    from [s] to [s']: the new nodes are the next handles, one for each
    adjacent entry, with the cluster-ids [boundaryIDs]; there are twice
    as many new edges (a piece of a split edge and a boundary edge for
    each node); whatever was there before has kept its cluster-id and
    its boundary flag; the index table is as before; an entry that had
    an edge realizing it still has one; and the outer-face entry, once
    set, stays set, and is set when a child of the root got its
    boundary. *)
Definition boundaries_post (CG : ClusterGraph) (cs : list cluster)
    (s s' : BoundaryState) : Prop :=
  let g := G (cpr s) in
  let g' := G (cpr s') in
  let k := length (boundaryIDs CG cs) in
  nodes g' = nodes g ++ seq (m_nodeIdCount g) k ∧
  edges g' = edges g ++ seq (m_edgeIdCount g) (2 * k) ∧
  m_nodeIdCount g' = m_nodeIdCount g + k ∧
  m_edgeIdCount g' = m_edgeIdCount g + 2 * k ∧
  map (ClusterID (cpr s')) (seq (m_nodeIdCount g) k) = boundaryIDs CG cs ∧
  (∀ v, v < m_nodeIdCount g -> ClusterID (cpr s') v = ClusterID (cpr s) v) ∧
  (∀ e, e < m_edgeIdCount g ->
        m_edgeClusterID (cpr s') e = m_edgeClusterID (cpr s) e ∧
        isClusterBoundary (cpr s') e = isClusterBoundary (cpr s) e) ∧
  m_clusterOfIndex (cpr s') = m_clusterOfIndex (cpr s) ∧
  (∀ a, realizing s a ≠ None -> realizing s' a ≠ None) ∧
  (m_rootAdj (cpr s) ≠ None -> m_rootAdj (cpr s') ≠ None) ∧
  (hasOuterBoundary CG cs -> m_rootAdj (cpr s') ≠ None).




(** A cluster graph of the root alone over the path 0 - 1 - 2. *)
Definition rootOnly_CG : ClusterGraph :=
  mkClusterGraph
    (mkGraphG [0; 1; 2]
       (fun e => match e with 0 => 0 | _ => 1 end)
       (fun e => match e with 0 => 1 | _ => 2 end))
    (ClusterNode 0 []) [0]
    (fun c => Z.of_nat c) (fun _ => None) (fun _ => 0) (fun _ => []).

(** The graph after the second loop of [insertBoundary] has joined
    the entries [srcs] with the entries [tgts], pair by pair. *)
Fixpoint connectEdges (g : Graph) (srcs tgts : list adjEntry) {struct tgts} : Graph :=
  match tgts with
  | [] => g
  | t :: tgts' =>
      match srcs with
      | [] => g
      | a :: srcs' => connectEdges (fst (Graph_newEdge g a t)) srcs' tgts'
      end
  end.

(** How many of the entries [l] sit at node [x]. *)
Definition entriesAt (g : Graph) (x : node) (l : list adjEntry) : nat :=
  length (filter (fun a => m_node g a = x) l).

(** What the first loop of [insertBoundary] has done to the rotations
    after [k] rounds from [s]: the rotation of every node that was
    there is untouched, each new node has two entries, and the [i]-th
    entries of both lists are entries of the [i]-th new node. *)
Definition splits_rotations (k : nat) (s : BoundaryState)
    (srcs tgts : list adjEntry) (s' : BoundaryState) : Prop :=
  let g := G (cpr s) in
  let g' := G (cpr s') in
  m_nodeIdCount g' = m_nodeIdCount g + k ∧
  length srcs = k ∧ length tgts = k ∧
  (∀ x, x < m_nodeIdCount g -> adjEntries g' x = adjEntries g x) ∧
  (∀ i, i < k -> length (adjEntries g' (m_nodeIdCount g + i)) = 2) ∧
  (∀ i a, srcs !! i = Some a ∨ tgts !! i = Some a ->
          a ∈ adjEntries g' (m_nodeIdCount g + i)).

(** An instance of what [writeGML] reads of the base class, for the
    component example: edge 1 is a generalization, node 1 a dummy, the
    other nodes are plain vertices, and every coordinate is written as
    [0.000000000]. *)
Module GMLExample.

Import Stdlib.Strings.String.StringSyntax.
#[local] Open Scope string_scope.

Definition show_EdgeType (b : bool) : String.string :=
  if b then "generalization" else "association".

Definition typeOfNode (v : node) : GML.NodeType :=
  match v with 1 => GML.dummy | _ => GML.otherNodeType end.

Definition typeOfEdge (e : edge) : bool := bool_decide (e = 1).

Definition show_double (d : unit) : String.string := "0.000000000".

Definition drawing : GML.Layout unit := GML.mkLayout unit (fun _ => tt) (fun _ => tt).

(** The copy of the component example after [initCC]. *)
Definition copy_of_path : ClusterPlanRep :=
  snd (initCC path_CG path_initByCC 0 (ClusterPlanRep_new path_CG (path_initByCC 0))).

(** An empty stream, with some content in the locals. *)
Definition start : GML.Writer := GML.mkWriter [] (fun _ => 77%Z) 5%Z.

Definition writeGML : M GML.Writer unit :=
  GML.writeGML path_CG bool true show_EdgeType typeOfNode typeOfEdge
    (fun _ => false) (fun _ => false) unit show_double tt copy_of_path drawing.

Definition writeNode (v : node) : M GML.Writer unit :=
  GML.writeNode path_CG typeOfNode unit show_double tt copy_of_path drawing v.

End GMLExample.

(** The three facts on the colour of a cluster index [i], as one
    check: for 1 <= i <= 63 the colour is the three bytes i, i and 4 i;
    up to 254 it has six digits, above that more. *)
Definition colourCheck (i : Z) : bool :=
  let c := GML.clusterColour i in
  (if (1 <=? i)%Z && (i <=? 63)%Z
   then String.eqb c
          (String.append (GML.byteHex i)
             (String.append (GML.byteHex i) (GML.byteHex (4 * i))))
   else true)
  && (if (i <=? 254)%Z then String.length c =? 6 else 6 <? String.length c).

(** The check for the [n] indices from [i] on. *)
Fixpoint colourCheckFrom (n : nat) (i : Z) : bool :=
  match n with
  | 0 => true
  | S n' => colourCheck i && colourCheckFrom n' (i + 1)
  end.
(* ================================================================== *)
(** ** Running the monad *)

Lemma bind_ok {S A B} (m : M S A) (k : A -> M S B) s a s' :
  m s = (Ok a, s') -> bind m k s = k a s'.
Proof. intros H. unfold bind. by rewrite H. Qed.

Lemma bind_err {S A B} (m : M S A) (k : A -> M S B) s e s' :
  m s = (Err e, s') -> bind m k s = (Err e, s').
Proof. intros H. unfold bind. by rewrite H. Qed.

Lemma forEach_app {S A} (body : A -> M S unit) l1 l2 s :
  forEach body (l1 ++ l2) s =
  match forEach body l1 s with
  | (Ok _, s') => forEach body l2 s'
  | (Err e, s') => (Err e, s')
  end.
Proof.
  revert s. induction l1 as [|x l1 IH]; intros s; simpl; [done|].
  unfold bind. destruct (body x s) as [[[]|e] s1]; [apply IH | done].
Qed.

(** The equations that run a computation on a state, one step at a
    time. *)
Lemma bind_ret {S A B} (a : A) (k : A -> M S B) s : bind (ret a) k s = k a s.
Proof. done. Qed.

Lemma bind_gets {S A B} (f : S -> A) (k : A -> M S B) s :
  bind (gets f) k s = k (f s) s.
Proof. done. Qed.

Lemma bind_modify {S B} (f : S -> S) (k : unit -> M S B) s :
  bind (modify f) k s = k tt (f s).
Proof. done. Qed.

Lemma bind_throw {S A B} e (k : A -> M S B) s :
  bind (throw e) k s = (Err e, s).
Proof. done. Qed.

Lemma bind_bind {S A B C} (m : M S A) (k1 : A -> M S B) (k2 : B -> M S C) s :
  bind (bind m k1) k2 s = bind m (fun a => bind (k1 a) k2) s.
Proof. unfold bind. by destruct (m s) as [[a|e] s']. Qed.

Lemma bind_if {S A B} (b : bool) (m1 m2 : M S A) (k : A -> M S B) s :
  bind (if b then m1 else m2) k s = if b then bind m1 k s else bind m2 k s.
Proof. by destruct b. Qed.

Lemma bind_deref_Some {S A B} (a : A) (k : A -> M S B) s :
  bind (deref (Some a)) k s = k a s.
Proof. done. Qed.

Lemma bind_onCpr_modify {B} (f : ClusterPlanRep -> ClusterPlanRep)
    (k : unit -> M BoundaryState B) s :
  bind (onCpr (modify f)) k s = k tt (set_cpr (f (cpr s)) s).
Proof. done. Qed.

(** Arithmetic on handles, which are numbers. *)
Ltac nlia := unfold node, edge, adjEntry in *; lia.

Lemma reads_ret {S A} (a : A) : reads (S := S) (ret a).
Proof. by intros s r s' [= _ ->]. Qed.

Lemma reads_throw {S A} e : reads (S := S) (A := A) (throw e).
Proof. by intros s r s' [= _ ->]. Qed.

Lemma reads_gets {S A} (f : S -> A) : reads (gets f).
Proof. by intros s r s' [= _ ->]. Qed.

Lemma reads_deref {S A} (p : option A) : reads (S := S) (deref p).
Proof. destruct p; [apply reads_ret | apply reads_throw]. Qed.

Lemma reads_bind {S A B} (m : M S A) (k : A -> M S B) :
  reads m -> (∀ a, reads (k a)) -> reads (bind m k).
Proof.
  intros Hm Hk s r s' H. unfold bind in H.
  destruct (m s) as [[a|e] s1] eqn:E; apply Hm in E as ->.
  - by eapply Hk.
  - by simplify_eq.
Qed.

Create HintDb reads discriminated.
#[export] Hint Resolve reads_ret reads_throw reads_gets reads_deref : reads.

(** Proves [reads m] along the structure of [m]. *)
Ltac reads_tac :=
  repeat first
    [ apply reads_bind; [|intros ?]
    | solve [eauto with reads]
    | case_bool_decide
    | case_match ].

Lemma reads_forEach {S A} (body : A -> M S unit) l :
  (∀ x, reads (body x)) -> reads (forEach body l).
Proof.
  intros Hb. induction l as [|x l IH]; simpl; [apply reads_ret|].
  apply reads_bind; auto.
Qed.

Lemma keeps_reads {S A B} (proj : S -> B) (m : M S A) : reads m -> keeps proj m.
Proof. intros Hm s r s' H. by rewrite (Hm _ _ _ H). Qed.

Lemma keeps_bind {S A B C} (proj : S -> C) (m : M S A) (k : A -> M S B) :
  keeps proj m -> (∀ a, keeps proj (k a)) -> keeps proj (bind m k).
Proof.
  intros Hm Hk s r s' H. unfold bind in H.
  destruct (m s) as [[a|e] s1] eqn:E; apply Hm in E.
  - rewrite <- E. by eapply Hk.
  - by simplify_eq.
Qed.

Lemma keeps_forEach {S A C} (proj : S -> C) (body : A -> M S unit) l :
  (∀ x, keeps proj (body x)) -> keeps proj (forEach body l).
Proof.
  intros Hb. induction l as [|x l IH]; simpl.
  - apply keeps_reads, reads_ret.
  - apply keeps_bind; auto.
Qed.

Lemma keeps_modify {S C} (proj : S -> C) (f : S -> S) :
  (∀ s, proj (f s) = proj s) -> keeps proj (modify f).
Proof. intros Hf s r s' [= _ <-]. apply Hf. Qed.

(** Proves [keeps proj m] along the structure of [m]. *)
Ltac keeps_tac :=
  repeat first
    [ apply keeps_bind; [|intros ?]
    | apply keeps_forEach; intros ?
    | solve [apply keeps_modify; done]
    | solve [apply keeps_reads; reads_tac]
    | case_bool_decide
    | case_match ].

(** Unfolds the monad's operations in the goal. *)
Ltac munfold :=
  unfold bind, ret, gets, modify, throw, deref, onCpr in *; simpl in *.


Lemma elem_of_seq_inv j n k : k ∈ seq j n -> ∃ i, k = j + i ∧ i < n.
Proof. intros H%elem_of_seq. exists (k - j). lia. Qed.

(** A list with its first element moved to the end. *)
Lemma lookup_rotate {A} (x : A) (l : list A) i :
  i < S (length l) ->
  (l ++ [x]) !! i = (x :: l) !! ((i + 1) mod S (length l)).
Proof.
  intros Hi. destruct (decide (i = length l)) as [->|Hne].
  - replace (length l + 1) with (S (length l)) by lia.
    rewrite Nat.Div0.mod_same. simpl.
    rewrite lookup_app_r by lia. by rewrite Nat.sub_diag.
  - rewrite Nat.mod_small by lia. rewrite lookup_app_l by lia.
    by replace (i + 1) with (S i) by lia.
Qed.

(* ================================================================== *)
(** ** Assignments to an array *)

Lemma assigns_trans {K} `{EqDecision K} (D : K -> Prop) f g h :
  assigns D f g -> assigns D g h -> assigns D f h.
Proof. intros Hfg Hgh. induction Hgh; [done|]. constructor; auto. Qed.

Lemma assigns_one {K} `{EqDecision K} (D : K -> Prop) f v i :
  D v -> assigns D f (<[v := i]> f).
Proof. intros Hv. by repeat constructor. Qed.

Lemma assigns_weaken {K} `{EqDecision K} (D D' : K -> Prop) f g :
  (∀ v, D v -> D' v) -> assigns D f g -> assigns D' f g.
Proof. intros HD Hfg. induction Hfg; constructor; auto. Qed.

(** Outside [D] the array is as before. *)
Lemma assigns_frame {K} `{EqDecision K} (D : K -> Prop) f g v :
  assigns D f g -> ¬ D v -> g v = f v.
Proof.
  intros Hfg Hv. induction Hfg as [|f g w i _ IH Hw]; [done|].
  rewrite fn_lookup_insert_ne; [done|]. by intros ->.
Qed.

(* ================================================================== *)
(** ** Crossing resolution *)

Section CrossingResolution.

Variable debug : bool.
Variable CG : ClusterGraph.

Lemma noOriginal_spec dummy c1 c2 i st :
  (debug = true ->
   c1 = c2 ∨ Some c1 = parent CG c2 ∨ parent CG c1 = Some c2
   ∨ parent CG c1 = parent CG c2) ->
  spec_noOriginalID CG c1 c2 = Some i ->
  noOriginal debug CG dummy (Some c1) (Some c2) st = (Ok tt, withNodeClusterID dummy i st).
Proof.
  intros Hdbg Hspec. unfold noOriginal, spec_noOriginalID, OGDF_ASSERT_M in *.
  unfold indexOf, parentOf, setNodeClusterID, withNodeClusterID.
  destruct debug; munfold.
  - destruct (Hdbg eq_refl) as [?|[?|[?|?]]];
      repeat case_bool_decide; simplify_eq; try done; try congruence;
      destruct (parent CG c1) eqn:?; simplify_eq/=; done.
  - repeat case_bool_decide; simplify_eq; try done;
      destruct (parent CG c1) eqn:?; simplify_eq/=; done.
Qed.

(** A round of the loop that passes the target check and finds two
    dummies goes on as [noOriginal] with their clusters. *)
Lemma resolveCrossing_noOriginal eOrig e st v1 v2 :
  flanking st e = (v1, v2) ->
  Some (target (G st) e) ≠ copy st (targetG (constGraph CG) eOrig) ->
  original st v1 = None -> original st v2 = None ->
  (debug = true ->
   degree (G st) (target (G st) e) = 4 ∧ v1 ≠ target (G st) e ∧
   v2 ≠ target (G st) e ∧ ClusterID st v1 ≠ (-1)%Z ∧ ClusterID st v2 ≠ (-1)%Z) ->
  resolveCrossing debug CG eOrig e st =
  noOriginal debug CG (target (G st) e)
    (m_clusterOfIndex st (ClusterID st v1)) (m_clusterOfIndex st (ClusterID st v2)) st.
Proof.
  intros Hfl Hne H1 H2 Hdbg. unfold flanking in Hfl. simplify_eq.
  unfold resolveCrossing, clusterOfDummy, OGDF_ASSERT. munfold.
  rewrite bool_decide_eq_false_2 by done. rewrite H1, H2. simpl.
  destruct debug; simpl; [|done].
  destruct (Hdbg eq_refl) as (Hd & Hv1 & Hv2 & Hi1 & Hi2).
  apply Z.eqb_neq in Hi1, Hi2.
  repeat first [ rewrite bool_decide_eq_true_2 by done
               | rewrite Hi1 | rewrite Hi2 | progress simpl ].
  done.
Qed.

(** The same with one original end: the round goes on as [oneOriginal]
    with the cluster of the original and the cluster of the dummy [vD]. *)
Lemma resolveCrossing_oneOriginal eOrig e st v1 v2 orV vD :
  flanking st e = (v1, v2) ->
  Some (target (G st) e) ≠ copy st (targetG (constGraph CG) eOrig) ->
  (original st v1 = Some orV ∧ original st v2 = None ∧ vD = v2) ∨
  (original st v1 = None ∧ original st v2 = Some orV ∧ vD = v1) ->
  (debug = true ->
   degree (G st) (target (G st) e) = 4 ∧ v1 ≠ target (G st) e ∧
   v2 ≠ target (G st) e ∧ ClusterID st vD ≠ (-1)%Z) ->
  resolveCrossing debug CG eOrig e st =
  oneOriginal debug CG (target (G st) e) (clusterOf CG orV)
    (m_clusterOfIndex st (ClusterID st vD)) st.
Proof.
  intros Hfl Hne Hor Hdbg. unfold flanking in Hfl. simplify_eq.
  unfold resolveCrossing, clusterOfDummy, OGDF_ASSERT. munfold.
  rewrite bool_decide_eq_false_2 by done.
  destruct Hor as [(H1 & H2 & ->)|(H1 & H2 & ->)]; rewrite H1, H2; simpl;
    (destruct debug; simpl; [|done]);
    destruct (Hdbg eq_refl) as (Hd & Hv1 & Hv2 & Hi);
    apply Z.eqb_neq in Hi;
    repeat first [ rewrite bool_decide_eq_true_2 by done
                 | rewrite Hi | progress simpl ];
    done.
Qed.

(** With the dummy's cluster the parent of the original's cluster, and
    neither of the first two relations, [oneOriginal] passes its
    assertion and throws. *)
Lemma oneOriginal_third_relation dummy orC dC st :
  parent CG orC = Some dC -> orC ≠ dC -> Some orC ≠ parent CG dC ->
  oneOriginal debug CG dummy orC (Some dC) st = (Err AlgorithmFailureException, st).
Proof.
  intros Hp Hne Hnp. unfold oneOriginal, OGDF_ASSERT_M, parentOf.
  destruct debug; munfold;
    repeat case_bool_decide; simplify_eq; done.
Qed.

(** In the first two relations [oneOriginal] assigns the index of the
    original's cluster. *)
Lemma oneOriginal_assigns dummy orC dC st :
  orC = dC ∨ Some orC = parent CG dC ->
  oneOriginal debug CG dummy orC (Some dC) st =
  (Ok tt, withNodeClusterID dummy (index CG orC) st).
Proof.
  intros Hrel. unfold oneOriginal, OGDF_ASSERT_M, parentOf, setNodeClusterID,
    withNodeClusterID.
  destruct debug; munfold;
    destruct Hrel; repeat case_bool_decide; simplify_eq; done.
Qed.

Lemma reads_OGDF_ASSERT {S} (c : bool) : reads (S := S) (OGDF_ASSERT debug c).
Proof. unfold OGDF_ASSERT. destruct (debug && negb c); eauto with reads. Qed.

Lemma reads_OGDF_ASSERT_M {S} (c : M S bool) :
  reads c -> reads (OGDF_ASSERT_M debug c).
Proof. intros Hc. unfold OGDF_ASSERT_M. destruct debug; reads_tac. Qed.

Lemma reads_parentOf {S} c : reads (S := S) (parentOf CG c).
Proof. unfold parentOf. reads_tac. Qed.

Lemma reads_indexOf {S} c : reads (S := S) (indexOf CG c).
Proof. unfold indexOf. reads_tac. Qed.

#[local] Hint Resolve reads_OGDF_ASSERT reads_parentOf reads_indexOf : reads.

Lemma clusterOfDummy_reads v : reads (clusterOfDummy debug v).
Proof. unfold clusterOfDummy. reads_tac. Qed.

#[local] Hint Resolve clusterOfDummy_reads : reads.

(** An assertion in front of [k]: either it fails, in a debug build, or
    its condition holds in a debug build and [k] runs. *)
Lemma OGDF_ASSERT_bind_inv {S A} (c : bool) (k : unit -> M S A) s r s' :
  bind (OGDF_ASSERT debug c) k s = (r, s') ->
  (debug = true ∧ c = false ∧ r = Err AssertionFailed ∧ s' = s) ∨
  ((debug = true -> c = true) ∧ k tt s = (r, s')).
Proof.
  unfold OGDF_ASSERT, bind. destruct debug, c; simpl; intros H.
  - right. done.
  - left. by simplify_eq.
  - right. done.
  - right. done.
Qed.

Lemma writesAtMost_reads {A} v (m : M ClusterPlanRep A) :
  reads m -> writesAtMost v m.
Proof. intros Hm st r st' H. left. by eapply Hm. Qed.

Lemma writesAtMost_set v i : writesAtMost v (setNodeClusterID v i).
Proof. intros st r st' [= _ <-]. right. by eexists. Qed.

Lemma writesAtMost_bind {A B} v (m : M ClusterPlanRep A) (k : A -> M ClusterPlanRep B) :
  reads m -> (∀ a, writesAtMost v (k a)) -> writesAtMost v (bind m k).
Proof.
  intros Hm Hk st r st' H. unfold bind in H.
  destruct (m st) as [[a|e] s1] eqn:E; apply Hm in E as ->.
  - by eapply Hk.
  - simplify_eq. by left.
Qed.

(** Proves [writesAtMost v m] along the structure of [m]. *)
Ltac writes_tac :=
  repeat first
    [ apply writesAtMost_set
    | apply writesAtMost_bind; [solve [reads_tac]|intros ?]
    | solve [apply writesAtMost_reads; reads_tac]
    | case_bool_decide
    | case_match ].

Lemma bothOriginal_atMost dummy v1 o1 o2 :
  writesAtMost dummy (bothOriginal debug CG dummy v1 o1 o2).
Proof. unfold bothOriginal. writes_tac. Qed.

Lemma oneOriginal_atMost dummy orC dC :
  writesAtMost dummy (oneOriginal debug CG dummy orC dC).
Proof.
  unfold oneOriginal.
  apply writesAtMost_bind; [apply reads_OGDF_ASSERT_M; reads_tac|intros _].
  writes_tac.
Qed.

Lemma noOriginal_atMost dummy c1 c2 :
  writesAtMost dummy (noOriginal debug CG dummy c1 c2).
Proof.
  unfold noOriginal.
  apply writesAtMost_bind; [apply reads_OGDF_ASSERT_M; reads_tac|intros _].
  writes_tac.
Qed.

(** What one round can do to the state: nothing but one assignment to
    the cluster-id of the target of [e], which is not the copy of the
    target of [eOrig] and, in a debug build, has degree 4. *)
Lemma resolveCrossing_step eOrig e st r st' :
  resolveCrossing debug CG eOrig e st = (r, st') ->
  st' = st ∨
  ∃ i, st' = withNodeClusterID (target (G st) e) i st ∧
       Some (target (G st) e) ≠ copy st (targetG (constGraph CG) eOrig) ∧
       (debug = true -> degree (G st) (target (G st) e) = 4).
Proof.
  unfold resolveCrossing. intros H.
  unfold bind at 1, gets at 1 in H. simpl in H.
  case_bool_decide as Hskip; [left; by injection H|].
  apply OGDF_ASSERT_bind_inv in H as [(_ & _ & _ & ->)|[Hdeg H]]; [by left|].
  match type of H with
  | ?m st = _ => assert (W : writesAtMost (target (G st) e) m)
  end.
  { repeat first
      [ apply bothOriginal_atMost | apply oneOriginal_atMost
      | apply noOriginal_atMost
      | apply writesAtMost_bind; [solve [reads_tac]|intros ?]
      | case_match ]. }
  destruct (W _ _ _ H) as [->|[i ->]]; [by left|].
  right. exists i. repeat split; [done|].
  intros Hd. specialize (Hdeg Hd). by apply bool_decide_eq_true_1 in Hdeg.
Qed.

(** The loop over a list of chain edges: the copy and the other members
    stay, and the cluster-id array takes assignments only at targets the
    loop does not skip. *)
Lemma resolveCrossing_loop eOrig (D : node -> Prop) l st r st' :
  forEach (resolveCrossing debug CG eOrig) l st = (r, st') ->
  (∀ e, e ∈ l ->
        Some (target (G st) e) ≠ copy st (targetG (constGraph CG) eOrig) ->
        (debug = true -> degree (G st) (target (G st) e) = 4) ->
        D (target (G st) e)) ->
  planRep st' = planRep st ∧ m_edgeClusterID st' = m_edgeClusterID st ∧
  m_rootAdj st' = m_rootAdj st ∧ m_clusterOfIndex st' = m_clusterOfIndex st ∧
  assigns D (m_nodeClusterID st) (m_nodeClusterID st').
Proof.
  revert st. induction l as [|e l IH]; intros st H HD.
  - injection H as _ <-. repeat split. constructor.
  - simpl in H. unfold bind in H.
    destruct (resolveCrossing debug CG eOrig e st) as [[[]|err] st1] eqn:E.
    + apply resolveCrossing_step in E as [->|(i & -> & Hne & Hdeg)].
      * apply IH; [done|]. intros e' He'. apply HD. by right.
      * apply IH in H as (HP & HE & HR & HC & HN).
        { repeat split; try done. eapply assigns_trans; [|exact HN].
          apply assigns_one. apply HD; [by left|done..]. }
        intros e' He'. apply (HD e'). by right.
    + injection H as _ <-.
      apply resolveCrossing_step in E as [->|(i & -> & Hne & Hdeg)].
      * repeat split. constructor.
      * repeat split. apply assigns_one. apply HD; [by left|done..].
Qed.

Variable PlanRep_insertEdgePathEmbedded : edgeG -> list adjEntry -> PlanRep -> PlanRep.

(** The whole method: the state after the base class has inserted the
    path, with the loop run on it. *)
Lemma insertEdgePathEmbedded_loop eOrig crossedEdges st0 :
  let st1 := set_planRep
               (PlanRep_insertEdgePathEmbedded eOrig crossedEdges (planRep st0)) st0 in
  insertEdgePathEmbedded debug CG PlanRep_insertEdgePathEmbedded eOrig crossedEdges st0
  = forEach (resolveCrossing debug CG eOrig) (chain st1 eOrig) st1.
Proof. done. Qed.

(** C3. In crossing resolution, when neither node next to the crossing
    on the crossed edge is an original and [c1], [c2] are the clusters
    of these two dummies, the round assigns to the new crossing node the
    index of [c1] if [c1 = c2], else of [c1] if [c1] is the parent of
    [c2], else of [c2] if [c2] is the parent of [c1], and otherwise of
    the parent of [c1] ([spec_noOriginalID]); in particular two dummies
    of sibling clusters under the parent [P] give the crossing node the
    index of [P].  A debug build asserts [noOriginal_asserted] on the
    way. *)
Theorem crossing_between_dummies eOrig e st v1 v2 c1 c2 :
  flanking st e = (v1, v2) ->
  Some (target (G st) e) ≠ copy st (targetG (constGraph CG) eOrig) ->
  original st v1 = None -> original st v2 = None ->
  m_clusterOfIndex st (ClusterID st v1) = Some c1 ->
  m_clusterOfIndex st (ClusterID st v2) = Some c2 ->
  (debug = true -> noOriginal_asserted CG st (target (G st) e) v1 v2 c1 c2) ->
  (∀ i, spec_noOriginalID CG c1 c2 = Some i ->
        resolveCrossing debug CG eOrig e st
        = (Ok tt, withNodeClusterID (target (G st) e) i st)) ∧
  (∀ P, c1 ≠ c2 -> parent CG c1 = Some P -> parent CG c2 = Some P ->
        resolveCrossing debug CG eOrig e st
        = (Ok tt, withNodeClusterID (target (G st) e) (index CG P) st)).
Proof.
  intros Hfl Hne H1 H2 Hc1 Hc2 Hdbg.
  assert (Hrun : ∀ i, spec_noOriginalID CG c1 c2 = Some i ->
    resolveCrossing debug CG eOrig e st
    = (Ok tt, withNodeClusterID (target (G st) e) i st)).
  { intros i Hi.
    rewrite (resolveCrossing_noOriginal eOrig e st v1 v2), Hc1, Hc2; try done.
    - apply noOriginal_spec; [|done].
      intros Hd. by destruct (Hdbg Hd) as (_ & _ & _ & _ & _ & ?).
    - intros Hd. destruct (Hdbg Hd) as (? & ? & ? & ? & ? & _). done. }
  split; [done|].
  intros P Hne12 Hp1 Hp2. apply Hrun. unfold spec_noOriginalID.
  rewrite Hp1, Hp2. repeat case_bool_decide; simplify_eq; done.
Qed.

(** C2, as the code has it.  One node next to the crossing is an
    original of cluster [orC] and the other a dummy of cluster [dC]:
    with [orC = dC] or [orC = parent (dC)] the crossing node takes the
    index of [orC]; in every other relation the round fails, with
    AlgorithmFailureException also when [dC = parent (orC)] is the
    relation that holds (a debug build asserts one of the three
    relations first and stops there when none holds). *)
Theorem crossing_one_original eOrig e st v1 v2 orV vD dC :
  flanking st e = (v1, v2) ->
  Some (target (G st) e) ≠ copy st (targetG (constGraph CG) eOrig) ->
  (original st v1 = Some orV ∧ original st v2 = None ∧ vD = v2) ∨
  (original st v1 = None ∧ original st v2 = Some orV ∧ vD = v1) ->
  m_clusterOfIndex st (ClusterID st vD) = Some dC ->
  (debug = true ->
   degree (G st) (target (G st) e) = 4 ∧ v1 ≠ target (G st) e ∧
   v2 ≠ target (G st) e ∧ ClusterID st vD ≠ (-1)%Z) ->
  let orC := clusterOf CG orV in
  resolveCrossing debug CG eOrig e st =
  if bool_decide (orC = dC ∨ Some orC = parent CG dC)
  then (Ok tt, withNodeClusterID (target (G st) e) (index CG orC) st)
  else if debug && bool_decide (parent CG orC ≠ Some dC)
       then (Err AssertionFailed, st)
       else (Err AlgorithmFailureException, st).
Proof.
  intros Hfl Hne Hor HdC Hdbg orC.
  rewrite (resolveCrossing_oneOriginal eOrig e st v1 v2 orV vD), HdC by done.
  fold orC. case_bool_decide as Hrel.
  - by apply oneOriginal_assigns.
  - unfold oneOriginal, OGDF_ASSERT_M, parentOf.
    destruct debug; munfold; repeat case_bool_decide; simplify_eq; try done;
      exfalso; apply Hrel; auto.
Qed.

(** C7. The crossing-resolution pass of [insertEdgePathEmbedded] (the
    loop, run on the state [st1] the base class leaves) changes nothing
    but the node cluster-id array, and that only by assignments at the
    crossing dummies of the chain: the copy with its boundary flags, the
    edge cluster-ids and the outer-face entry are as before, and when
    the crossing dummies are new nodes, as the base class makes them, no
    node that was there before has another cluster-id. *)
Theorem crossing_resolution_frame eOrig crossedEdges st0 :
  let st1 := set_planRep
               (PlanRep_insertEdgePathEmbedded eOrig crossedEdges (planRep st0)) st0 in
  let st2 := snd (insertEdgePathEmbedded debug CG PlanRep_insertEdgePathEmbedded
                    eOrig crossedEdges st0) in
  planRep st2 = planRep st1 ∧
  m_edgeClusterID st2 = m_edgeClusterID st1 ∧
  (∀ e, isClusterBoundary st2 e = isClusterBoundary st1 e) ∧
  m_rootAdj st2 = m_rootAdj st1 ∧
  assigns (fun v => v ∈ crossingDummies CG st1 eOrig)
    (m_nodeClusterID st1) (m_nodeClusterID st2) ∧
  ((∀ v, v ∈ crossingDummies CG st1 eOrig -> v ∉ nodes (G st0)) ->
   ∀ v, v ∈ nodes (G st0) -> m_nodeClusterID st2 v = m_nodeClusterID st0 v).
Proof.
  intros st1 st2. subst st2. rewrite insertEdgePathEmbedded_loop. fold st1.
  destruct (forEach _ _ st1) as [r st2] eqn:E. simpl.
  apply (resolveCrossing_loop eOrig
           (fun v => v ∈ crossingDummies CG st1 eOrig)) in E
    as (HP & HE & HR & HC & HN).
  - repeat split; try done.
    + intros e. unfold isClusterBoundary. by rewrite HP.
    + intros Hnew v Hv. apply (assigns_frame _ _ _ v) in HN; [done|].
      intros Hd. by apply Hnew in Hd.
  - intros e He Hne _. unfold crossingDummies.
    apply list_elem_of_filter. split; [done|].
    apply list_elem_of_fmap. by exists e.
Qed.

(** C10. The loop of [insertEdgePathEmbedded] skips the chain node that
    is the copy of the target of the inserted edge: every assignment it
    makes is at the target [v] of a chain edge with
    [v ≠ copy (eOrig->target ())].  A debug build asserts degree 4
    before it assigns; with that, or with the chain's inner nodes being
    crossings of degree 4, only chain nodes of degree 4 are assigned. *)
Theorem target_copy_is_skipped eOrig crossedEdges st0 :
  let st1 := set_planRep
               (PlanRep_insertEdgePathEmbedded eOrig crossedEdges (planRep st0)) st0 in
  let st2 := snd (insertEdgePathEmbedded debug CG PlanRep_insertEdgePathEmbedded
                    eOrig crossedEdges st0) in
  let inner v := v ∈ map (target (G st1)) (chain st1 eOrig) ∧
                 Some v ≠ copy st1 (targetG (constGraph CG) eOrig) in
  assigns inner (m_nodeClusterID st1) (m_nodeClusterID st2) ∧
  (∀ t, copy st1 (targetG (constGraph CG) eOrig) = Some t ->
        ¬ inner t ∧ m_nodeClusterID st2 t = m_nodeClusterID st1 t) ∧
  (debug = true ∨ (∀ v, inner v -> degree (G st1) v = 4) ->
   assigns (fun v => inner v ∧ degree (G st1) v = 4)
     (m_nodeClusterID st1) (m_nodeClusterID st2)).
Proof.
  intros st1 st2 inner. subst st2. rewrite insertEdgePathEmbedded_loop. fold st1.
  destruct (forEach _ _ st1) as [r st2] eqn:E. simpl.
  assert (Hin : ∀ e, e ∈ chain st1 eOrig ->
    Some (target (G st1) e) ≠ copy st1 (targetG (constGraph CG) eOrig) ->
    inner (target (G st1) e)).
  { intros e He Hne. split; [|done]. apply list_elem_of_fmap. by exists e. }
  assert (H1 : assigns inner (m_nodeClusterID st1) (m_nodeClusterID st2)).
  { apply (resolveCrossing_loop eOrig inner) in E as (_ & _ & _ & _ & HN); auto. }
  split; [done|]. split.
  - intros t Ht. assert (Hn : ¬ inner t) by (intros [_ Hne]; by rewrite Ht in Hne).
    split; [done|]. by eapply assigns_frame.
  - intros Hdeg.
    apply (resolveCrossing_loop eOrig
             (fun v => inner v ∧ degree (G st1) v = 4)) in E
      as (_ & _ & _ & _ & HN); [done|].
    intros e He Hne Hd. split; [by apply Hin|].
    destruct Hdeg as [Hdbg|Hall]; [by apply Hd|]. apply Hall. by apply Hin.
Qed.

End CrossingResolution.

Example crossing_after_shape :
  let st := crossing_after siblings_orig siblings_ids in
  chain st 3 = [4; 5] ∧
  nodes (G st) = [0; 1; 2; 3; 4] ∧
  map (fun e => (source (G st) e, target (G st) e)) (edges (G st)) =
    [(1, 4); (0, 1); (2, 3); (4, 2); (0, 4); (4, 3)] ∧
  flanking st 4 = (1, 2) ∧
  degree (G st) 4 = 4.
Proof. vm_compute. done. Qed.

(** The crossing example: edge 4 of the chain ends at the crossing node
    4, between the dummies 1 and 2 of the sibling clusters 2 and 3,
    whose parent is cluster 1 with index 11. *)
Lemma crossing_between_dummies_witness :
  resolveCrossing true crossing_CG 3 4 (crossing_after siblings_orig siblings_ids)
  = (Ok tt, withNodeClusterID 4 11 (crossing_after siblings_orig siblings_ids)).
Proof.
  refine (proj2 (crossing_between_dummies true crossing_CG 3 4
                   (crossing_after siblings_orig siblings_ids) 1 2 2 3
                   _ _ _ _ _ _ _) 1 _ _ _).
  - vm_compute. reflexivity.
  - vm_compute. intros [=].
  - vm_compute. reflexivity.
  - vm_compute. reflexivity.
  - vm_compute. reflexivity.
  - vm_compute. reflexivity.
  - intros _. unfold noOriginal_asserted.
    repeat split; try (vm_compute; intros [=]).
    right. right. right. vm_compute. reflexivity.
  - vm_compute. intros [=].
  - vm_compute. reflexivity.
  - vm_compute. reflexivity.
Defined.

(** The same crossing with node 1 an original of cluster 2 and node 2 a
    dummy of cluster 1, the parent of cluster 2: the round throws. *)
Lemma crossing_one_original_witness :
  resolveCrossing true crossing_CG 3 4 (crossing_after parent_orig parent_ids)
  = (Err AlgorithmFailureException, crossing_after parent_orig parent_ids).
Proof.
  refine (crossing_one_original true crossing_CG 3 4
            (crossing_after parent_orig parent_ids) 1 2 1 2 1
            _ _ _ _ _).
  - vm_compute. reflexivity.
  - vm_compute. intros [=].
  - left. repeat split; vm_compute; reflexivity.
  - vm_compute. reflexivity.
  - intros _. repeat split; vm_compute; intros [=].
Defined.

(** C2 as it is stated fails there: the dummy's cluster 1 is the parent
    of the original's cluster 2, so one of the three relations holds,
    and the round raises AlgorithmFailureException, in a release build
    and in a debug build. *)
Lemma crossing_third_relation_counterexample :
  ¬ throws_iff_no_relation crossing_CG
      (fst (resolveCrossing false crossing_CG 3 4
              (crossing_after parent_orig parent_ids))) 2 1 ∧
  ¬ throws_iff_no_relation crossing_CG
      (fst (resolveCrossing true crossing_CG 3 4
              (crossing_after parent_orig parent_ids))) 2 1.
Proof.
  split; intros [H _]; apply H; [by vm_compute| |by vm_compute|];
    right; right; by vm_compute.
Qed.

(** In the crossing example the one crossing dummy is the new node 4:
    the four nodes that were there before keep their cluster-ids. *)
Lemma crossing_resolution_frame_witness :
  let st0 := crossing_before siblings_orig siblings_ids in
  let st2 := snd (insertEdgePathEmbedded true crossing_CG
                    example_insertEdgePathEmbedded 3 (crossing_path (G st0)) st0) in
  Forall (fun v => m_nodeClusterID st2 v = m_nodeClusterID st0 v) (nodes (G st0)).
Proof.
  intros st0 st2. apply Forall_forall. intros v Hv.
  apply (crossing_resolution_frame true crossing_CG
           example_insertEdgePathEmbedded 3 (crossing_path (G st0)) st0);
    [|by apply list_elem_of_In].
  intros w Hw Hn.
  match type of Hw with
  | _ ∈ ?l => assert (Hc : l = [4]) by (vm_compute; reflexivity); rewrite Hc in Hw
  end.
  match type of Hn with
  | _ ∈ ?l => assert (Hl : l = [0; 1; 2; 3]) by (vm_compute; reflexivity);
              rewrite Hl in Hn
  end.
  apply list_elem_of_singleton in Hw as ->.
  repeat (apply elem_of_cons in Hn as [[=]|Hn]). by apply elem_of_nil in Hn.
Defined.

(** In the crossing example the chain is [4; 5]; edge 5 ends at node 3,
    the copy of the target of the inserted edge, which keeps its
    cluster-id, and node 4 has degree 4. *)
Lemma target_copy_is_skipped_witness :
  let st0 := crossing_before siblings_orig siblings_ids in
  let st1 := crossing_after siblings_orig siblings_ids in
  let st2 := snd (insertEdgePathEmbedded false crossing_CG
                    example_insertEdgePathEmbedded 3 (crossing_path (G st0)) st0) in
  m_nodeClusterID st2 3 = m_nodeClusterID st1 3 ∧
  assigns (fun v => (v ∈ map (target (G st1)) (chain st1 3) ∧
                     Some v ≠ copy st1 (targetG (constGraph crossing_CG) 3)) ∧
                    degree (G st1) v = 4)
    (m_nodeClusterID st1) (m_nodeClusterID st2).
Proof.
  intros st0 st1 st2.
  destruct (target_copy_is_skipped false crossing_CG
              example_insertEdgePathEmbedded 3 (crossing_path (G st0)) st0)
    as (_ & H2 & H3).
  split.
  - apply (H2 3). vm_compute. reflexivity.
  - apply H3. right. intros v [Hv Hne].
    match type of Hv with
    | _ ∈ ?l => assert (Hc : l = [4; 3]) by (vm_compute; reflexivity);
                rewrite Hc in Hv
    end.
    apply elem_of_cons in Hv as [->|Hv]; [vm_compute; reflexivity|].
    apply list_elem_of_singleton in Hv as ->.
    exfalso. apply Hne. vm_compute. reflexivity.
Defined.

(* ================================================================== *)
(** ** Vertex expansion *)

Section Expansion.

Variable debug : bool.

(** One round of the loop on a gadget node whose replaced vertex has a
    set cluster-id, or in a release build. *)
Lemma updateClusterInfo_gadget st v w :
  expandedNode st v = Some w ->
  (debug = true -> ClusterID st w ≠ (-1)%Z) ->
  updateClusterInfo debug v st = (Ok tt, withNodeClusterID v (ClusterID st w) st).
Proof.
  intros Hw Hset. unfold updateClusterInfo, OGDF_ASSERT, setNodeClusterID.
  munfold. rewrite Hw. simpl. destruct debug; simpl; [|done].
  specialize (Hset eq_refl). apply Z.eqb_neq in Hset.
  unfold ClusterID in Hset. by rewrite Hset.
Qed.

Lemma updateClusterInfo_unset st v w :
  debug = true -> expandedNode st v = Some w -> ClusterID st w = (-1)%Z ->
  updateClusterInfo debug v st = (Err AssertionFailed, st).
Proof.
  intros -> Hw Hset. unfold updateClusterInfo, OGDF_ASSERT, setNodeClusterID.
  munfold. rewrite Hw. simpl. unfold ClusterID in Hset. by rewrite Hset.
Qed.

Lemma updateClusterInfo_other st v :
  expandedNode st v = None -> updateClusterInfo debug v st = (Ok tt, st).
Proof. intros Hw. unfold updateClusterInfo. munfold. by rewrite Hw. Qed.

(** The loop over the nodes [ns]: the cluster-id of a node of [ns] with
    a link becomes the one its replaced vertex had at the start. *)
Lemma updateClusterInfo_loop ns st :
  expansion_wf st ->
  (debug = true ->
   ∀ u w, u ∈ ns -> expandedNode st u = Some w -> ClusterID st w ≠ (-1)%Z) ->
  ∃ st', forEach (updateClusterInfo debug) ns st = (Ok tt, st') ∧
         planRep st' = planRep st ∧
         ∀ v, ClusterID st' v =
              match expandedNode st v with
              | Some w => if decide (v ∈ ns) then ClusterID st w else ClusterID st v
              | None => ClusterID st v
              end.
Proof.
  revert st. induction ns as [|x ns IH]; intros st Hwf Hset.
  - exists st. repeat split. intros v. destruct (expandedNode st v); [|done].
    rewrite decide_False; [done|]. apply not_elem_of_nil.
  - simpl. destruct (expandedNode st x) as [wx|] eqn:Ex.
    + erewrite bind_ok; [|apply updateClusterInfo_gadget; [done|]].
      2:{ intros Hd. eapply Hset; [done| |done]. by left. }
      set (st1 := withNodeClusterID x (ClusterID st wx) st).
      assert (Hrep : ∀ u w, expandedNode st u = Some w ->
                            ClusterID st1 w = ClusterID st w).
      { intros u w Hu. unfold st1, withNodeClusterID, ClusterID. simpl.
        destruct (decide (x = w)) as [->|Hne].
        - rewrite fn_lookup_insert. f_equal. by eapply Hwf.
        - by rewrite fn_lookup_insert_ne. }
      destruct (IH st1) as (st' & Hrun & HP & Hid).
      { done. }
      { intros Hd u w Hu Hw. rewrite (Hrep u w Hw).
        eapply Hset; [done| |done]. by right. }
      exists st'. split; [done|]. split; [done|]. intros v. rewrite Hid.
      change (expandedNode st1 v) with (expandedNode st v).
      destruct (expandedNode st v) as [w|] eqn:Ev.
      * rewrite (Hrep v w Ev).
        destruct (decide (v ∈ ns)) as [Hin|Hin].
        { rewrite decide_True; [done|]. by right. }
        destruct (decide (v = x)) as [->|Hne].
        { rewrite decide_True by (by left).
          unfold st1, withNodeClusterID, ClusterID. simpl.
          rewrite fn_lookup_insert. congruence. }
        rewrite decide_False.
        { unfold st1, withNodeClusterID, ClusterID. simpl.
          by rewrite fn_lookup_insert_ne. }
        intros [->|?]%elem_of_cons; done.
      * unfold st1, withNodeClusterID, ClusterID. simpl.
        rewrite fn_lookup_insert_ne; [done|]. intros <-. congruence.
    + erewrite bind_ok; [|by apply updateClusterInfo_other].
      destruct (IH st) as (st' & Hrun & HP & Hid); [done| |].
      { intros Hd u w Hu Hw. eapply Hset; [done| |done]. by right. }
      exists st'. split; [done|]. split; [done|]. intros v. rewrite Hid.
      destruct (expandedNode st v) as [w|] eqn:Ev; [|done].
      destruct (decide (v ∈ ns)) as [Hin|Hin].
      * rewrite decide_True; [done|]. by right.
      * rewrite decide_False; [done|].
        intros [->|?]%elem_of_cons; [congruence|done].
Qed.

(** In a debug build the loop stops at the first node of [ns] whose
    replaced vertex has no cluster-id. *)
Lemma updateClusterInfo_loop_unset ns st u w :
  debug = true -> expansion_wf st ->
  u ∈ ns -> expandedNode st u = Some w -> ClusterID st w = (-1)%Z ->
  ∃ st', forEach (updateClusterInfo debug) ns st = (Err AssertionFailed, st').
Proof.
  intros Hd Hwf. revert st Hwf.
  induction ns as [|x ns IH]; intros st Hwf Hu Hw Hunset.
  - by apply elem_of_nil in Hu.
  - simpl. destruct (expandedNode st x) as [wx|] eqn:Ex.
    + destruct (decide (ClusterID st wx = (-1)%Z)) as [Hx|Hx].
      { exists st. erewrite bind_err; [done|]. by eapply updateClusterInfo_unset. }
      erewrite bind_ok; [|by apply updateClusterInfo_gadget].
      apply elem_of_cons in Hu as [->|Hu]; [congruence|].
      apply IH; try done.
      unfold withNodeClusterID, ClusterID. simpl.
      destruct (decide (x = w)) as [->|Hne]; [|by rewrite fn_lookup_insert_ne].
      rewrite fn_lookup_insert. assert (w = wx) as -> by (symmetry; by eapply Hwf).
      done.
    + erewrite bind_ok; [|by apply updateClusterInfo_other].
      apply elem_of_cons in Hu as [->|Hu]; [congruence|]. by apply IH.
Qed.

(** The loop has the specified outcome on every state the base class may
    hand it. *)
Lemma updateClusterInfo_outcome st1 :
  expansion_wf st1 ->
  expansion_outcome debug st1
    (forEach (updateClusterInfo debug) (nodes (G st1)) st1).
Proof.
  intros Hwf. split.
  - intros Hpre.
    destruct (updateClusterInfo_loop (nodes (G st1)) st1) as (st2 & Hrun & HP & Hid).
    { done. }
    { intros Hd u w Hu Hw. destruct Hpre as [Hpre|?]; [by eapply Hpre|congruence]. }
    exists st2. split; [done|]. split; [done|]. intros u w Hu Hw.
    rewrite !Hid, Hw. rewrite decide_True by done. split; [done|].
    destruct (expandedNode st1 w) as [w'|] eqn:Ew; [|done].
    assert (w' = w) as -> by (by eapply Hwf). by destruct (decide _).
  - intros Hd (u & w & Hu & Hw & Hunset).
    by eapply updateClusterInfo_loop_unset.
Qed.

Variable PlanRep_expand : bool -> PlanRep -> PlanRep.
Variable OrthoRep : Type.
Variable PlanRep_expandLowDegreeVertices : OrthoRep -> PlanRep -> PlanRep.

(** C6. After [expand] and after [expandLowDegreeVertices] every node of
    a replacement gadget has the cluster-id of the replaced vertex,
    provided that this cluster-id is set; an unset one fails the
    assertion of a debug build and is not repaired (a release build
    copies the unset value).  [st1] is the state the base class's
    expansion leaves, whose links are those of gadgets. *)
Theorem expansion_propagates_cluster_id (lowDegreeExpand : bool) (OR : OrthoRep) st0 :
  let st1 := set_planRep (PlanRep_expand lowDegreeExpand (planRep st0)) st0 in
  let st1' := set_planRep (PlanRep_expandLowDegreeVertices OR (planRep st0)) st0 in
  (expansion_wf st1 ->
   expansion_outcome debug st1 (expand debug PlanRep_expand lowDegreeExpand st0)) ∧
  (expansion_wf st1' ->
   expansion_outcome debug st1'
     (expandLowDegreeVertices debug OrthoRep PlanRep_expandLowDegreeVertices OR st0)).
Proof.
  intros st1 st1'. split; intros Hwf.
  - by apply (updateClusterInfo_outcome st1).
  - by apply (updateClusterInfo_outcome st1').
Qed.

End Expansion.

(** The expansion example (scenario 3 of the specification): the three
    gadget nodes 0, 7 and 8 end with cluster-id 5. *)
Lemma expansion_propagates_cluster_id_witness :
  ∃ st2, expand true example_expand false star_before = (Ok tt, st2) ∧
         ClusterID st2 0 = 5%Z ∧ ClusterID st2 7 = 5%Z ∧ ClusterID st2 8 = 5%Z.
Proof.
  pose proof (proj1 (expansion_propagates_cluster_id true example_expand unit
                       (fun _ P => P) false tt star_before)) as H.
  unfold expansion_outcome in H. destruct H as [H _].
  { intros u w w'. unfold expandedNode. simpl. repeat case_match; congruence. }
  destruct H as (st2 & Hrun & _ & Hids).
  { left. intros u w _. unfold expandedNode, ClusterID. simpl. intros Hu.
    assert (w = 0) as -> by (repeat case_match; congruence). done. }
  exists st2. split; [done|].
  assert (Hl : nodes (G (set_planRep (example_expand false (planRep star_before))
                           star_before)) = [0; 1; 2; 3; 4; 5; 6; 7; 8])
    by (vm_compute; reflexivity).
  split; [|split].
  - apply (Hids 0 0); [|done]. rewrite Hl. apply list_elem_of_In. simpl. tauto.
  - apply (Hids 7 0); [|done]. rewrite Hl. apply list_elem_of_In. simpl. tauto.
  - apply (Hids 8 0); [|done]. rewrite Hl. apply list_elem_of_In. simpl. tauto.
Defined.

(* ================================================================== *)
(** ** Reset for a component *)

Section InitCC.

Variable CG : ClusterGraph.

Lemma initCC_nodes_loop vs st :
  (∀ v, v ∈ vs -> copy st v ≠ None) ->
  forEach (fun v =>
      st <- gets id ;;
      c <- deref (copy st v) ;;
      setNodeClusterID c (index CG (clusterOf CG v))) vs st
  = (Ok tt, set_nodeClusterID (nodeIDs_after CG st vs (m_nodeClusterID st)) st).
Proof.
  revert st. induction vs as [|v vs IH]; intros st Hc.
  - by destruct st.
  - destruct (copy st v) as [c|] eqn:Ec; [|by destruct (Hc v); [left|]].
    simpl. erewrite bind_ok; cycle 1.
    { unfold bind, gets, deref, setNodeClusterID, modify. simpl.
      rewrite Ec. reflexivity. }
    rewrite IH by (intros w Hw; apply Hc; by right).
    unfold nodeIDs_after. simpl. rewrite Ec. reflexivity.
Qed.

(** The last assignment of the loop to [u] decides. *)
Lemma nodeIDs_after_copy st vs f v c :
  (∀ w, w ∈ vs -> ∃ d, copy st w = Some d ∧ original st d = Some w) ->
  v ∈ vs -> copy st v = Some c ->
  nodeIDs_after CG st vs f c = index CG (clusterOf CG v).
Proof.
  unfold nodeIDs_after. induction vs as [|x vs IH] using rev_ind; intros Hag Hv Hc.
  - by apply elem_of_nil in Hv.
  - rewrite fold_left_app. simpl.
    destruct (Hag x) as (d & Hd & Hor); [apply elem_of_app; right; by left|].
    rewrite Hd. destruct (decide (d = c)) as [->|Hne].
    + rewrite fn_lookup_insert.
      destruct (Hag v Hv) as (d' & Hd' & Hor'). congruence.
    + rewrite fn_lookup_insert_ne by done.
      apply elem_of_app in Hv as [Hv|Hv].
      * apply IH; [|done..]. intros w Hw. apply Hag, elem_of_app. by left.
      * apply list_elem_of_singleton in Hv as ->. congruence.
Qed.

Lemma nodeIDs_after_other st vs f u :
  (∀ v, v ∈ vs -> copy st v ≠ Some u) -> nodeIDs_after CG st vs f u = f u.
Proof.
  unfold nodeIDs_after. revert f. induction vs as [|x vs IH]; intros f Hu; [done|].
  simpl. rewrite IH by (intros v Hv; apply Hu; by right).
  destruct (copy st x) as [c|] eqn:Ec; [|done].
  rewrite fn_lookup_insert_ne; [done|]. intros ->. by apply (Hu x); [left|].
Qed.

(** The second loop over the edges [es]: the copy and the node array
    stay, and edge [e] takes the common cluster-id of its ends. *)
Lemma initCC_edges_loop es st :
  ∃ st', forEach (fun e =>
             st <- gets id ;;
             if (ClusterID st (source (G st) e) =? ClusterID st (target (G st) e))%Z
             then setEdgeClusterID e (ClusterID st (source (G st) e))
             else ret tt) es st = (Ok tt, st') ∧
         planRep st' = planRep st ∧ m_nodeClusterID st' = m_nodeClusterID st ∧
         m_rootAdj st' = m_rootAdj st ∧ m_clusterOfIndex st' = m_clusterOfIndex st ∧
         ∀ e, m_edgeClusterID st' e =
              if decide (e ∈ es ∧
                         ClusterID st (source (G st) e) = ClusterID st (target (G st) e))
              then ClusterID st (source (G st) e)
              else m_edgeClusterID st e.
Proof.
  revert st. induction es as [|x es IH]; intros st.
  - exists st. do 5 (split; [done|]). intros e. rewrite decide_False; [done|].
    intros [H _]. by apply elem_of_nil in H.
  - simpl.
    destruct (ClusterID st (source (G st) x) =? ClusterID st (target (G st) x))%Z
      eqn:Eq.
    + erewrite bind_ok; cycle 1.
      { unfold bind, gets. simpl. rewrite Eq. reflexivity. }
      destruct (IH (set_edgeClusterID
                      (<[x := ClusterID st (source (G st) x)]> (m_edgeClusterID st)) st))
        as (st' & Hrun & HP & HN & HR & HC & HE).
      exists st'. split; [exact Hrun|]. do 4 (split; [done|]).
      intros e. rewrite HE. simpl.
      apply Z.eqb_eq in Eq.
      change (ClusterID (set_edgeClusterID _ st)) with (ClusterID st).
      change (G (set_edgeClusterID _ st)) with (G st).
      destruct (decide (e ∈ es ∧ _)) as [[Hin He]|Hn].
      * rewrite decide_True; [done|]. split; [by right|done].
      * destruct (decide (e = x)) as [->|Hne].
        { rewrite fn_lookup_insert. rewrite decide_True; [done|].
          split; [by left|done]. }
        rewrite fn_lookup_insert_ne by done.
        rewrite decide_False; [done|].
        intros [[->|Hin]%elem_of_cons He]; [done|]. by apply Hn.
    + erewrite bind_ok; cycle 1.
      { unfold bind, gets. simpl. rewrite Eq. reflexivity. }
      destruct (IH st) as (st' & Hrun & HP & HN & HR & HC & HE).
      exists st'. split; [exact Hrun|]. do 4 (split; [done|]).
      intros e. rewrite HE. apply Z.eqb_neq in Eq.
      destruct (decide (e ∈ es ∧ _)) as [[Hin He]|Hn].
      * rewrite decide_True; [done|]. split; [by right|done].
      * rewrite decide_False; [done|].
        intros [[->|Hin]%elem_of_cons He]; [done|]. by apply Hn.
Qed.

Variable initByCC : Z -> PlanRep.

(** The run of [initCC] when every original node has its copy in the
    component: the state it returns, array by array. *)
Lemma initCC_run (i : Z) (st : ClusterPlanRep) :
  (∀ v, v ∈ nodesG (constGraph CG) -> m_vCopy (initByCC i) v ≠ None) ->
  let st0 := mkClusterPlanRep (initByCC i) (fun _ => -1)%Z (fun _ => -1)%Z
               (m_rootAdj st) (m_clusterOfIndex st) in
  ∃ st', initCC CG initByCC i st = (Ok tt, st') ∧
    planRep st' = initByCC i ∧
    m_nodeClusterID st'
    = nodeIDs_after CG st0 (nodesG (constGraph CG)) (fun _ => -1)%Z ∧
    ∀ e, m_edgeClusterID st' e =
         if decide (e ∈ edges (G st') ∧
                    ClusterID st' (source (G st') e) = ClusterID st' (target (G st') e))
         then ClusterID st' (source (G st') e)
         else (-1)%Z.
Proof.
  intros Hcp st0. unfold initCC.
  erewrite bind_ok; [|reflexivity]. fold st0.
  unfold initCC_nodes. erewrite bind_ok; cycle 1.
  { apply initCC_nodes_loop. intros v Hv. by apply Hcp. }
  set (st1 := set_nodeClusterID _ st0).
  unfold initCC_edges. unfold bind at 1, gets at 1. simpl.
  destruct (initCC_edges_loop (edges (G st1)) st1)
    as (st' & Hrun & HP & HN & HR & HC & HE).
  exists st'. split; [exact Hrun|].
  assert (HG : G st' = G st1) by (unfold G; by rewrite HP).
  assert (HID : ClusterID st' = ClusterID st1) by (unfold ClusterID; by rewrite HN).
  split; [by rewrite HP|]. split; [by rewrite HN|].
  intros e. rewrite HE, HG, HID. done.
Qed.

(** C4. After [initCC] the copy of every original node has the index of
    the node's cluster as its cluster-id, every edge of the copy whose
    two ends have the same cluster-id has that value as its cluster-id,
    and the cluster-id of every other node and of every other edge is
    -1.  The call ends well when every original node has its copy in
    the component, linked back to it. *)
Theorem initCC_cluster_ids (i : Z) (st : ClusterPlanRep) :
  (∀ v, v ∈ nodesG (constGraph CG) ->
        ∃ c, m_vCopy (initByCC i) v = Some c ∧ m_vOrig (initByCC i) c = Some v) ->
  ∃ st', initCC CG initByCC i st = (Ok tt, st') ∧
    planRep st' = initByCC i ∧
    (∀ v c, v ∈ nodesG (constGraph CG) -> copy st' v = Some c ->
            ClusterID st' c = index CG (clusterOf CG v)) ∧
    (∀ e, e ∈ edges (G st') ->
          ClusterID st' (source (G st') e) = ClusterID st' (target (G st') e) ->
          m_edgeClusterID st' e = ClusterID st' (source (G st') e)) ∧
    (∀ u, (∀ v, v ∈ nodesG (constGraph CG) -> copy st' v ≠ Some u) ->
          ClusterID st' u = (-1)%Z) ∧
    (∀ e, ¬ (e ∈ edges (G st') ∧
             ClusterID st' (source (G st') e) = ClusterID st' (target (G st') e)) ->
          m_edgeClusterID st' e = (-1)%Z).
Proof.
  intros Hag.
  destruct (initCC_run i st) as (st' & Hrun & HP & HN & HE).
  { intros v Hv. destruct (Hag v Hv) as (c & -> & _). done. }
  exists st'. split; [exact Hrun|]. split; [exact HP|].
  assert (Hcopy : ∀ v, copy st' v = m_vCopy (initByCC i) v).
  { intros v. unfold copy. by rewrite HP. }
  assert (HID : ∀ u, ClusterID st' u =
            nodeIDs_after CG
              (mkClusterPlanRep (initByCC i) (fun _ => -1)%Z (fun _ => -1)%Z
                 (m_rootAdj st) (m_clusterOfIndex st))
              (nodesG (constGraph CG)) (fun _ => -1)%Z u).
  { intros u. unfold ClusterID. by rewrite HN. }
  repeat split.
  - intros v c Hv Hc. rewrite Hcopy in Hc. rewrite HID.
    eapply nodeIDs_after_copy; [|exact Hv|exact Hc].
    intros w Hw. destruct (Hag w Hw) as (d & ? & ?). by exists d.
  - intros e He Heq. rewrite HE, decide_True; done.
  - intros u Hu. rewrite HID. apply nodeIDs_after_other.
    intros v Hv Hc. apply (Hu v Hv). by rewrite Hcopy.
  - intros e Hn. by rewrite HE, decide_False.
Qed.

(** [initCC] reads of the state it starts from only the two members the
    reset keeps. *)
Lemma initCC_depends i st st' :
  m_rootAdj st = m_rootAdj st' -> m_clusterOfIndex st = m_clusterOfIndex st' ->
  initCC CG initByCC i st = initCC CG initByCC i st'.
Proof.
  intros HR HC. unfold initCC, PlanRep_initCC.
  unfold bind at 1, modify. unfold bind at 3, modify. simpl. by rewrite HR, HC.
Qed.

Lemma initCC_keeps_rootAdj i : keeps m_rootAdj (initCC CG initByCC i).
Proof.
  unfold initCC, PlanRep_initCC, initCC_nodes, initCC_edges, setNodeClusterID,
    setEdgeClusterID.
  keeps_tac.
Qed.

Lemma initCC_keeps_clusterOfIndex i : keeps m_clusterOfIndex (initCC CG initByCC i).
Proof.
  unfold initCC, PlanRep_initCC, initCC_nodes, initCC_edges, setNodeClusterID,
    setEdgeClusterID.
  keeps_tac.
Qed.

(** The two loops of [initCC], run once more on the state [initCC]
    leaves and without the reset in front, change no cluster-id. *)
Lemma initCC_loops_again i st st1 :
  (∀ v, v ∈ nodesG (constGraph CG) ->
        ∃ c, m_vCopy (initByCC i) v = Some c ∧ m_vOrig (initByCC i) c = Some v) ->
  initCC CG initByCC i st = (Ok tt, st1) ->
  ∃ st2, (initCC_nodes CG ;; initCC_edges) st1 = (Ok tt, st2) ∧
         (∀ v, m_nodeClusterID st2 v = m_nodeClusterID st1 v) ∧
         (∀ e, m_edgeClusterID st2 e = m_edgeClusterID st1 e).
Proof.
  intros Hag Hrun.
  destruct (initCC_run i st) as (st1' & Hrun' & HP & HN & HE).
  { intros v Hv. destruct (Hag v Hv) as (c & -> & _). done. }
  rewrite Hrun in Hrun'. injection Hrun' as <-.
  assert (Hcopies : ∀ v c, v ∈ nodesG (constGraph CG) -> copy st1 v = Some c ->
                           ClusterID st1 c = index CG (clusterOf CG v)).
  { intros v c Hv Hc. unfold ClusterID. rewrite HN.
    eapply nodeIDs_after_copy; [|done|by unfold copy in *; rewrite HP in Hc].
    intros w Hw. destruct (Hag w Hw) as (d & ? & ?). by exists d. }
  assert (Hedges : ∀ e, e ∈ edges (G st1) ->
    ClusterID st1 (source (G st1) e) = ClusterID st1 (target (G st1) e) ->
    m_edgeClusterID st1 e = ClusterID st1 (source (G st1) e)).
  { intros e He Heq. rewrite HE, decide_True; done. }
  assert (Hag1 : ∀ w, w ∈ nodesG (constGraph CG) ->
                      ∃ d, copy st1 w = Some d ∧ original st1 d = Some w).
  { intros w Hw. unfold copy, original. rewrite HP. by apply Hag. }
  unfold initCC_nodes. erewrite bind_ok; cycle 1.
  { apply initCC_nodes_loop. intros v Hv. destruct (Hag1 v Hv) as (d & -> & _). done. }
  set (st1n := set_nodeClusterID _ st1).
  assert (Hsame : ∀ u, ClusterID st1n u = ClusterID st1 u).
  { intros u. unfold st1n, ClusterID. simpl.
    destruct (original st1 u) as [v|] eqn:Eo.
    - destruct (decide (v ∈ nodesG (constGraph CG) ∧ copy st1 v = Some u))
        as [[Hv Hc]|Hn].
      + rewrite (nodeIDs_after_copy st1 _ _ v u); [|done..].
        symmetry. by apply Hcopies.
      + apply nodeIDs_after_other. intros w Hw Hc.
        destruct (Hag1 w Hw) as (d & Hd & Ho). apply Hn.
        assert (d = u) as -> by congruence. split; congruence.
    - apply nodeIDs_after_other. intros w Hw Hc.
      destruct (Hag1 w Hw) as (d & Hd & Ho). congruence. }
  unfold initCC_edges. unfold bind at 1, gets at 1. simpl.
  destruct (initCC_edges_loop (edges (G st1n)) st1n)
    as (st2 & Hrun2 & HP2 & HN2 & HR2 & HC2 & HE2).
  exists st2. split; [exact Hrun2|]. split.
  - intros v. rewrite HN2. apply Hsame.
  - intros e. rewrite HE2. change (G st1n) with (G st1). rewrite !Hsame.
    destruct (decide _) as [[He Heq]|Hn]; [|done].
    symmetry. by apply Hedges.
Qed.

(** C9. [initCC] is idempotent: for every component index [i], the
    second of two calls in succession ends as the first and leaves the
    state, and with it the node and edge cluster-id arrays, as the first
    call left it; and the loops of [initCC] alone, run again on that
    state, change no cluster-id either. *)
Theorem initCC_idempotent (i : Z) (st : ClusterPlanRep) :
  let once := initCC CG initByCC i st in
  let twice := initCC CG initByCC i (snd once) in
  twice = once ∧
  (∀ v, m_nodeClusterID (snd twice) v = m_nodeClusterID (snd once) v) ∧
  (∀ e, m_edgeClusterID (snd twice) e = m_edgeClusterID (snd once) e) ∧
  ((∀ v, v ∈ nodesG (constGraph CG) ->
         ∃ c, m_vCopy (initByCC i) v = Some c ∧ m_vOrig (initByCC i) c = Some v) ->
   fst once = Ok tt ∧
   ∃ st2, (initCC_nodes CG ;; initCC_edges) (snd once) = (Ok tt, st2) ∧
          (∀ v, m_nodeClusterID st2 v = m_nodeClusterID (snd once) v) ∧
          (∀ e, m_edgeClusterID st2 e = m_edgeClusterID (snd once) e)).
Proof.
  intros once twice.
  assert (Heq : twice = once).
  { subst twice once. destruct (initCC CG initByCC i st) as [r st1] eqn:E. simpl.
    rewrite <- E. apply initCC_depends.
    - by apply (initCC_keeps_rootAdj i _ _ _ E).
    - by apply (initCC_keeps_clusterOfIndex i _ _ _ E). }
  split; [done|]. rewrite Heq. do 2 (split; [done|]).
  intros Hag. subst once.
  destruct (initCC_run i st) as (st1 & Hrun & _).
  { intros v Hv. destruct (Hag v Hv) as (c & -> & _). done. }
  rewrite Hrun. simpl. split; [done|]. by eapply initCC_loops_again.
Qed.

End InitCC.

(** The component example: the nodes 0 and 1 take the index 12 of
    cluster 2 and node 2 the index 13 of cluster 3; edge 0 lies in
    cluster 2, edge 1 joins two clusters and stays at -1. *)
Lemma initCC_cluster_ids_witness :
  ∃ st', initCC path_CG path_initByCC 0 (ClusterPlanRep_new path_CG (path_initByCC 0))
         = (Ok tt, st') ∧
         ClusterID st' 0 = 12%Z ∧ ClusterID st' 1 = 12%Z ∧ ClusterID st' 2 = 13%Z ∧
         m_edgeClusterID st' 0 = 12%Z ∧ m_edgeClusterID st' 1 = (-1)%Z.
Proof.
  destruct (initCC_cluster_ids path_CG path_initByCC 0
              (ClusterPlanRep_new path_CG (path_initByCC 0)))
    as (st' & Hrun & HP & Hcopies & Hedges & _ & Hotheredges).
  { intros v Hv. exists v.
    repeat (apply elem_of_cons in Hv as [->|Hv]); [by vm_compute..|].
    by apply elem_of_nil in Hv. }
  exists st'. split; [exact Hrun|].
  assert (H0 : ClusterID st' 0 = 12%Z).
  { apply (Hcopies 0 0); [by left|]. unfold copy. by rewrite HP. }
  assert (H1 : ClusterID st' 1 = 12%Z).
  { apply (Hcopies 1 1); [right; by left|]. unfold copy. by rewrite HP. }
  assert (H2 : ClusterID st' 2 = 13%Z).
  { apply (Hcopies 2 2); [right; right; by left|]. unfold copy. by rewrite HP. }
  assert (HG : G st' = graph (path_initByCC 0)) by (unfold G; by rewrite HP).
  do 3 (split; [done|]). split.
  - rewrite (Hedges 0); rewrite HG.
    + exact H0.
    + by left.
    + change (ClusterID st' 0 = ClusterID st' 1). congruence.
  - apply Hotheredges. rewrite HG. intros [_ Heq].
    change (ClusterID st' 1 = ClusterID st' 2) in Heq. congruence.
Defined.

(** The component example, reset twice. *)
Lemma initCC_idempotent_witness :
  let st := ClusterPlanRep_new path_CG (path_initByCC 0) in
  let once := initCC path_CG path_initByCC 0 st in
  fst once = Ok tt ∧
  ∃ st2, (initCC_nodes path_CG ;; initCC_edges) (snd once) = (Ok tt, st2) ∧
         (∀ v, m_nodeClusterID st2 v = m_nodeClusterID (snd once) v) ∧
         (∀ e, m_edgeClusterID st2 e = m_edgeClusterID (snd once) e).
Proof.
  intros st once.
  apply (initCC_idempotent path_CG path_initByCC 0 st).
  intros v Hv. exists v.
  repeat (apply elem_of_cons in Hv as [->|Hv]); [by vm_compute..|].
  by apply elem_of_nil in Hv.
Defined.

(* ================================================================== *)
(** ** Boundary insertion *)

Section Boundary.

Variable debug : bool.
Variable CG : ClusterGraph.
Variable representsCombEmbedding : ClusterPlanRep -> bool.

Lemma bind_OGDF_ASSERT {S B} (c : bool) (k : unit -> M S B) s :
  bind (OGDF_ASSERT debug c) k s
  = if debug && negb c then (Err AssertionFailed, s) else k tt s.
Proof. unfold OGDF_ASSERT. by destruct (debug && negb c). Qed.

Lemma bind_onCpr_split {B} (e : edge) (k : edge -> M BoundaryState B) s :
  bind (onCpr (split e)) k s
  = k (snd (PlanRep_split (planRep (cpr s)) e))
      (set_cpr (set_planRep (fst (PlanRep_split (planRep (cpr s)) e)) (cpr s)) s).
Proof.
  unfold bind, onCpr, split. by destruct (PlanRep_split (planRep (cpr s)) e).
Qed.

Lemma PlanRep_split_edge P e : snd (PlanRep_split P e) = m_edgeIdCount (graph P).
Proof. done. Qed.

Lemma PlanRep_split_graph P e :
  graph (fst (PlanRep_split P e)) = fst (Graph_split (graph P) e).
Proof. done. Qed.

Lemma PlanRep_split_source P e :
  source (graph (fst (PlanRep_split P e))) (m_edgeIdCount (graph P))
  = m_nodeIdCount (graph P).
Proof. unfold source. simpl. apply fn_lookup_insert. Qed.

Lemma head_insert_after a x l : head (insert_after a x l) = head l.
Proof. destruct l as [|y l]; [done|]. simpl. by case_decide. Qed.

(** A split leaves the first edge of every chain in place. *)
Lemma PlanRep_split_chain_head P e eG :
  head (m_eCopy (fst (PlanRep_split P e)) eG) = head (m_eCopy P eG).
Proof.
  simpl. destruct (m_eOrig P e) as [eo|]; [|done].
  unfold alter, fn_alter. case_decide; [|done]. subst. apply head_insert_after.
Qed.

Lemma PlanRep_split_clusterBoundary P e e' :
  e' ≠ m_edgeIdCount (graph P) ->
  m_clusterBoundary (fst (PlanRep_split P e)) e' = m_clusterBoundary P e'.
Proof. intros Hne. simpl. by rewrite fn_lookup_insert_ne. Qed.

(** What a split does to the graph: one node and one edge more, both
    with the next free number; the new edge leaves the new node, the
    split edge ends there, and their entries at the new node are the two
    new entries. *)
Lemma Graph_split_facts g e :
  let g' := fst (Graph_split g e) in
  let u := m_nodeIdCount g in
  let e2 := m_edgeIdCount g in
  nodes g' = nodes g ++ [u] ∧ edges g' = edges g ++ [e2] ∧
  m_nodeIdCount g' = S u ∧ m_edgeIdCount g' = S e2 ∧
  m_adjIdCount g' = S (S (m_adjIdCount g)) ∧
  source g' e2 = u ∧ target g' e = u ∧
  (e ≠ e2 -> target g' e2 = target g e ∧ source g' e = source g e) ∧
  adjTarget g' e = m_adjIdCount g ∧ adjSource g' e2 = S (m_adjIdCount g) ∧
  m_node g' (m_adjIdCount g) = u ∧ m_node g' (S (m_adjIdCount g)) = u ∧
  (∀ a, a < m_adjIdCount g -> m_node g' a = m_node g a).
Proof.
  unfold source, target, adjSource, adjTarget. simpl.
  repeat split; rewrite ?fn_lookup_insert; try done.
  - rewrite fn_lookup_insert_ne by done. apply fn_lookup_insert.
  - by rewrite fn_lookup_insert_ne.
  - rewrite fn_lookup_insert_ne by lia. apply fn_lookup_insert.
  - intros a Ha. rewrite !fn_lookup_insert_ne by lia. done.
Qed.

(** What the insertion of an edge does to the graph: one edge more,
    from the node of the one entry to the node of the other; the entries
    that were there stay at their nodes. *)
Lemma Graph_newEdge_facts g adjSrc adjTgt :
  let g' := fst (Graph_newEdge g adjSrc adjTgt) in
  let e := m_edgeIdCount g in
  snd (Graph_newEdge g adjSrc adjTgt) = e ∧
  nodes g' = nodes g ∧ edges g' = edges g ++ [e] ∧
  m_nodeIdCount g' = m_nodeIdCount g ∧ m_edgeIdCount g' = S e ∧
  m_adjIdCount g' = S (S (m_adjIdCount g)) ∧
  source g' e = m_node g adjSrc ∧ target g' e = m_node g adjTgt ∧
  (∀ e', e' ≠ e -> source g' e' = source g e' ∧ target g' e' = target g e') ∧
  (∀ a, a < m_adjIdCount g -> m_node g' a = m_node g a).
Proof.
  unfold source, target. simpl.
  repeat split; rewrite ?fn_lookup_insert; try done.
  - by rewrite fn_lookup_insert_ne.
  - by rewrite fn_lookup_insert_ne.
  - intros a Ha. rewrite !fn_lookup_insert_ne by lia. done.
Qed.

Lemma bind_onCpr_newEdge {B} (a b : adjEntry) (k : edge -> M BoundaryState B) s :
  bind (onCpr (newEdge a b)) k s
  = k (m_edgeIdCount (G (cpr s)))
      (set_cpr (set_planRep (fst (PlanRep_newEdge (planRep (cpr s)) a b)) (cpr s)) s).
Proof. done. Qed.

Lemma PlanRep_newEdge_graph P a b :
  graph (fst (PlanRep_newEdge P a b)) = fst (Graph_newEdge (graph P) a b).
Proof. done. Qed.

Lemma PlanRep_newEdge_clusterBoundary P a b :
  m_clusterBoundary (fst (PlanRep_newEdge P a b)) = m_clusterBoundary P.
Proof. done. Qed.

Opaque PlanRep_split PlanRep_newEdge.

Lemma twinG_ne it : twinG it ≠ it.
Proof. destruct it as [e []]; unfold twinG; simpl; congruence. Qed.

(** Runs the monad in the goal as far as the equations go; conditions
    are decided by the facts at hand. *)
Ltac mrun :=
  repeat first
    [ rewrite bind_bind | rewrite bind_ret | rewrite bind_gets
    | rewrite bind_modify | rewrite bind_throw | rewrite bind_deref_Some
    | rewrite bind_onCpr_modify | rewrite bind_onCpr_split
    | rewrite bind_OGDF_ASSERT
    | rewrite fn_lookup_insert
    | rewrite (fn_lookup_insert_ne _ (twinG _)) by apply twinG_ne
    | rewrite andb_false_r
    | match goal with
      | H : ?x = _ |- context [?x] => rewrite H
      end
    | progress simpl ].

Lemma insertBoundary_split_run C leaf it isLast srcs tgts s splitE :
  realizing s it = Some splitE ->
  let d := directionAt leaf s it in
  let g := G (cpr s) in
  let newE := m_edgeIdCount g in
  let u := m_nodeIdCount g in
  let P' := fst (PlanRep_split (planRep (cpr s)) splitE) in
  let g' := graph P' in
  ∃ s',
    insertBoundary_split debug CG C leaf it isLast (srcs, tgts) s
    = (Ok (if (d =? 1)%Z
           then (srcs ++ [adjSource g' newE], tgts ++ [adjTarget g' splitE])
           else (srcs ++ [adjTarget g' splitE], tgts ++ [adjSource g' newE])), s') ∧
    planRep (cpr s') = P' ∧
    m_nodeClusterID (cpr s') = <[u := index CG C]> (m_nodeClusterID (cpr s)) ∧
    m_edgeClusterID (cpr s') = m_edgeClusterID (cpr s) ∧
    m_clusterOfIndex (cpr s') = m_clusterOfIndex (cpr s) ∧
    m_rootAdj (cpr s') =
      (if bool_decide (parent CG C = Some (rootCluster CG)) && isLast
       then Some (adjSource g' (if (d =? 1)%Z then newE else splitE))
       else m_rootAdj (cpr s)) ∧
    (∀ a, outEdge s' a = if decide (a = it) then d else outEdge s a) ∧
    (∀ a, currentEdge s' a =
          if (d =? 1)%Z
          then if decide (a = it ∨ a = twinG it) then Some newE else currentEdge s a
          else if decide (a = it) then Some splitE else currentEdge s a).
Proof.
  intros Hr d g newE u P' g'. subst d g newE u P' g'.
  unfold realizing in Hr.
  unfold insertBoundary_split, setCurrentEdge, setOutEdge, setNodeClusterID,
    directionAt, dirOf.
  destruct (currentEdge s it) as [e0|] eqn:Ecur; simplify_eq;
    destruct (bool_decide (parent CG C = Some (rootCluster CG)) && isLast) eqn:Eroot;
    (destruct leaf;
     [ destruct (isSource it) eqn:Esrc
     | destruct (outEdge s it =? 2)%Z eqn:Eout;
       [ destruct (isSource it) eqn:Esrc
       | destruct (outEdge s it =? 1)%Z eqn:Eone ] ]);
    mrun.
  all: rewrite ?PlanRep_split_edge.
  all: unfold G; simpl; rewrite ?PlanRep_split_source.
  all: eexists; split; [reflexivity|]; simpl.
  all: repeat split; try done.
  all: intros a; unfold insert, fn_insert; repeat case_decide; simplify_eq/=;
    try done; try congruence; exfalso; intuition congruence.
Qed.

#[local] Hint Resolve reads_OGDF_ASSERT : reads.

Lemma setsDirections_keeps {A} (m : M BoundaryState A) :
  keeps outEdge m -> setsDirections m.
Proof. intros Hm s r s' H a. left. by rewrite (Hm _ _ _ H). Qed.

Lemma setsDirections_bind {A B} (m : M BoundaryState A) (k : A -> M BoundaryState B) :
  setsDirections m -> (∀ x, setsDirections (k x)) -> setsDirections (bind m k).
Proof.
  intros Hm Hk s r s' H a. unfold bind in H.
  destruct (m s) as [[x|e] s1] eqn:E.
  - destruct (Hk _ _ _ _ H a) as [-> | ->]; [|by right]. by eapply Hm.
  - simplify_eq. by eapply Hm.
Qed.

Lemma setsDirections_setOutEdge it : setsDirections (setOutEdge it (dirOf it)).
Proof.
  intros s r s' [= _ <-] a. simpl. unfold insert, fn_insert.
  case_decide; [subst; by right|by left].
Qed.

Lemma keeps_onCpr {A B} (proj : BoundaryState -> B) (m : M ClusterPlanRep A) :
  (∀ st s, proj (set_cpr st s) = proj s) -> keeps proj (onCpr m).
Proof.
  intros Hp s r s' H. unfold onCpr in H.
  destruct (m (cpr s)) as [r0 st]. simplify_eq. apply Hp.
Qed.

(** Proves [setsDirections m] along the structure of [m]. *)
Ltac directions_tac :=
  repeat first
    [ apply setsDirections_setOutEdge
    | apply setsDirections_bind; [|intros ?]
    | solve [apply setsDirections_keeps;
             first [ by apply keeps_onCpr
                   | apply keeps_modify; done
                   | apply keeps_reads; reads_tac ]]
    | case_bool_decide
    | case_match ].

Lemma insertBoundary_split_directions C leaf it isLast lists :
  setsDirections (insertBoundary_split debug CG C leaf it isLast lists).
Proof.
  unfold insertBoundary_split, setCurrentEdge. destruct lists as [srcs tgts].
  change (if isSource it then 1%Z else 0%Z) with (dirOf it).
  directions_tac.
Qed.

Lemma insertBoundary_splits_directions C leaf L lists :
  setsDirections (insertBoundary_splits debug CG C leaf L lists).
Proof.
  revert lists. induction L as [|it L IH]; intros lists; simpl.
  - apply setsDirections_keeps, keeps_reads, reads_ret.
  - apply setsDirections_bind; [apply insertBoundary_split_directions|].
    intros lists'. apply IH.
Qed.

Lemma insertBoundary_connect_keeps {B} (proj : BoundaryState -> B) C srcs tgts :
  (∀ st s, proj (set_cpr st s) = proj s) ->
  keeps proj (insertBoundary_connect debug CG representsCombEmbedding C srcs tgts).
Proof.
  intros Hp. revert srcs. induction tgts as [|t tgts IH]; intros srcs; simpl.
  - apply keeps_reads, reads_ret.
  - repeat first
      [ apply IH
      | apply keeps_bind; [|intros ?]
      | solve [by apply keeps_onCpr]
      | solve [apply keeps_reads; reads_tac] ].
Qed.

Lemma insertBoundary_directions C leaf :
  setsDirections (insertBoundary debug CG representsCombEmbedding C leaf).
Proof.
  unfold insertBoundary.
  repeat first
    [ apply insertBoundary_splits_directions
    | apply setsDirections_bind; [|intros ?]
    | solve [apply setsDirections_keeps; by apply insertBoundary_connect_keeps]
    | solve [apply setsDirections_keeps, keeps_reads; reads_tac]
    | case_bool_decide
    | case_match ].
Qed.

(** Induction on a cluster tree, with the children's property at hand. *)
Lemma ClusterTree_induction (P : ClusterTree -> Prop) :
  (∀ c kids, Forall P kids -> P (ClusterNode c kids)) -> ∀ t, P t.
Proof.
  intros H. fix IH 1. intros [c kids]. apply H.
  induction kids as [|k kids IHk]; constructor; [apply IH|apply IHk].
Qed.

Lemma convertClusterGraph_directions t :
  setsDirections (convertClusterGraph debug CG representsCombEmbedding t).
Proof.
  induction t as [c kids IH] using ClusterTree_induction. simpl.
  apply setsDirections_bind.
  { case_match; [|apply setsDirections_keeps, keeps_reads, reads_ret].
    repeat first
      [ apply setsDirections_bind; [|intros ?]
      | solve [apply setsDirections_keeps; by apply keeps_onCpr]
      | solve [apply setsDirections_keeps, keeps_reads; reads_tac] ]. }
  intros _. apply setsDirections_bind.
  { induction IH as [|k kids Hk _ IHkids].
    - apply setsDirections_keeps, keeps_reads, reads_ret.
    - apply setsDirections_bind; [exact Hk|]. intros _. exact IHkids. }
  intros _. case_match.
  - apply setsDirections_keeps, keeps_reads, reads_ret.
  - apply insertBoundary_directions.
Qed.

(** From a consistent array, a computation that sets directions leaves
    a consistent array in which every defined flag is as before. *)
Lemma setsDirections_consistent {A} (m : M BoundaryState A) s r s' :
  setsDirections m -> m s = (r, s') ->
  directionsConsistent (outEdge s) ->
  directionsConsistent (outEdge s') ∧ directionsKept (outEdge s) (outEdge s').
Proof.
  intros Hm H Hc. split.
  - intros a. destruct (Hm _ _ _ H a) as [-> | ->]; [apply Hc|by right].
  - intros a Ha. destruct (Hm _ _ _ H a) as [-> | Hd]; [done|].
    destruct (Hc a) as [? | ->]; done.
Qed.

(** C5. In step 3 of the boundary insertion, after the edge [splitE]
    that realizes the entry [it] has been split into [splitE], which
    keeps its source and now ends at the new node, and the new piece
    [newE], which runs from the new node to the old target: if the
    direction of [it] is outgoing (1), [currentEdge] of [it] and of its
    twin are both [newE]; if not, [currentEdge] of [it] is [splitE] and
    the entry of the twin is as before.  No other entry of [currentEdge]
    changes. *)
Theorem currentEdge_rebinding C leaf it isLast srcs tgts s splitE :
  realizing s it = Some splitE ->
  ∃ lists s',
    insertBoundary_split debug CG C leaf it isLast (srcs, tgts) s = (Ok lists, s') ∧
    let g := G (cpr s) in
    let g' := G (cpr s') in
    let newE := m_edgeIdCount g in
    let u := m_nodeIdCount g in
    g' = fst (Graph_split g splitE) ∧
    source g' newE = u ∧ target g' splitE = u ∧
    (splitE ≠ newE ->
     target g' newE = target g splitE ∧ source g' splitE = source g splitE) ∧
    outEdge s' it = directionAt leaf s it ∧
    (outEdge s' it = 1%Z ->
     currentEdge s' it = Some newE ∧ currentEdge s' (twinG it) = Some newE ∧
     ∀ a, a ≠ it -> a ≠ twinG it -> currentEdge s' a = currentEdge s a) ∧
    (outEdge s' it ≠ 1%Z ->
     currentEdge s' it = Some splitE ∧
     currentEdge s' (twinG it) = currentEdge s (twinG it) ∧
     ∀ a, a ≠ it -> currentEdge s' a = currentEdge s a).
Proof.
  intros Hr.
  destruct (insertBoundary_split_run C leaf it isLast srcs tgts s splitE Hr)
    as (s' & Hrun & HP & _ & _ & _ & _ & Hout & Hcur).
  eexists _, s'. split; [exact Hrun|]. simpl.
  assert (HG : G (cpr s') = fst (Graph_split (G (cpr s)) splitE)).
  { unfold G. rewrite HP. apply PlanRep_split_graph. }
  destruct (Graph_split_facts (G (cpr s)) splitE)
    as (_ & _ & _ & _ & _ & Hsrc & Htgt & Hold & _).
  rewrite HG. do 4 (split; [done|]).
  assert (Hit : outEdge s' it = directionAt leaf s it).
  { rewrite Hout. by rewrite decide_True. }
  split; [done|]. rewrite Hit. split.
  - intros Hd. apply Z.eqb_eq in Hd. split; [|split].
    + rewrite Hcur, Hd. rewrite decide_True; [done|]. by left.
    + rewrite Hcur, Hd. rewrite decide_True; [done|]. by right.
    + intros a Ha1 Ha2. rewrite Hcur, Hd. rewrite decide_False; [done|].
      intros [?|?]; done.
  - intros Hd. apply Z.eqb_neq in Hd. split; [|split].
    + rewrite Hcur, Hd. by rewrite decide_True.
    + rewrite Hcur, Hd. rewrite decide_False; [done|]. apply twinG_ne.
    + intros a Ha. rewrite Hcur, Hd. by rewrite decide_False.
Qed.

Lemma directionAt_consistent leaf s it :
  directionsConsistent (outEdge s) ->
  directionAt leaf s it = if (outEdge s it =? 2)%Z then dirOf it else outEdge s it.
Proof.
  intros Hc. unfold directionAt. destruct leaf; [|done].
  destruct (outEdge s it =? 2)%Z eqn:E; [done|].
  apply Z.eqb_neq in E. by destruct (Hc it).
Qed.

(** C8. Throughout a pass over a cluster tree that starts with
    consistent direction flags (as [ModelBoundaries] starts it, with all
    flags undefined), the flag of an entry changes its value at most
    once: the round of the entry sets an undefined flag (2) to 1 when
    the entry is the source end of its edge (the edge starts inside the
    cluster) and to 0 otherwise, and leaves a defined flag; and no
    insertion of a boundary, and so no pass over a tree or a subtree,
    changes a defined flag. *)
Theorem direction_fixed_once t C leaf it isLast lists s :
  directionsConsistent (outEdge s) ->
  (let s' := snd (convertClusterGraph debug CG representsCombEmbedding t s) in
   directionsConsistent (outEdge s') ∧ directionsKept (outEdge s) (outEdge s')) ∧
  (let s' := snd (insertBoundary debug CG representsCombEmbedding C leaf s) in
   directionsConsistent (outEdge s') ∧ directionsKept (outEdge s) (outEdge s')) ∧
  (let s' := snd (insertBoundary_split debug CG C leaf it isLast lists s) in
   directionsConsistent (outEdge s') ∧ directionsKept (outEdge s) (outEdge s') ∧
   (realizing s it ≠ None ->
    ∀ a, outEdge s' a =
         if decide (a = it)
         then if (outEdge s it =? 2)%Z then dirOf it else outEdge s it
         else outEdge s a)).
Proof.
  intros Hc. split; [|split].
  - destruct (convertClusterGraph _ _ _ t s) as [r s'] eqn:E. simpl.
    eapply setsDirections_consistent; [apply convertClusterGraph_directions|done..].
  - destruct (insertBoundary _ _ _ C leaf s) as [r s'] eqn:E. simpl.
    eapply setsDirections_consistent; [apply insertBoundary_directions|done..].
  - destruct (insertBoundary_split _ _ C leaf it isLast lists s) as [r s'] eqn:E.
    simpl.
    destruct (setsDirections_consistent _ _ _ _
                (insertBoundary_split_directions C leaf it isLast lists) E Hc)
      as [H1 H2].
    do 2 (split; [done|]). intros Hr a.
    destruct (realizing s it) as [splitE|] eqn:Er; [|done].
    destruct lists as [srcs tgts].
    destruct (insertBoundary_split_run C leaf it isLast srcs tgts s splitE Er)
      as (s'' & Hrun & _ & _ & _ & _ & _ & Hout & _).
    rewrite Hrun in E. injection E as _ <-.
    rewrite Hout. by rewrite directionAt_consistent.
Qed.

Lemma splits_post_nil C s : splits_post CG C 0 s [] [] s.
Proof.
  unfold splits_post. simpl. rewrite !app_nil_r, !Nat.add_0_r.
  repeat split; try done; try lia.
  - by destruct H.
  - by destruct H.
Qed.

Lemma splits_post_app C k1 k2 s s1 s2 l1 l2 l1' l2' :
  splits_post CG C k1 s l1 l2 s1 -> splits_post CG C k2 s1 l1' l2' s2 ->
  splits_post CG C (k1 + k2) s (l1 ++ l1') (l2 ++ l2') s2.
Proof.
  unfold splits_post.
  intros (Hn1 & He1 & Hnc1 & Hec1 & Hac1 & Hl1 & Hl2 & Hat1 & Hold1 & Hid1 & Hfr1
          & Heid1 & Hci1 & Hb1 & Hr1)
         (Hn2 & He2 & Hnc2 & Hec2 & Hac2 & Hl1' & Hl2' & Hat2 & Hold2 & Hid2 & Hfr2
          & Heid2 & Hci2 & Hb2 & Hr2).
  repeat split.
  - rewrite Hn2, Hn1, Hnc1, seq_app. by rewrite <- app_assoc.
  - rewrite He2, He1, Hec1, seq_app. by rewrite <- app_assoc.
  - nlia.
  - nlia.
  - nlia.
  - rewrite length_app. nlia.
  - rewrite length_app. nlia.
  - destruct H as [H|H]; apply lookup_app_Some in H as [H|[Hi H]].
    + destruct (Hat1 i a) as [? _]; [by left|]. nlia.
    + destruct (Hat2 (i - length l1) a) as [? _]; [by left|]. done.
    + destruct (Hat1 i a) as [? _]; [by right|]. nlia.
    + destruct (Hat2 (i - length l2) a) as [? _]; [by right|]. done.
  - destruct H as [H|H]; apply lookup_app_Some in H as [H|[Hi H]].
    + destruct (Hat1 i a) as [Ha Hm]; [by left|]. by rewrite Hold2.
    + destruct (Hat2 (i - length l1) a) as [_ Hm]; [by left|]. rewrite Hm. nlia.
    + destruct (Hat1 i a) as [Ha Hm]; [by right|]. by rewrite Hold2.
    + destruct (Hat2 (i - length l2) a) as [_ Hm]; [by right|]. rewrite Hm. nlia.
  - intros a Ha. rewrite Hold2 by nlia. by apply Hold1.
  - intros i Hi. destruct (decide (i < k1)) as [Hlt|Hge].
    + rewrite Hfr2 by nlia. by apply Hid1.
    + replace (m_nodeIdCount (G (cpr s)) + i)
        with (m_nodeIdCount (G (cpr s1)) + (i - k1)) by nlia.
      apply Hid2. nlia.
  - intros v Hv. rewrite Hfr2 by nlia. by apply Hfr1.
  - by rewrite Heid2.
  - by rewrite Hci2.
  - intros e He. rewrite Hb2 by nlia. by apply Hb1.
  - intros a Ha. by apply Hr2, Hr1.
Qed.

(** One round of the first loop. *)
Lemma insertBoundary_split_post C leaf it isLast srcs0 tgts0 s :
  realizing s it ≠ None ->
  ∃ a1 a2 s',
    insertBoundary_split debug CG C leaf it isLast (srcs0, tgts0) s
    = (Ok (srcs0 ++ [a1], tgts0 ++ [a2]), s') ∧
    splits_post CG C 1 s [a1] [a2] s'.
Proof.
  intros Hr. destruct (realizing s it) as [splitE|] eqn:Er; [clear Hr|done].
  destruct (insertBoundary_split_run C leaf it isLast srcs0 tgts0 s splitE Er)
    as (s' & Hrun & HP & Hid & Heid & Hci & _ & _ & Hcur).
  assert (HG : G (cpr s') = fst (Graph_split (G (cpr s)) splitE)).
  { unfold G. rewrite HP. apply PlanRep_split_graph. }
  destruct (Graph_split_facts (G (cpr s)) splitE)
    as (Hn & He & Hnc & Hec & Hac & _ & _ & _ & HaT & HaS & Hm1 & Hm2 & Hold).
  pose proof HaT as HaT'. pose proof HaS as HaS'.
  rewrite <- HG in Hn, He, Hnc, Hec, Hac, HaT, HaS, Hm1, Hm2, Hold.
  assert (Hpost : ∀ a1 a2,
    (a1 = m_adjIdCount (G (cpr s)) ∨ a1 = S (m_adjIdCount (G (cpr s)))) ->
    (a2 = m_adjIdCount (G (cpr s)) ∨ a2 = S (m_adjIdCount (G (cpr s)))) ->
    splits_post CG C 1 s [a1] [a2] s').
  { intros a1 a2 H1 H2. unfold splits_post. repeat split; try done; try lia.
    - destruct H as [H|H]; apply list_lookup_singleton_Some in H as [-> <-];
        destruct H1, H2; lia.
    - destruct H as [H|H]; apply list_lookup_singleton_Some in H as [-> <-];
        rewrite Nat.add_0_r; destruct H1, H2; subst; done.
    - intros i Hi. assert (i = 0) as -> by lia. rewrite Nat.add_0_r, Hid.
      apply fn_lookup_insert.
    - intros v Hv. rewrite Hid. rewrite fn_lookup_insert_ne; [done|].
      unfold G in *. nlia.
    - intros e He'. unfold isClusterBoundary. rewrite HP.
      apply PlanRep_split_clusterBoundary. unfold G in *. nlia.
    - intros a Ha. unfold realizing in *. rewrite Hcur.
      assert (Hc : copyE (cpr s') (theEdge a) = copyE (cpr s) (theEdge a)).
      { unfold copyE. rewrite HP. apply PlanRep_split_chain_head. }
      rewrite Hc. destruct (directionAt leaf s it =? 1)%Z;
        repeat case_decide; done. }
  destruct (directionAt leaf s it =? 1)%Z;
    eexists _, _, s'; (split; [exact Hrun|]);
    apply Hpost; rewrite PlanRep_split_graph;
    first [ left; exact HaT' | right; exact HaS' ].
Qed.

(** The first loop. *)
Lemma insertBoundary_splits_post C leaf L : ∀ srcs0 tgts0 s,
  (∀ it, it ∈ L -> realizing s it ≠ None) ->
  ∃ srcs tgts s',
    insertBoundary_splits debug CG C leaf L (srcs0, tgts0) s
    = (Ok (srcs0 ++ srcs, tgts0 ++ tgts), s') ∧
    splits_post CG C (length L) s srcs tgts s'.
Proof.
  induction L as [|it L IH]; intros srcs0 tgts0 s Hr.
  - exists [], [], s. rewrite !app_nil_r. split; [done|]. apply splits_post_nil.
  - destruct (insertBoundary_split_post C leaf it (bool_decide (L = []))
                srcs0 tgts0 s) as (a1 & a2 & s1 & Hrun1 & Hpost1).
    { apply Hr. by left. }
    destruct (IH (srcs0 ++ [a1]) (tgts0 ++ [a2]) s1)
      as (srcs & tgts & s2 & Hrun2 & Hpost2).
    { intros it' Hit'.
      destruct Hpost1 as (_ & _ & _ & _ & _ & _ & _ & _ & _ & _ & _ & _ & _ & _ & Hr1).
      apply Hr1, Hr. by right. }
    exists (a1 :: srcs), (a2 :: tgts), s2. split.
    + simpl. erewrite bind_ok; [|exact Hrun1]. rewrite Hrun2.
      by rewrite <- !app_assoc.
    + apply (splits_post_app C 1 (length L) s s1 s2 [a1] [a2]); done.
Qed.

(** The second loop. *)
Lemma insertBoundary_connect_post C : ∀ tgts srcs s,
  length srcs = length tgts ->
  (∀ a, a ∈ srcs ∨ a ∈ tgts -> a < m_adjIdCount (G (cpr s))) ->
  (debug = true -> ∀ st, representsCombEmbedding st = true) ->
  ∃ s', insertBoundary_connect debug CG representsCombEmbedding C srcs tgts s
        = (Ok tt, s') ∧
        connect_post CG C (length tgts) s srcs tgts s'.
Proof.
  induction tgts as [|t tgts IH]; intros srcs s Hlen Hadj Hemb.
  - exists s. split; [done|]. unfold connect_post. simpl.
    rewrite app_nil_r, Nat.add_0_r. repeat split; try done; lia.
  - destruct srcs as [|a srcs]; [done|]. simpl in Hlen.
    simpl. unfold setClusterBoundary, setEdgeClusterID. mrun.
    rewrite bind_onCpr_newEdge. mrun.
    match goal with
    | |- context [debug && negb ?b] =>
        replace (debug && negb b) with false
          by (destruct debug; [rewrite Hemb|]; done)
    end.
    match goal with
    | |- ∃ s', insertBoundary_connect _ _ _ _ _ _ ?x = _ ∧ _ => set (s1 := x)
    end.
    assert (HG1 : G (cpr s1) = fst (Graph_newEdge (G (cpr s)) a t)).
    { unfold s1, G. simpl. apply PlanRep_newEdge_graph. }
    assert (Hb1 : ∀ e, isClusterBoundary (cpr s1) e
                       = <[m_edgeIdCount (G (cpr s)) := true]>
                           (isClusterBoundary (cpr s)) e).
    { intros e. unfold s1, isClusterBoundary. simpl.
      by rewrite PlanRep_newEdge_clusterBoundary. }
    assert (He1 : m_edgeClusterID (cpr s1)
                  = <[m_edgeIdCount (G (cpr s)) := index CG C]>
                      (m_edgeClusterID (cpr s))) by done.
    assert (Hs1 : m_nodeClusterID (cpr s1) = m_nodeClusterID (cpr s) ∧
                  m_clusterOfIndex (cpr s1) = m_clusterOfIndex (cpr s) ∧
                  m_rootAdj (cpr s1) = m_rootAdj (cpr s) ∧
                  currentEdge s1 = currentEdge s ∧ outEdge s1 = outEdge s) by done.
    destruct Hs1 as (Hid1 & Hci1 & Hra1 & Hcu1 & Hou1).
    clearbody s1.
    destruct (Graph_newEdge_facts (G (cpr s)) a t)
      as (_ & Hn & He & Hnc & Hec & Hac & Hsrc & Htgt & Hold & Hnode).
    rewrite <- HG1 in Hn, He, Hnc, Hec, Hac, Hsrc, Htgt, Hold, Hnode.
    destruct (IH srcs s1) as (s' & Hrun & Hpost); [nlia| |done|].
    { intros a0 Ha0. rewrite Hac.
      assert (a0 < m_adjIdCount (G (cpr s))); [|nlia].
      apply Hadj. destruct Ha0; [left|right]; by right. }
    exists s'. split; [exact Hrun|].
    destruct Hpost as (Hn' & He' & Hnc' & Hec' & Hac' & Hst' & Hfr' & Hfl'
                       & Hid' & Hci' & Hra' & Hcu' & Hou').
    unfold connect_post. repeat split.
    + by rewrite Hn'.
    + rewrite He', He, Hec. rewrite <- app_assoc. done.
    + by rewrite Hnc'.
    + rewrite Hec', Hec. nlia.
    + nlia.
    + destruct i as [|i]; simpl in *; simplify_eq.
      * rewrite Nat.add_0_r. destruct (Hfr' (m_edgeIdCount (G (cpr s)))) as [-> _];
          [nlia|done].
      * replace (m_edgeIdCount (G (cpr s)) + S i)
          with (m_edgeIdCount (G (cpr s1)) + i) by nlia.
        destruct (Hst' i a0 b) as [-> _]; [done..|].
        apply Hnode, Hadj. left. right. by eapply list_elem_of_lookup_2.
    + destruct i as [|i]; simpl in *; simplify_eq.
      * rewrite Nat.add_0_r. destruct (Hfr' (m_edgeIdCount (G (cpr s))))
          as (_ & -> & _); [nlia|done].
      * replace (m_edgeIdCount (G (cpr s)) + S i)
          with (m_edgeIdCount (G (cpr s1)) + i) by nlia.
        destruct (Hst' i a0 b) as [_ ->]; [done..|].
        apply Hnode, Hadj. right. right. by eapply list_elem_of_lookup_2.
    + destruct (Hfr' e) as (-> & _); [nlia|]. apply Hold. nlia.
    + destruct (Hfr' e) as (_ & -> & _); [nlia|]. apply Hold. nlia.
    + destruct (Hfr' e) as (_ & _ & -> & _); [nlia|]. rewrite Hb1.
      rewrite fn_lookup_insert_ne; [done|]. nlia.
    + destruct (Hfr' e) as (_ & _ & _ & ->); [nlia|]. rewrite He1.
      rewrite fn_lookup_insert_ne; [done|]. nlia.
    + destruct i as [|i].
      * rewrite Nat.add_0_r.
        destruct (Hfr' (m_edgeIdCount (G (cpr s)))) as (_ & _ & -> & _); [nlia|].
        rewrite Hb1. apply fn_lookup_insert.
      * replace (m_edgeIdCount (G (cpr s)) + S i)
          with (m_edgeIdCount (G (cpr s1)) + i) by nlia.
        apply Hfl'. nlia.
    + destruct i as [|i].
      * rewrite Nat.add_0_r.
        destruct (Hfr' (m_edgeIdCount (G (cpr s)))) as (_ & _ & _ & ->); [nlia|].
        rewrite He1. apply fn_lookup_insert.
      * replace (m_edgeIdCount (G (cpr s)) + S i)
          with (m_edgeIdCount (G (cpr s1)) + i) by nlia.
        apply Hfl'. nlia.
    + by rewrite Hid', Hid1.
    + by rewrite Hci', Hci1.
    + by rewrite Hra', Hra1.
    + by rewrite Hcu', Hcu1.
    + by rewrite Hou', Hou1.
Qed.

(** C1. For a cluster [C] whose list of adjacent entries has [n >= 1]
    elements, [insertBoundary] inserts exactly [n] new nodes (one per
    split, each split leaving one new piece of the split edge behind)
    and exactly [n] new edges between them; every inserted edge is
    flagged as a boundary edge and has the index of [C] as its
    cluster-id, every inserted node has the index of [C] as its
    cluster-id, and together they form one simple cycle of length [n].
    A cluster with an empty list is skipped and the state is unchanged.
    The call ends well when every entry of the list has an edge that
    realizes it (and, in a debug build, the embedding check holds). *)
Theorem boundary_is_one_cycle C leaf s :
  (debug = true -> ∀ st, representsCombEmbedding st = true) ->
  (∀ it, it ∈ clusterAdjEntries CG C -> realizing s it ≠ None) ->
  let L := clusterAdjEntries CG C in
  let n := length L in
  let g := G (cpr s) in
  (L = [] ->
   insertBoundary debug CG representsCombEmbedding C leaf s = (Ok tt, s)) ∧
  (L ≠ [] ->
   ∃ s', insertBoundary debug CG representsCombEmbedding C leaf s = (Ok tt, s') ∧
     let g' := G (cpr s') in
     let us := seq (m_nodeIdCount g) n in
     let pieces := seq (m_edgeIdCount g) n in
     let bs := seq (m_edgeIdCount g + n) n in
     nodes g' = nodes g ++ us ∧
     edges g' = edges g ++ pieces ++ bs ∧
     (∀ u, u ∈ us -> ClusterID (cpr s') u = index CG C) ∧
     (∀ b, b ∈ bs -> isClusterBoundary (cpr s') b = true ∧
                     m_edgeClusterID (cpr s') b = index CG C) ∧
     simple_cycle g' us bs ∧
     (countersAhead g ->
      (∀ u, u ∈ us -> u ∉ nodes g) ∧ (∀ b, b ∈ pieces ++ bs -> b ∉ edges g))).
Proof.
  intros Hemb Hreal L n g. subst g.
  assert (Hassert : ∀ st (k : unit -> M BoundaryState unit) s0,
    bind (OGDF_ASSERT debug (representsCombEmbedding st)) k s0 = k tt s0).
  { intros st k s0. rewrite bind_OGDF_ASSERT.
    destruct debug; [rewrite Hemb|]; done. }
  unfold insertBoundary. rewrite bind_gets. cbv beta. rewrite Hassert. fold L. split.
  - intros HL. by rewrite bool_decide_eq_true_2.
  - intros HL. rewrite bool_decide_eq_false_2 by done.
    destruct (insertBoundary_splits_post C leaf L [] [] s Hreal)
      as (srcs & tgts & s1 & Hrun1 & Hpost1).
    erewrite bind_ok; [|exact Hrun1]. simpl.
    destruct Hpost1 as (Hn1 & He1 & Hnc1 & Hec1 & Hac1 & Hl1 & Hl2 & Hat1 & _
                        & Hid1 & _ & _ & _ & _ & _).
    fold n in Hn1, He1, Hnc1, Hec1, Hl1, Hl2, Hid1.
    rewrite bind_OGDF_ASSERT, bool_decide_eq_true_2, andb_false_r by congruence.
    destruct tgts as [|flipper tgts]; [simpl in Hl2; subst n; by destruct L|].
    simpl. rewrite bind_ret.
    destruct (insertBoundary_connect_post C (tgts ++ [flipper]) srcs s1)
      as (s2 & Hrun2 & Hpost2); [|  |done|].
    { rewrite length_app. simpl in *. lia. }
    { intros a [Ha|Ha].
      - apply list_elem_of_lookup in Ha as [i Hi]. by apply (Hat1 i a); left.
      - assert (a ∈ flipper :: tgts) as Ha'.
        { apply elem_of_app in Ha as [?|?%list_elem_of_singleton];
            [by right|subst; by left]. }
        apply list_elem_of_lookup in Ha' as [i Hi]. by apply (Hat1 i a); right. }
    erewrite bind_ok; [|exact Hrun2]. rewrite bind_gets. cbv beta.
    unfold OGDF_ASSERT.
    replace (debug && negb (representsCombEmbedding (cpr (id s2)))) with false
      by (destruct debug; [rewrite Hemb|]; done).
    exists s2. split; [done|].
    assert (Hlen : length (tgts ++ [flipper]) = n).
    { rewrite length_app. simpl in *. lia. }
    rewrite Hlen in Hpost2.
    destruct Hpost2 as (Hn2 & He2 & Hnc2 & Hec2 & _ & Hst2 & _ & Hfl2 & Hid2 & _).
    simpl. repeat split.
    + by rewrite Hn2.
    + rewrite He2, He1, Hec1. by rewrite <- app_assoc.
    + intros u [i [-> Hi]]%elem_of_seq_inv. unfold ClusterID. rewrite Hid2.
      by apply Hid1.
    + apply elem_of_seq_inv in H as [i [-> Hi]].
      rewrite <- Hec1. by apply Hfl2.
    + apply elem_of_seq_inv in H as [i [-> Hi]].
      rewrite <- Hec1. by apply Hfl2.
    + by rewrite !length_seq.
    + rewrite length_seq. subst n. destruct L; [done|simpl; lia].
    + apply NoDup_seq.
    + apply NoDup_seq.
    + apply lookup_seq in H as [-> Hi]. rewrite <- Hec1.
      destruct (lookup_lt_is_Some_2 srcs i) as [a Ha]; [lia|].
      destruct (lookup_lt_is_Some_2 (tgts ++ [flipper]) i) as [b Hb]; [lia|].
      destruct (Hst2 i a b Ha Hb) as [-> _].
      destruct (Hat1 i a) as [_ ->]; [by left|].
      symmetry. by apply lookup_seq.
    + apply lookup_seq in H as [-> Hi]. rewrite <- Hec1.
      destruct (lookup_lt_is_Some_2 srcs i) as [a Ha]; [lia|].
      destruct (lookup_lt_is_Some_2 (tgts ++ [flipper]) i) as [b Hb]; [lia|].
      destruct (Hst2 i a b Ha Hb) as [_ ->].
      rewrite length_seq.
      assert (Hn' : n = S (length tgts)) by (simpl in Hl2; lia).
      rewrite lookup_rotate in Hb by lia. rewrite <- Hn' in Hb.
      destruct (Hat1 ((i + 1) mod n) b) as [_ ->]; [by right|].
      symmetry. apply lookup_seq. split; [done|].
      apply Nat.mod_upper_bound. lia.
    + intros u [i [-> Hi]]%elem_of_seq_inv Hin. destruct H as [Hv _].
      apply Hv in Hin. nlia.
    + intros b Hb Hin. destruct H as [_ Hv]. apply Hv in Hin.
      apply elem_of_app in Hb as [Hb|Hb];
        apply elem_of_seq_inv in Hb as [i [-> Hi]]; nlia.
Qed.

End Boundary.

Transparent PlanRep_split PlanRep_newEdge.

(** The boundary example, all boundaries modelled: every cross edge is
    split once for each of the two clusters, and each cluster has its
    boundary of two nodes and two edges. *)
Example boundary_example_modelled :
  let st := snd (ModelBoundaries true boundary_CG (fun _ => true) boundary_cpr) in
  nodes (G st) = [0; 1; 2; 3; 4; 5; 6; 7] ∧
  map (fun e => (source (G st) e, target (G st) e, isClusterBoundary st e,
                 m_edgeClusterID st e))
      [4; 5; 6; 7; 8; 9; 10; 11]
  = [(4, 7, false, (-1)%Z); (5, 6, false, (-1)%Z);
     (4, 5, true, 11%Z); (5, 4, true, 11%Z);
     (6, 3, false, (-1)%Z); (7, 2, false, (-1)%Z);
     (6, 7, true, 12%Z); (7, 6, true, 12%Z)] ∧
  map (ClusterID st) [4; 5; 6; 7] = [11; 11; 12; 12]%Z.
Proof. vm_compute. done. Qed.

(** The boundary of cluster 1 of the boundary example: the nodes 4 and
    5 and the edges 6 and 7. *)
Lemma boundary_is_one_cycle_witness :
  ∃ s', insertBoundary true boundary_CG (fun _ => true) 1 true boundary_start
        = (Ok tt, s') ∧
        nodes (G (cpr s')) = [0; 1; 2; 3; 4; 5] ∧
        edges (G (cpr s')) = [0; 1; 2; 3] ++ [4; 5] ++ [6; 7] ∧
        simple_cycle (G (cpr s')) [4; 5] [6; 7].
Proof.
  destruct (proj2 (boundary_is_one_cycle true boundary_CG (fun _ => true) 1 true
                     boundary_start (fun _ _ => eq_refl)
                     ltac:(intros it Hit;
                           repeat (apply elem_of_cons in Hit as [->|Hit]);
                           [by vm_compute..|by apply elem_of_nil in Hit])))
    as (s' & Hrun & Hn & He & _ & _ & Hcyc & _).
  { by vm_compute. }
  exists s'. split; [exact Hrun|]. split; [exact Hn|]. split; [exact He|exact Hcyc].
Defined.

(** The first round for cluster 1 of the boundary example: the source
    end of edge 0 is outgoing, and it and its twin are bound to the new
    piece, edge 4. *)
Lemma currentEdge_rebinding_witness :
  ∃ lists s',
    insertBoundary_split true boundary_CG 1 true (AdjG 0 true) false ([], [])
      boundary_start = (Ok lists, s') ∧
    currentEdge s' (AdjG 0 true) = Some 4 ∧ currentEdge s' (AdjG 0 false) = Some 4.
Proof.
  destruct (currentEdge_rebinding true boundary_CG 1 true (AdjG 0 true) false [] []
              boundary_start 0)
    as (lists & s' & Hrun & _ & _ & _ & _ & Hdir & Hout & _).
  { by vm_compute. }
  exists lists, s'. split; [exact Hrun|].
  destruct Hout as (H1 & H2 & _); [by rewrite Hdir|]. by split.
Defined.

(** The pass over the boundary example starts with all flags undefined
    and ends with consistent flags. *)
Lemma direction_fixed_once_witness :
  let s' := snd (convertClusterGraph true boundary_CG (fun _ => true)
                   (clusterTree boundary_CG) boundary_start) in
  directionsConsistent (outEdge s') ∧
  directionsKept (outEdge boundary_start) (outEdge s').
Proof.
  apply (direction_fixed_once true boundary_CG (fun _ => true)
           (clusterTree boundary_CG) 1 true (AdjG 0 true) false ([], [])
           boundary_start).
  intros a. by left.
Defined.

(* ================================================================== *)
(** * Further properties of the methods *)

(** ** The constructor *)

Section Constructor.

Variable CG : ClusterGraph.

Lemma indexTable_other l m i :
  i ∉ map (index CG) l -> indexTable CG l m i = m i.
Proof.
  revert m. induction l as [|x l IH]; intros m Hi; [done|].
  simpl in *. apply not_elem_of_cons in Hi as [Hx Hi].
  unfold indexTable in *. simpl. rewrite IH by done.
  by rewrite fn_lookup_insert_ne.
Qed.

Lemma indexTable_Some l m i c :
  indexTable CG l m i = Some c -> (c ∈ l ∧ index CG c = i) ∨ m i = Some c.
Proof.
  revert m. induction l as [|x l IH]; intros m H; [by right|].
  unfold indexTable in *. simpl in H. apply IH in H as [[Hc Hi]|H].
  - left. split; [by right|done].
  - destruct (decide (index CG x = i)) as [<-|Hne].
    + rewrite fn_lookup_insert in H. injection H as <-. left. split; [by left|done].
    + rewrite fn_lookup_insert_ne in H by done. by right.
Qed.

Lemma indexTable_entry l m c :
  c ∈ l ->
  ∃ c', c' ∈ l ∧ indexTable CG l m (index CG c) = Some c' ∧ index CG c' = index CG c.
Proof.
  revert m c. induction l as [|x l IH]; intros m c Hc; [by apply elem_of_nil in Hc|].
  destruct (decide (index CG c ∈ map (index CG) l)) as [Hin|Hout].
  - apply list_elem_of_fmap in Hin as (d & Hd & Hdl).
    destruct (IH (<[index CG x := Some x]> m) d Hdl) as (c' & Hc' & Ht & Hi).
    exists c'. rewrite Hd. split; [by right|]. split; [exact Ht|]. congruence.
  - apply elem_of_cons in Hc as [->|Hc].
    + exists x. split; [by left|]. split; [|done].
      change (indexTable CG l (<[index CG x := Some x]> m) (index CG x) = Some x).
      rewrite indexTable_other by done. apply fn_lookup_insert.
    + exfalso. apply Hout. apply list_elem_of_fmap. by exists c.
Qed.

Lemma indexTable_unique l m c :
  NoDup (map (index CG) l) -> c ∈ l -> indexTable CG l m (index CG c) = Some c.
Proof.
  revert m. induction l as [|x l IH]; intros m Hnd Hc; [by apply elem_of_nil in Hc|].
  simpl in Hnd. apply list.NoDup_cons in Hnd as [Hx Hnd].
  apply elem_of_cons in Hc as [->|Hc].
  - change (indexTable CG l (<[index CG x := Some x]> m) (index CG x) = Some x).
    rewrite indexTable_other by done. apply fn_lookup_insert.
  - by apply (IH (<[index CG x := Some x]> m)).
Qed.

(** X1. A freshly constructed copy has every cluster-id unset (-1) and
    no outer-face entry, and its index table is the inverse of [index]
    on the clusters: an entry of the table is a cluster with that
    index, an index of no cluster has no entry, every cluster's index
    has one, and with unique indices the table gives each cluster back
    from its index. *)
Theorem constructor_index_table (P : PlanRep) :
  let st := ClusterPlanRep_new CG P in
  planRep st = P ∧ m_rootAdj st = None ∧
  (∀ v, ClusterID st v = (-1)%Z) ∧ (∀ e, m_edgeClusterID st e = (-1)%Z) ∧
  (∀ i c, m_clusterOfIndex st i = Some c -> c ∈ clusters CG ∧ index CG c = i) ∧
  (∀ i, i ∉ map (index CG) (clusters CG) -> m_clusterOfIndex st i = None) ∧
  (∀ c, c ∈ clusters CG ->
        ∃ c', c' ∈ clusters CG ∧ m_clusterOfIndex st (index CG c) = Some c' ∧
              index CG c' = index CG c) ∧
  (NoDup (map (index CG) (clusters CG)) ->
   ∀ c, c ∈ clusters CG -> m_clusterOfIndex st (index CG c) = Some c).
Proof.
  intros st. subst st. unfold ClusterPlanRep_new, ClusterID. simpl.
  fold (indexTable CG (clusters CG) (fun _ => None)).
  do 4 (split; [done|]). split; [|split; [|split]].
  - intros i c H. by apply indexTable_Some in H as [?|?].
  - intros i Hi. by rewrite indexTable_other.
  - intros c Hc. by apply indexTable_entry.
  - intros Hnd c Hc. by apply indexTable_unique.
Qed.

End Constructor.

(* ================================================================== *)
(** ** Crossing resolution, the remaining cases *)

Section CrossingCases.

Variable debug : bool.
Variable CG : ClusterGraph.
Variable PlanRep_insertEdgePathEmbedded : edgeG -> list adjEntry -> PlanRep -> PlanRep.

(** X2. When both nodes next to the crossing on the crossed edge are
    originals, the crossing node takes the cluster-id stored for the
    first of them (the cluster graph is not asked, and the id of the
    second is not read).  A debug build first checks that the two
    originals lie in the same cluster and that the stored id is set,
    and stops with a failed assertion and the state unchanged
    otherwise; a release build assigns the stored id in any case. *)
Theorem crossing_between_originals eOrig e st v1 v2 orV1 orV2 :
  flanking st e = (v1, v2) ->
  Some (target (G st) e) ≠ copy st (targetG (constGraph CG) eOrig) ->
  original st v1 = Some orV1 -> original st v2 = Some orV2 ->
  (debug = true ->
   degree (G st) (target (G st) e) = 4 ∧ v1 ≠ target (G st) e ∧
   v2 ≠ target (G st) e) ->
  resolveCrossing debug CG eOrig e st =
  if debug && (negb (bool_decide (clusterOf CG orV1 = clusterOf CG orV2))
               || (ClusterID st v1 =? -1)%Z)
  then (Err AssertionFailed, st)
  else (Ok tt, withNodeClusterID (target (G st) e) (ClusterID st v1) st).
Proof.
  intros Hfl Hne H1 H2 Hdbg. unfold flanking in Hfl. simplify_eq.
  unfold resolveCrossing, bothOriginal, OGDF_ASSERT, setNodeClusterID,
    withNodeClusterID, ClusterID. munfold.
  rewrite bool_decide_eq_false_2 by done. rewrite H1, H2. simpl.
  destruct debug; simpl; [|done].
  destruct (Hdbg eq_refl) as (Hd & Hv1 & Hv2).
  repeat first [ rewrite bool_decide_eq_true_2 by done | progress simpl ].
  case_bool_decide; simpl; [|done].
  by destruct (m_nodeClusterID st _ =? -1)%Z.
Qed.

(** X3. A path without crossings: when every edge of the chain ends at
    the copy of the target of [eOrig] (in particular when the chain is
    empty), [insertEdgePathEmbedded] ends well and leaves the state as
    the base class's insertion made it; no cluster-id is assigned and no
    assertion is evaluated. *)
Theorem crossing_free_path eOrig crossedEdges st0 :
  let st1 := set_planRep
               (PlanRep_insertEdgePathEmbedded eOrig crossedEdges (planRep st0)) st0 in
  (∀ e, e ∈ chain st1 eOrig ->
        Some (target (G st1) e) = copy st1 (targetG (constGraph CG) eOrig)) ->
  insertEdgePathEmbedded debug CG PlanRep_insertEdgePathEmbedded eOrig crossedEdges st0
  = (Ok tt, st1).
Proof.
  intros st1 Hall. rewrite insertEdgePathEmbedded_loop. fold st1.
  induction (chain st1 eOrig) as [|e l IH]; [done|].
  simpl. erewrite bind_ok; cycle 1.
  { unfold resolveCrossing. rewrite bind_gets. cbv beta.
    rewrite bool_decide_eq_true_2; [done|]. apply Hall. by left. }
  apply IH. intros e' He'. apply Hall. by right.
Qed.

Lemma noException_bind {A B} (m : M ClusterPlanRep A) (k : A -> M ClusterPlanRep B) :
  noException m -> (∀ a, noException (k a)) -> noException (bind m k).
Proof.
  intros Hm Hk st r st' H. unfold bind in H.
  destruct (m st) as [[a|err] s1] eqn:E.
  - by eapply Hk.
  - injection H as <- <-. intros [= ->]. by eapply Hm.
Qed.

Lemma noException_ret {A} (a : A) : noException (ret a).
Proof. by intros st r st' [= <- _]. Qed.

Lemma noException_gets {A} (f : ClusterPlanRep -> A) : noException (gets f).
Proof. by intros st r st' [= <- _]. Qed.

Lemma noException_modify f : noException (modify f).
Proof. by intros st r st' [= <- _]. Qed.

Lemma noException_deref {A} (p : option A) : noException (deref p).
Proof. destruct p; intros st r st' [= <- _]; done. Qed.

Lemma noException_throw {A} err :
  err ≠ AlgorithmFailureException -> noException (A := A) (throw err).
Proof. intros Hne st r st' [= <- _]. congruence. Qed.

Lemma noException_OGDF_ASSERT c : noException (OGDF_ASSERT debug c).
Proof.
  unfold OGDF_ASSERT. destruct (debug && negb c);
    [by apply noException_throw | apply noException_ret].
Qed.

(** Proves [noException m] along the structure of [m]. *)
Ltac noException_tac :=
  unfold OGDF_ASSERT_M, parentOf, indexOf, setNodeClusterID;
  repeat first
    [ apply noException_bind; [|intros ?]
    | apply noException_ret | apply noException_gets | apply noException_modify
    | apply noException_deref | apply noException_OGDF_ASSERT
    | solve [by apply noException_throw]
    | case_bool_decide
    | case_match ].

Lemma clusterOfDummy_noException v : noException (clusterOfDummy debug v).
Proof. unfold clusterOfDummy. noException_tac. Qed.

Lemma bothOriginal_noException dummy v1 o1 o2 :
  noException (bothOriginal debug CG dummy v1 o1 o2).
Proof. unfold bothOriginal. noException_tac. Qed.

Lemma noOriginal_noException dummy c1 c2 :
  noException (noOriginal debug CG dummy c1 c2).
Proof. unfold noOriginal. noException_tac. Qed.

(** [oneOriginal] throws before it assigns. *)
Lemma oneOriginal_exception dummy orC dC st st' :
  oneOriginal debug CG dummy orC dC st = (Err AlgorithmFailureException, st') ->
  st' = st.
Proof.
  unfold oneOriginal, OGDF_ASSERT_M, parentOf, setNodeClusterID. intros H.
  destruct debug, dC as [d|]; munfold;
    repeat (case_bool_decide; simplify_eq/=); by simplify_eq.
Qed.

(** A round that ends with the exception has exactly one original next
    to the crossing, and has changed nothing. *)
Lemma resolveCrossing_exception eOrig e st st' :
  resolveCrossing debug CG eOrig e st = (Err AlgorithmFailureException, st') ->
  st' = st ∧
  Some (target (G st) e) ≠ copy st (targetG (constGraph CG) eOrig) ∧
  oneIsOriginal st e.
Proof.
  unfold resolveCrossing, oneIsOriginal, flanking. intros H.
  unfold bind at 1, gets at 1 in H. simpl in H.
  case_bool_decide as Hskip; [done|].
  apply OGDF_ASSERT_bind_inv in H as [(_ & _ & ? & _)|[_ H]]; [done|].
  apply OGDF_ASSERT_bind_inv in H as [(_ & _ & ? & _)|[_ H]]; [done|].
  apply OGDF_ASSERT_bind_inv in H as [(_ & _ & ? & _)|[_ H]]; [done|].
  simpl.
  destruct (original st (twinNode (G st) (cyclicPred (G st) (adjTarget (G st) e))))
    as [o1|] eqn:E1;
    destruct (original st (twinNode (G st) (cyclicSucc (G st) (adjTarget (G st) e))))
      as [o2|] eqn:E2.
  - by apply bothOriginal_noException in H.
  - split; [|split; [done|by left]].
    unfold bind in H at 1.
    destruct (clusterOfDummy debug _ st) as [[dC|err] s1] eqn:Ed;
      apply clusterOfDummy_reads in Ed as ->.
    + by apply oneOriginal_exception in H.
    + by injection H.
  - split; [|split; [done|by right]].
    unfold bind in H at 1.
    destruct (clusterOfDummy debug _ st) as [[dC|err] s1] eqn:Ed;
      apply clusterOfDummy_reads in Ed as ->.
    + by apply oneOriginal_exception in H.
    + by injection H.
  - exfalso.
    assert (Hn : noException
      (c1 <- clusterOfDummy debug (flanking st e).1 ;;
       c2 <- clusterOfDummy debug (flanking st e).2 ;;
       noOriginal debug CG (target (G st) e) c1 c2)).
    { apply noException_bind; [apply clusterOfDummy_noException|intros ?].
      apply noException_bind; [apply clusterOfDummy_noException|intros ?].
      apply noOriginal_noException. }
    by apply Hn in H.
Qed.

(** The graph and the copy links decide which nodes lie next to a
    crossing and which of them are originals. *)
Lemma oneIsOriginal_planRep st st' e :
  planRep st' = planRep st -> oneIsOriginal st' e ↔ oneIsOriginal st e.
Proof.
  intros HP. unfold oneIsOriginal, flanking, original, G. by rewrite HP.
Qed.

(** The loop that ends with the exception has met such a crossing. *)
Lemma resolveCrossing_loop_exception eOrig l st st' :
  forEach (resolveCrossing debug CG eOrig) l st
  = (Err AlgorithmFailureException, st') ->
  planRep st' = planRep st ∧
  ∃ e, e ∈ l ∧ oneIsOriginal st e ∧
       Some (target (G st) e) ≠ copy st (targetG (constGraph CG) eOrig).
Proof.
  revert st. induction l as [|e l IH]; intros st H; [done|].
  simpl in H. unfold bind in H.
  destruct (resolveCrossing debug CG eOrig e st) as [[[]|err] st1] eqn:E.
  - assert (HP : planRep st1 = planRep st).
    { by apply resolveCrossing_step in E as [->|(i & -> & _)]. }
    apply IH in H as (HP' & e' & He' & Hone & Hne).
    split; [congruence|]. exists e'. split; [by right|].
    split; [by apply (oneIsOriginal_planRep st st1)|].
    unfold G, copy in *. by rewrite <- HP.
  - injection H as -> ->.
    apply resolveCrossing_exception in E as (-> & Hne & Hone).
    split; [done|]. exists e. split; [by left|done].
Qed.

(** X4. AlgorithmFailureException comes from one place only: when
    [insertEdgePathEmbedded] ends with it, the chain has an edge that
    ends at a crossing (not at the copy of the target) next to which
    exactly one of the two nodes on the crossed edge is an original.  A
    crossing between two originals or between two dummies never raises
    it.  The path stays inserted: the copy is as the base class left
    it, and so are the edge cluster-ids. *)
Theorem exception_needs_one_original eOrig crossedEdges st0 st2 :
  let st1 := set_planRep
               (PlanRep_insertEdgePathEmbedded eOrig crossedEdges (planRep st0)) st0 in
  insertEdgePathEmbedded debug CG PlanRep_insertEdgePathEmbedded eOrig crossedEdges st0
  = (Err AlgorithmFailureException, st2) ->
  planRep st2 = planRep st1 ∧ m_edgeClusterID st2 = m_edgeClusterID st0 ∧
  ∃ e, e ∈ chain st1 eOrig ∧ oneIsOriginal st1 e ∧
       Some (target (G st1) e) ≠ copy st1 (targetG (constGraph CG) eOrig).
Proof.
  intros st1 H. rewrite insertEdgePathEmbedded_loop in H. fold st1 in H.
  pose proof (resolveCrossing_loop debug CG eOrig (fun _ => True) _ _ _ _ H)
    as (_ & HE & _); [done|].
  apply resolveCrossing_loop_exception in H as (HP & e & He & Hone & Hne).
  split; [done|]. split; [by rewrite HE|]. by exists e.
Qed.

(** X5. Between two dummies the cluster-id of the crossing does not
    depend on the side from which the crossed edge is met: for clusters
    in one of the four relations the method asserts, and a parent
    relation without a cycle of two clusters, the round with the two
    clusters exchanged ends in the same way. *)
Theorem crossing_between_dummies_symmetric dummy c1 c2 st :
  (c1 = c2 ∨ Some c1 = parent CG c2 ∨ parent CG c1 = Some c2
   ∨ parent CG c1 = parent CG c2) ->
  ¬ (parent CG c1 = Some c2 ∧ parent CG c2 = Some c1) ->
  noOriginal debug CG dummy (Some c1) (Some c2) st
  = noOriginal debug CG dummy (Some c2) (Some c1) st.
Proof.
  intros Hrel Hcyc.
  unfold noOriginal, OGDF_ASSERT_M, indexOf, parentOf, setNodeClusterID.
  destruct debug; munfold;
    destruct (parent CG c1) as [p1|] eqn:E1, (parent CG c2) as [p2|] eqn:E2;
    repeat (case_bool_decide; simplify_eq/=); try done;
    try (exfalso; apply Hcyc; done);
    destruct Hrel as [?|[?|[?|?]]]; simplify_eq; done.
Qed.

End CrossingCases.

(** In the crossing example with four originals the crossing node 4
    takes the id 12 stored for node 1. *)
Lemma crossing_between_originals_witness :
  resolveCrossing true crossing_CG 3 4 (crossing_after both_orig both_ids)
  = (Ok tt, withNodeClusterID 4 12 (crossing_after both_orig both_ids)).
Proof.
  refine (crossing_between_originals true crossing_CG 3 4
            (crossing_after both_orig both_ids) 1 2 1 2 _ _ _ _ _).
  - vm_compute. reflexivity.
  - vm_compute. intros [=].
  - vm_compute. reflexivity.
  - vm_compute. reflexivity.
  - intros _. repeat split; vm_compute; intros [=].
Defined.

(** Edge 3 drawn from node 0 to node 3 without a crossing: its chain is
    the one new edge, which ends at the copy of the target. *)
Lemma crossing_free_path_witness :
  let st0 := crossing_before siblings_orig siblings_ids in
  insertEdgePathEmbedded true crossing_CG example_insertEdgePathEmbedded 3
    (direct_path (G st0)) st0
  = (Ok tt, set_planRep
              (example_insertEdgePathEmbedded 3 (direct_path (G st0)) (planRep st0))
              st0).
Proof.
  intros st0.
  apply (crossing_free_path true crossing_CG example_insertEdgePathEmbedded 3
           (direct_path (G st0)) st0).
  intros e He.
  match type of He with
  | _ ∈ ?l => assert (Hc : l = [3]) by (vm_compute; reflexivity); rewrite Hc in He
  end.
  apply list_elem_of_singleton in He as ->. vm_compute. reflexivity.
Defined.

(** The crossing example with node 1 an original and node 2 a dummy of
    the parent cluster: the call ends with the exception, and edge 4 of
    the chain is the one that ends at such a crossing. *)
Lemma exception_needs_one_original_witness :
  let st0 := crossing_before parent_orig parent_ids in
  let st1 := crossing_after parent_orig parent_ids in
  ∃ e, e ∈ chain st1 3 ∧ oneIsOriginal st1 e ∧
       Some (target (G st1) e) ≠ copy st1 (targetG (constGraph crossing_CG) 3).
Proof.
  intros st0 st1.
  refine (proj2 (proj2 (exception_needs_one_original true crossing_CG
                          example_insertEdgePathEmbedded 3 (crossing_path (G st0))
                          st0 st1 _))).
  vm_compute. reflexivity.
Defined.

(** The sibling clusters 2 and 3 in either order. *)
Lemma crossing_between_dummies_symmetric_witness :
  noOriginal true crossing_CG 4 (Some 2) (Some 3)
    (crossing_after siblings_orig siblings_ids)
  = noOriginal true crossing_CG 4 (Some 3) (Some 2)
      (crossing_after siblings_orig siblings_ids).
Proof.
  apply (crossing_between_dummies_symmetric true crossing_CG 4 2 3).
  - right. right. right. vm_compute. reflexivity.
  - intros [H _]. vm_compute in H. discriminate H.
Defined.

(* ================================================================== *)
(** ** Vertex expansion: what stays *)

Section ExpansionFrame.

Variable debug : bool.
Variable PlanRep_expand : bool -> PlanRep -> PlanRep.
Variable OrthoRep : Type.
Variable PlanRep_expandLowDegreeVertices : OrthoRep -> PlanRep -> PlanRep.

(** One round of the loop does nothing, or assigns a cluster-id to its
    node, which then has an expansion link. *)
Lemma updateClusterInfo_step v st r st' :
  updateClusterInfo debug v st = (r, st') ->
  st' = st ∨ (expandedNode st v ≠ None ∧ ∃ i, st' = withNodeClusterID v i st).
Proof.
  unfold updateClusterInfo. rewrite bind_gets. cbv beta. unfold id.
  destruct (expandedNode st v) as [w|] eqn:Ew.
  - intros H. apply OGDF_ASSERT_bind_inv in H as [(_ & _ & _ & ->)|[_ H]]; [by left|].
    injection H as _ <-. right. split; [done|]. by eexists.
  - intros [= _ <-]. by left.
Qed.

Lemma updateClusterInfo_loop_frame ns st r st' :
  forEach (updateClusterInfo debug) ns st = (r, st') ->
  planRep st' = planRep st ∧ m_edgeClusterID st' = m_edgeClusterID st ∧
  m_rootAdj st' = m_rootAdj st ∧ m_clusterOfIndex st' = m_clusterOfIndex st ∧
  assigns (fun v => v ∈ ns ∧ expandedNode st v ≠ None)
    (m_nodeClusterID st) (m_nodeClusterID st').
Proof.
  revert st. induction ns as [|v ns IH]; intros st H.
  - injection H as _ <-. repeat split. constructor.
  - simpl in H. unfold bind in H.
    destruct (updateClusterInfo debug v st) as [[[]|err] st1] eqn:E;
      apply updateClusterInfo_step in E as [->|(Hv & i & ->)].
    + apply IH in H as (HP & HE & HR & HC & HN). repeat split; try done.
      eapply assigns_weaken; [|exact HN]. intros u [Hu ?]. split; [by right|done].
    + apply IH in H as (HP & HE & HR & HC & HN). repeat split; try done.
      eapply assigns_trans.
      * apply (assigns_one _ _ v i). split; [by left|done].
      * eapply assigns_weaken; [|exact HN]. intros u [Hu ?]. split; [by right|done].
    + injection H as _ <-. repeat split. constructor.
    + injection H as _ <-. repeat split.
      apply assigns_one. split; [by left|done].
Qed.

Lemma updateClusterInfo_frame st0 st1 r st2 :
  m_edgeClusterID st1 = m_edgeClusterID st0 ->
  m_rootAdj st1 = m_rootAdj st0 -> m_clusterOfIndex st1 = m_clusterOfIndex st0 ->
  m_nodeClusterID st1 = m_nodeClusterID st0 ->
  forEach (updateClusterInfo debug) (nodes (G st1)) st1 = (r, st2) ->
  expansion_frame st0 st1 st2.
Proof.
  intros HE HR HC HN H.
  apply updateClusterInfo_loop_frame in H as (HP' & HE' & HR' & HC' & HN').
  unfold expansion_frame. repeat split; try congruence.
  intros v Hv. unfold ClusterID. rewrite <- HN.
  apply (assigns_frame _ _ _ v HN'). intros [Hin Hex]. by destruct Hv.
Qed.

(** X6. The two expansion methods assign cluster-ids to nodes with an
    expansion link and to nothing else, however they end (also when a
    debug build stops at a failed assertion): the copy is as the base
    class left it, no edge gets a cluster-id (the edges of a gadget
    keep the array's value), the outer-face entry and the index table
    stay, and every node without an expansion link keeps its
    cluster-id. *)
Theorem expansion_touches_gadgets_only (lowDegreeExpand : bool) (OR : OrthoRep) st0 :
  expansion_frame st0
    (set_planRep (PlanRep_expand lowDegreeExpand (planRep st0)) st0)
    (snd (expand debug PlanRep_expand lowDegreeExpand st0)) ∧
  expansion_frame st0
    (set_planRep (PlanRep_expandLowDegreeVertices OR (planRep st0)) st0)
    (snd (expandLowDegreeVertices debug OrthoRep PlanRep_expandLowDegreeVertices
            OR st0)).
Proof.
  split.
  - unfold expand. rewrite bind_modify, bind_gets.
    destruct (forEach _ _ _) as [r st2] eqn:E.
    match type of E with
    | forEach _ _ ?st1 = _ =>
        exact (updateClusterInfo_frame st0 st1 _ _ eq_refl eq_refl eq_refl eq_refl E)
    end.
  - unfold expandLowDegreeVertices. rewrite bind_modify, bind_gets.
    destruct (forEach _ _ _) as [r st2] eqn:E.
    match type of E with
    | forEach _ _ ?st1 = _ =>
        exact (updateClusterInfo_frame st0 st1 _ _ eq_refl eq_refl eq_refl eq_refl E)
    end.
Qed.

End ExpansionFrame.

(* ================================================================== *)
(** ** The two loops of initCC *)

Section InitLoops.

Variable CG : ClusterGraph.

(** X7. The two loops of [initCC] (lines 80-93), run on any state in
    which every original node has a copy linked back to it: they end
    well and keep the copy, the outer-face entry and the index table;
    an edge between the copies of two original nodes whose clusters
    have the same index has that index as its cluster-id afterwards,
    and an edge between the copies of nodes of clusters with different
    indices keeps the cluster-id it had (the loops reset nothing). *)
Theorem initCC_loops_edges st :
  (∀ v, v ∈ nodesG (constGraph CG) ->
        ∃ c, copy st v = Some c ∧ original st c = Some v) ->
  ∃ st', (initCC_nodes CG ;; initCC_edges) st = (Ok tt, st') ∧
    planRep st' = planRep st ∧ m_rootAdj st' = m_rootAdj st ∧
    m_clusterOfIndex st' = m_clusterOfIndex st ∧
    ∀ e v w, e ∈ edges (G st) ->
      v ∈ nodesG (constGraph CG) -> w ∈ nodesG (constGraph CG) ->
      copy st v = Some (source (G st) e) -> copy st w = Some (target (G st) e) ->
      m_edgeClusterID st' e =
      if decide (index CG (clusterOf CG v) = index CG (clusterOf CG w))
      then index CG (clusterOf CG v)
      else m_edgeClusterID st e.
Proof.
  intros Hag.
  unfold initCC_nodes. erewrite bind_ok; cycle 1.
  { apply initCC_nodes_loop. intros v Hv. destruct (Hag v Hv) as (c & Hc & _).
    congruence. }
  set (st1 := set_nodeClusterID _ st).
  unfold initCC_edges. unfold bind at 1, gets at 1. simpl.
  destruct (initCC_edges_loop (edges (G st1)) st1)
    as (st' & Hrun & HP & HN & HR & HC & HE).
  exists st'. split; [exact Hrun|]. do 3 (split; [by rewrite ?HP, ?HR, ?HC|]).
  intros e v w He Hv Hw Hcv Hcw. rewrite HE.
  assert (Hid : ∀ x c, x ∈ nodesG (constGraph CG) -> copy st x = Some c ->
                       ClusterID st1 c = index CG (clusterOf CG x)).
  { intros x c Hx Hc. unfold ClusterID, st1. simpl.
    by eapply nodeIDs_after_copy. }
  change (G st1) with (G st). change (m_edgeClusterID st1 e) with (m_edgeClusterID st e).
  rewrite (Hid v _ Hv Hcv), (Hid w _ Hw Hcw).
  repeat case_decide; try done; exfalso; intuition.
Qed.

End InitLoops.

(** In the component example the edge 0 - 1 lies in cluster 2 and takes
    its index 12; the edge 1 - 2 joins the clusters 2 and 3 and keeps
    the value it had. *)
Lemma initCC_loops_edges_witness :
  let st := ClusterPlanRep_new path_CG (path_initByCC 0) in
  ∃ st', (initCC_nodes path_CG ;; initCC_edges) st = (Ok tt, st') ∧
         m_edgeClusterID st' 0 = 12%Z ∧ m_edgeClusterID st' 1 = m_edgeClusterID st 1.
Proof.
  intros st.
  destruct (initCC_loops_edges path_CG st) as (st' & Hrun & _ & _ & _ & HE).
  { intros v Hv. exists v.
    repeat (apply elem_of_cons in Hv as [->|Hv]); [by vm_compute..|].
    by apply elem_of_nil in Hv. }
  exists st'. split; [exact Hrun|]. split.
  - apply (HE 0 0 1); try (by vm_compute).
    + by left.
    + by left.
    + right. by left.
  - apply (HE 1 1 2); try (by vm_compute).
    + right. by left.
    + right. by left.
    + right. right. by left.
Defined.

(* ================================================================== *)
(** ** Boundary insertion: along one edge *)

Section BoundaryRounds.

Variable debug : bool.
Variable CG : ClusterGraph.





End BoundaryRounds.



(* ================================================================== *)
(** ** Boundary insertion: the whole pass *)

Section BoundaryPass.

Variable debug : bool.
Variable CG : ClusterGraph.
Variable representsCombEmbedding : ClusterPlanRep -> bool.

#[local] Hint Resolve reads_OGDF_ASSERT : reads.

(** A method of the copy that keeps a part of it keeps that part when
    it runs inside the pass. *)
Lemma keeps_onCpr_cpr {A B} (p : ClusterPlanRep -> B) (m : M ClusterPlanRep A) :
  keeps p m -> keeps (fun s => p (cpr s)) (onCpr m).
Proof.
  intros Hm s r s' H. unfold onCpr in H.
  destruct (m (cpr s)) as [r0 st] eqn:E. simplify_eq. simpl. by eapply Hm.
Qed.

Lemma keeps_split {B} (p : ClusterPlanRep -> B) e :
  split_proof p -> keeps p (split e).
Proof.
  intros Hp st r st' H. unfold split in H.
  destruct (PlanRep_split (planRep st) e) as [P eNew] eqn:E. simplify_eq.
  specialize (Hp st e). by rewrite E in Hp.
Qed.

Lemma keeps_newEdge {B} (p : ClusterPlanRep -> B) a b :
  insertion_proof p -> keeps p (newEdge a b).
Proof.
  intros (Hp & _) st r st' H. unfold newEdge in H.
  destruct (PlanRep_newEdge (planRep st) a b) as [P e] eqn:E. simplify_eq.
  specialize (Hp st a b). by rewrite E in Hp.
Qed.

Lemma keeps_setClusterBoundary {B} (p : ClusterPlanRep -> B) e :
  insertion_proof p -> keeps p (setClusterBoundary e).
Proof. intros (_ & Hp & _). apply keeps_modify. intros st. apply Hp. Qed.

Lemma keeps_setNodeClusterID {B} (p : ClusterPlanRep -> B) v i :
  insertion_proof p -> keeps p (setNodeClusterID v i).
Proof. intros (_ & _ & Hp & _). apply keeps_modify. intros st. apply Hp. Qed.

Lemma keeps_setEdgeClusterID {B} (p : ClusterPlanRep -> B) e i :
  insertion_proof p -> keeps p (setEdgeClusterID e i).
Proof. intros (_ & _ & _ & Hp & _). apply keeps_modify. intros st. apply Hp. Qed.

Lemma keeps_set_rootAdj {B} (p : ClusterPlanRep -> B) a :
  insertion_proof p -> keeps p (modify (set_rootAdj a)).
Proof. intros (_ & _ & _ & _ & Hp). apply keeps_modify. intros st. apply Hp. Qed.

(** Proves [keeps (fun s => p (cpr s)) m] along the structure of [m],
    for a part [p] of the copy that insertions leave alone. *)
Ltac pass_tac Hi :=
  repeat first
    [ apply keeps_bind; [|intros ?]
    | solve [apply (keeps_onCpr_cpr _ _ (keeps_newEdge _ _ _ Hi))]
    | solve [apply (keeps_onCpr_cpr _ _ (keeps_setClusterBoundary _ _ Hi))]
    | solve [apply (keeps_onCpr_cpr _ _ (keeps_setNodeClusterID _ _ _ Hi))]
    | solve [apply (keeps_onCpr_cpr _ _ (keeps_setEdgeClusterID _ _ _ Hi))]
    | solve [apply (keeps_onCpr_cpr _ _ (keeps_set_rootAdj _ _ Hi))]
    | solve [apply keeps_modify; done]
    | solve [apply keeps_reads; reads_tac]
    | case_bool_decide
    | case_match ].

Lemma insertBoundary_connect_keeps_cpr {B} (p : ClusterPlanRep -> B) C srcs tgts :
  insertion_proof p ->
  keeps (fun s => p (cpr s))
    (insertBoundary_connect debug CG representsCombEmbedding C srcs tgts).
Proof.
  intros Hi. revert srcs. induction tgts as [|t tgts IH]; intros srcs; simpl.
  - apply keeps_reads, reads_ret.
  - repeat first [ apply IH | progress pass_tac Hi ].
Qed.

Lemma insertBoundary_split_keeps_cpr {B} (p : ClusterPlanRep -> B) C leaf it isLast lists :
  insertion_proof p -> split_proof p ->
  keeps (fun s => p (cpr s)) (insertBoundary_split debug CG C leaf it isLast lists).
Proof.
  intros Hi Hs. unfold insertBoundary_split, setCurrentEdge, setOutEdge.
  destruct lists as [srcs tgts].
  repeat first
    [ solve [apply (keeps_onCpr_cpr _ _ (keeps_split _ _ Hs))]
    | progress pass_tac Hi ].
Qed.

Lemma insertBoundary_splits_keeps_cpr {B} (p : ClusterPlanRep -> B) C leaf L lists :
  insertion_proof p -> split_proof p ->
  keeps (fun s => p (cpr s)) (insertBoundary_splits debug CG C leaf L lists).
Proof.
  intros Hi Hs. revert lists. induction L as [|it L IH]; intros lists; simpl.
  - apply keeps_reads, reads_ret.
  - apply keeps_bind; [by apply insertBoundary_split_keeps_cpr|]. intros ?. apply IH.
Qed.

Lemma insertBoundary_keeps_cpr {B} (p : ClusterPlanRep -> B) C leaf :
  insertion_proof p -> split_proof p ->
  keeps (fun s => p (cpr s)) (insertBoundary debug CG representsCombEmbedding C leaf).
Proof.
  intros Hi Hs. unfold insertBoundary.
  repeat first
    [ solve [by apply insertBoundary_splits_keeps_cpr]
    | solve [by apply insertBoundary_connect_keeps_cpr]
    | progress pass_tac Hi ].
Qed.

Lemma convertClusterGraph_keeps_cpr {B} (p : ClusterPlanRep -> B) t :
  insertion_proof p -> split_proof p ->
  keeps (fun s => p (cpr s)) (convertClusterGraph debug CG representsCombEmbedding t).
Proof.
  intros Hi Hs. induction t as [c kids IH] using ClusterTree_induction. simpl.
  apply keeps_bind; [pass_tac Hi|]. intros _. apply keeps_bind.
  { induction IH as [|k kids Hk _ IHkids].
    - apply keeps_reads, reads_ret.
    - apply keeps_bind; [exact Hk|]. intros _. exact IHkids. }
  intros _. case_match.
  - apply keeps_reads, reads_ret.
  - by apply insertBoundary_keeps_cpr.
Qed.

Lemma links_proof : insertion_proof links ∧ split_proof links.
Proof. by repeat split. Qed.

(** X10. Boundary modelling has no business with the links of the
    copy: however [ModelBoundaries] ends (also when it is aborted by a
    failed assertion or a null edge), every node has the original it
    had, every original node the copy it had, the expansion links are
    the same, and the index table is unchanged. *)
Theorem boundary_modelling_keeps_links st :
  let st' := snd (ModelBoundaries debug CG representsCombEmbedding st) in
  (∀ v, original st' v = original st v) ∧
  (∀ v, copy st' v = copy st v) ∧
  (∀ v, expandedNode st' v = expandedNode st v) ∧
  m_clusterOfIndex st' = m_clusterOfIndex st.
Proof.
  unfold ModelBoundaries.
  destruct (convertClusterGraph _ _ _ _ _) as [r s'] eqn:E. simpl.
  destruct links_proof as [Hi Hs].
  apply (convertClusterGraph_keeps_cpr links _ Hi Hs) in E. simpl in E.
  unfold links in E. unfold original, copy, expandedNode.
  injection E as -> -> -> ->. done.
Qed.

(** *** What a successful pass has done *)

Lemma boundaryIDs_app cs1 cs2 :
  boundaryIDs CG (cs1 ++ cs2) = boundaryIDs CG cs1 ++ boundaryIDs CG cs2.
Proof. unfold boundaryIDs. apply flat_map_app. Qed.

Lemma boundaryIDs_one C :
  boundaryIDs CG [C] = replicate (length (clusterAdjEntries CG C)) (index CG C).
Proof. unfold boundaryIDs. simpl. apply app_nil_r. Qed.

Lemma map_seq_replicate {A} (f : nat -> A) (x : A) n : ∀ a,
  (∀ i, i < n -> f (a + i) = x) -> map f (seq a n) = replicate n x.
Proof.
  induction n as [|n IH]; intros a H; [done|]. simpl. f_equal.
  - rewrite <- (H 0) by lia. by rewrite Nat.add_0_r.
  - apply IH. intros i Hi. rewrite <- (H (S i)) by lia. f_equal. lia.
Qed.

(** Nothing inserted; the outer-face entry may have been set. *)
Lemma boundaries_post_none s s' :
  planRep (cpr s') = planRep (cpr s) ->
  m_nodeClusterID (cpr s') = m_nodeClusterID (cpr s) ->
  m_edgeClusterID (cpr s') = m_edgeClusterID (cpr s) ->
  m_clusterOfIndex (cpr s') = m_clusterOfIndex (cpr s) ->
  currentEdge s' = currentEdge s ->
  (m_rootAdj (cpr s) ≠ None -> m_rootAdj (cpr s') ≠ None) ->
  boundaries_post CG [] s s'.
Proof.
  intros HP HN HE HC Hcur HR. unfold boundaries_post, G, ClusterID, isClusterBoundary,
    realizing, copyE. rewrite HP, HN, HE, HC, Hcur. simpl.
  rewrite !app_nil_r, !Nat.add_0_r. repeat split; try done.
  intros (c & Hc & _). by apply elem_of_nil in Hc.
Qed.

Lemma boundaries_post_trans cs1 cs2 s s1 s2 :
  boundaries_post CG cs1 s s1 -> boundaries_post CG cs2 s1 s2 ->
  boundaries_post CG (cs1 ++ cs2) s s2.
Proof.
  unfold boundaries_post. rewrite boundaryIDs_app, length_app.
  set (k1 := length (boundaryIDs CG cs1)). set (k2 := length (boundaryIDs CG cs2)).
  intros (Hn1 & He1 & Hnc1 & Hec1 & Hid1 & Hfn1 & Hfe1 & Hci1 & Hr1 & Hk1 & Ho1)
         (Hn2 & He2 & Hnc2 & Hec2 & Hid2 & Hfn2 & Hfe2 & Hci2 & Hr2 & Hk2 & Ho2).
  split; [|split; [|split; [|split; [|split; [|split; [|split; [|split;
    [|split; [|split]]]]]]]]].
  - rewrite Hn2, Hn1, Hnc1, seq_app. by rewrite <- app_assoc.
  - rewrite He2, He1, Hec1.
    replace (2 * (k1 + k2)) with (2 * k1 + 2 * k2) by lia.
    rewrite seq_app. by rewrite <- app_assoc.
  - nlia.
  - nlia.
  - rewrite seq_app, map_app. f_equal.
    + rewrite <- Hid1. apply map_ext_in. intros v Hv%in_seq.
      apply Hfn2. nlia.
    + rewrite <- Hnc1. exact Hid2.
  - intros v Hv. rewrite Hfn2 by nlia. by apply Hfn1.
  - intros e He. destruct (Hfe2 e) as [-> ->]; [nlia|]. by apply Hfe1.
  - by rewrite Hci2.
  - intros a Ha. by apply Hr2, Hr1.
  - intros H. by apply Hk2, Hk1.
  - intros (c & Hc & Hp & HL). apply elem_of_app in Hc as [Hc|Hc].
    + apply Hk2, Ho1. by exists c.
    + apply Ho2. by exists c.
Qed.

(** The first loop of [insertBoundary] and the outer-face entry. *)
Lemma insertBoundary_splits_rootAdj C leaf L : ∀ lists s r s',
  (∀ it, it ∈ L -> realizing s it ≠ None) ->
  insertBoundary_splits debug CG C leaf L lists s = (r, s') ->
  (m_rootAdj (cpr s) ≠ None -> m_rootAdj (cpr s') ≠ None) ∧
  (L ≠ [] -> parent CG C = Some (rootCluster CG) -> m_rootAdj (cpr s') ≠ None).
Proof.
  induction L as [|it L IH]; intros lists s r s' Hr H.
  - simpl in H. by injection H as _ <-.
  - simpl in H. destruct lists as [srcs tgts].
    destruct (realizing s it) as [e0|] eqn:Er; [|by destruct (Hr it); [left|]].
    destruct (insertBoundary_split_run debug CG C leaf it (bool_decide (L = []))
                srcs tgts s e0 Er) as (s1 & Hrun & _ & _ & _ & _ & Hroot & _ & _).
    destruct (insertBoundary_split_post debug CG C leaf it (bool_decide (L = []))
                srcs tgts s) as (a1 & a2 & s1' & Hrun' & Hpost); [by rewrite Er|].
    assert (s1' = s1) as -> by congruence.
    erewrite bind_ok in H; [|exact Hrun].
    apply IH in H as [Hk Hset]; cycle 1.
    { intros it' Hit'.
      destruct Hpost as (_ & _ & _ & _ & _ & _ & _ & _ & _ & _ & _ & _ & _ & _ & Hr1).
      apply Hr1, Hr. by right. }
    split.
    + intros Hne. apply Hk. rewrite Hroot. by case_match.
    + intros _ Hpar. destruct L as [|it' L'].
      * apply Hk. rewrite Hroot. by rewrite bool_decide_eq_true_2.
      * by apply Hset.
Qed.

Lemma eCopy_proof : insertion_proof (fun st => m_eCopy (planRep st)).
Proof. by repeat split. Qed.

(** One call of [insertBoundary]. *)
Lemma insertBoundary_post C leaf s :
  (debug = true -> ∀ st, representsCombEmbedding st = true) ->
  (∀ it, it ∈ clusterAdjEntries CG C -> realizing s it ≠ None) ->
  ∃ s', insertBoundary debug CG representsCombEmbedding C leaf s = (Ok tt, s') ∧
        boundaries_post CG [C] s s'.
Proof.
  intros Hemb Hreal.
  assert (Hassert : ∀ st (k : unit -> M BoundaryState unit) s0,
    bind (OGDF_ASSERT debug (representsCombEmbedding st)) k s0 = k tt s0).
  { intros st k s0. rewrite bind_OGDF_ASSERT.
    destruct debug; [rewrite Hemb|]; done. }
  unfold insertBoundary. rewrite bind_gets. cbv beta. rewrite Hassert.
  set (L := clusterAdjEntries CG C) in *. set (n := length L).
  case_bool_decide as HL.
  - exists s. split; [done|].
    unfold boundaries_post. rewrite boundaryIDs_one. fold L. rewrite HL. simpl.
    rewrite !app_nil_r, !Nat.add_0_r. repeat split; try done.
    intros (c & Hc & _ & Hne). apply list_elem_of_singleton in Hc as ->. done.
  - destruct (insertBoundary_splits_post debug CG C leaf L [] [] s Hreal)
      as (srcs & tgts & s1 & Hrun1 & Hpost1).
    pose proof (insertBoundary_splits_rootAdj C leaf L _ _ _ _ Hreal Hrun1)
      as [Hkeep Hset].
    erewrite bind_ok; [|exact Hrun1]. simpl.
    destruct Hpost1 as (Hn1 & He1 & Hnc1 & Hec1 & Hac1 & Hl1 & Hl2 & Hat1 & _
                        & Hid1 & Hfn1 & Heid1 & Hci1 & Hb1 & Hr1).
    fold n in Hn1, He1, Hnc1, Hec1, Hl1, Hl2, Hid1.
    rewrite bind_OGDF_ASSERT, bool_decide_eq_true_2, andb_false_r by congruence.
    destruct tgts as [|flipper tgts]; [simpl in Hl2; subst n; by destruct L|].
    simpl. rewrite bind_ret.
    destruct (insertBoundary_connect_post debug CG representsCombEmbedding C
                (tgts ++ [flipper]) srcs s1) as (s2 & Hrun2 & Hpost2); [|  |done|].
    { rewrite length_app. simpl in *. lia. }
    { intros a [Ha|Ha].
      - apply list_elem_of_lookup in Ha as [i Hi]. by apply (Hat1 i a); left.
      - assert (a ∈ flipper :: tgts) as Ha'.
        { apply elem_of_app in Ha as [?|?%list_elem_of_singleton];
            [by right|subst; by left]. }
        apply list_elem_of_lookup in Ha' as [i Hi]. by apply (Hat1 i a); right. }
    pose proof (insertBoundary_connect_keeps_cpr _ C srcs (tgts ++ [flipper])
                  eCopy_proof _ _ _ Hrun2) as Hchain. simpl in Hchain.
    erewrite bind_ok; [|exact Hrun2]. rewrite bind_gets. cbv beta.
    unfold OGDF_ASSERT.
    replace (debug && negb (representsCombEmbedding (cpr (id s2)))) with false
      by (destruct debug; [rewrite Hemb|]; done).
    exists s2. split; [done|].
    assert (Hlen : length (tgts ++ [flipper]) = n).
    { rewrite length_app. simpl in *. lia. }
    rewrite Hlen in Hpost2.
    destruct Hpost2 as (Hn2 & He2 & Hnc2 & Hec2 & _ & _ & Hfr2 & _ & Hid2 & Hci2
                        & Hra2 & Hcu2 & _).
    unfold boundaries_post. rewrite boundaryIDs_one. fold L. fold n.
    rewrite length_replicate.
    split; [|split; [|split; [|split; [|split; [|split; [|split; [|split;
      [|split; [|split]]]]]]]]].
    + by rewrite Hn2.
    + rewrite He2, He1, Hec1. replace (2 * n) with (n + n) by lia.
      rewrite seq_app. by rewrite <- app_assoc.
    + nlia.
    + nlia.
    + apply map_seq_replicate. intros i Hi. unfold ClusterID. rewrite Hid2.
      by apply Hid1.
    + intros v Hv. unfold ClusterID. rewrite Hid2. by apply Hfn1.
    + intros e He. destruct (Hfr2 e) as (_ & _ & -> & ->); [nlia|].
      rewrite Heid1. split; [done|]. by apply Hb1.
    + by rewrite Hci2.
    + intros a Ha. apply Hr1 in Ha. unfold realizing, copyE in *.
      by rewrite Hcu2, Hchain.
    + rewrite Hra2. exact Hkeep.
    + rewrite Hra2. intros (c & Hc & Hp & _).
      apply list_elem_of_singleton in Hc as ->. by apply Hset.
Qed.

(** The two local loops over the children are [forEach] and
    [flat_map]. *)
Lemma convertClusterGraph_eq c kids :
  convertClusterGraph debug CG representsCombEmbedding (ClusterNode c kids)
  = ((if bool_decide (c = rootCluster CG) && bool_decide (kids = []) then
        s <- gets id ;;
        e <- deref (head (edges (G (cpr s)))) ;;
        onCpr (modify (set_rootAdj (Some (adjSource (G (cpr s)) e))))
      else ret tt) ;;
     forEach (convertClusterGraph debug CG representsCombEmbedding) kids ;;
     if bool_decide (c = rootCluster CG) then ret tt
     else insertBoundary debug CG representsCombEmbedding c
            (bool_decide (kids = []) && negb (bool_decide (c = rootCluster CG)))).
Proof.
  assert (Heach : ∀ l,
    (fix each (l : list ClusterTree) : M BoundaryState unit :=
       match l with
       | [] => ret tt
       | child :: l' =>
           convertClusterGraph debug CG representsCombEmbedding child ;; each l'
       end) l
    = forEach (convertClusterGraph debug CG representsCombEmbedding) l).
  { induction l as [|k l IH]; [done|]. simpl. by rewrite IH. }
  simpl. by rewrite Heach.
Qed.

Lemma boundaryOrder_eq c kids :
  boundaryOrder CG (ClusterNode c kids)
  = flat_map (boundaryOrder CG) kids
    ++ (if bool_decide (c = rootCluster CG) then [] else [c]).
Proof. reflexivity. Qed.

(** The pass over a subtree. *)
Lemma convertClusterGraph_post t : ∀ s,
  (debug = true -> ∀ st, representsCombEmbedding st = true) ->
  (∀ c it, it ∈ clusterAdjEntries CG c -> realizing s it ≠ None) ->
  edges (G (cpr s)) ≠ [] ->
  ∃ s', convertClusterGraph debug CG representsCombEmbedding t s = (Ok tt, s') ∧
        boundaries_post CG (boundaryOrder CG t) s s'.
Proof.
  induction t as [c kids IH] using ClusterTree_induction. intros s Hemb Hreal Hedges.
  rewrite convertClusterGraph_eq, boundaryOrder_eq.
  (* the outer-face entry set by hand *)
  assert (∃ s0, (if bool_decide (c = rootCluster CG) && bool_decide (kids = []) then
                   s <- gets id ;;
                   e <- deref (head (edges (G (cpr s)))) ;;
                   onCpr (modify (set_rootAdj (Some (adjSource (G (cpr s)) e))))
                 else ret tt) s = (Ok tt, s0) ∧ boundaries_post CG [] s s0)
    as (s0 & Hrun0 & Hpost0).
  { destruct (_ && _).
    - rewrite bind_gets. cbv beta. unfold id.
      destruct (edges (G (cpr s))) as [|e es] eqn:Ee; [done|]. simpl.
      rewrite bind_ret. eexists. split; [reflexivity|].
      by apply boundaries_post_none.
    - exists s. split; [done|]. by apply boundaries_post_none. }
  erewrite bind_ok; [|exact Hrun0].
  (* the children *)
  assert (Hgo : ∀ cs s1, boundaries_post CG cs s s1 ->
            (∀ c it, it ∈ clusterAdjEntries CG c -> realizing s1 it ≠ None) ∧
            edges (G (cpr s1)) ≠ []).
  { intros cs s1 (_ & He & _ & _ & _ & _ & _ & _ & Hr & _). split.
    - intros c' it Hit. by apply Hr, (Hreal c').
    - rewrite He. by destruct (edges (G (cpr s))). }
  assert (Hkids : ∀ cs0 s0, boundaries_post CG cs0 s s0 ->
            ∃ s1, forEach (convertClusterGraph debug CG representsCombEmbedding) kids s0
                  = (Ok tt, s1) ∧
                  boundaries_post CG (cs0 ++ flat_map (boundaryOrder CG) kids) s s1).
  { clear Hrun0 Hpost0 s0.
    induction IH as [|k kids Hk _ IHkids]; intros cs0 s0 Hpost0.
    - exists s0. rewrite app_nil_r. by split.
    - destruct (Hgo _ _ Hpost0) as [Hreal0 Hedges0].
      destruct (Hk s0 Hemb Hreal0 Hedges0) as (s' & Hrun' & Hpost').
      pose proof (boundaries_post_trans _ _ _ _ _ Hpost0 Hpost') as Hpost''.
      destruct (IHkids _ _ Hpost'') as (s1 & Hrun1 & Hpost1).
      exists s1. split.
      + simpl. erewrite bind_ok; [|exact Hrun']. exact Hrun1.
      + simpl. by rewrite app_assoc. }
  destruct (Hkids [] s0 Hpost0) as (s1 & Hrun1 & Hpost1). simpl in Hpost1.
  erewrite bind_ok; [|exact Hrun1].
  (* the cluster itself *)
  case_bool_decide as Hroot.
  - exists s1. rewrite app_nil_r. by split.
  - destruct (Hgo _ _ Hpost1) as [Hreal1 Hedges1].
    destruct (insertBoundary_post c (bool_decide (kids = []) && negb false) s1 Hemb
                (Hreal1 c)) as (s2 & Hrun2 & Hpost2).
    exists s2. split; [exact Hrun2|]. by eapply boundaries_post_trans.
Qed.

(** X11. A successful pass of [ModelBoundaries], for a copy in which
    every adjacent entry of a cluster has the copy of its edge (and the
    embedding check holds in a debug build): the new nodes are the next
    handles, one for each adjacent entry of each cluster but the root,
    cluster by cluster in the order children first, and carry the index
    of their cluster as cluster-id; twice as many edges are new; no
    node and no edge that was there before has another cluster-id, and
    no such edge another boundary flag. *)
Theorem boundary_modelling_pass st :
  (debug = true -> ∀ st, representsCombEmbedding st = true) ->
  (∀ c it, it ∈ clusterAdjEntries CG c -> copyE st (theEdge it) ≠ None) ->
  edges (G st) ≠ [] ->
  ∃ st', ModelBoundaries debug CG representsCombEmbedding st = (Ok tt, st') ∧
    let ids := boundaryIDs CG (boundaryOrder CG (clusterTree CG)) in
    let n := length ids in
    nodes (G st') = nodes (G st) ++ seq (m_nodeIdCount (G st)) n ∧
    edges (G st') = edges (G st) ++ seq (m_edgeIdCount (G st)) (2 * n) ∧
    map (ClusterID st') (seq (m_nodeIdCount (G st)) n) = ids ∧
    (∀ v, v < m_nodeIdCount (G st) -> ClusterID st' v = ClusterID st v) ∧
    (∀ e, e < m_edgeIdCount (G st) ->
          m_edgeClusterID st' e = m_edgeClusterID st e ∧
          isClusterBoundary st' e = isClusterBoundary st e).
Proof.
  intros Hemb Hreal Hedges. unfold ModelBoundaries.
  destruct (convertClusterGraph_post (clusterTree CG)
              (mkBoundaryState st (fun _ => None) (fun _ => 2%Z)) Hemb)
    as (s' & Hrun & Hn & He & _ & _ & Hid & Hfn & Hfe & _); [|done|].
  { intros c it Hit. unfold realizing. simpl. by apply (Hreal c). }
  rewrite Hrun. exists (cpr s'). split; [done|].
  split; [exact Hn|]. split; [exact He|]. split; [exact Hid|].
  split; [exact Hfn|exact Hfe].
Qed.

(** X12. With a child of the root that has adjacent entries, a
    successful pass leaves the outer-face entry [m_rootAdj] set. *)
Theorem boundary_modelling_sets_rootAdj st :
  (debug = true -> ∀ st, representsCombEmbedding st = true) ->
  (∀ c it, it ∈ clusterAdjEntries CG c -> copyE st (theEdge it) ≠ None) ->
  edges (G st) ≠ [] ->
  hasOuterBoundary CG (boundaryOrder CG (clusterTree CG)) ->
  ∃ st', ModelBoundaries debug CG representsCombEmbedding st = (Ok tt, st') ∧
         m_rootAdj st' ≠ None.
Proof.
  intros Hemb Hreal Hedges Hout. unfold ModelBoundaries.
  destruct (convertClusterGraph_post (clusterTree CG)
              (mkBoundaryState st (fun _ => None) (fun _ => 2%Z)) Hemb)
    as (s' & Hrun & Hpost); [|done|].
  { intros c it Hit. unfold realizing. simpl. by apply (Hreal c). }
  rewrite Hrun. exists (cpr s'). split; [done|].
  destruct Hpost as (_ & _ & _ & _ & _ & _ & _ & _ & _ & _ & Hset). by apply Hset.
Qed.

(** X13. Only the root cluster present: [ModelBoundaries] inserts
    nothing and sets the outer-face entry by hand, to the source entry
    of the first edge of the copy; no assertion is evaluated. *)
Theorem root_only_sets_rootAdj st e0 :
  children (clusterTree CG) = [] -> head (edges (G st)) = Some e0 ->
  ModelBoundaries debug CG representsCombEmbedding st
  = (Ok tt, set_rootAdj (Some (adjSource (G st) e0)) st).
Proof.
  intros Hkids He. unfold ModelBoundaries, rootCluster.
  destruct (clusterTree CG) as [c kids] eqn:Et. simpl in Hkids. subst kids.
  rewrite convertClusterGraph_eq. unfold rootCluster. rewrite Et. simpl.
  rewrite !bool_decide_eq_true_2 by done. simpl.
  rewrite bind_bind, bind_gets. cbv beta. unfold id. simpl. rewrite He. simpl.
  done.
Qed.

End BoundaryPass.

(** The boundary example: the pass adds the nodes 4 and 5 for cluster 1
    and the nodes 6 and 7 for cluster 2. *)
Lemma boundary_modelling_pass_witness :
  ∃ st', ModelBoundaries true boundary_CG (fun _ => true) boundary_cpr = (Ok tt, st') ∧
         nodes (G st') = [0; 1; 2; 3] ++ [4; 5; 6; 7] ∧
         map (ClusterID st') [4; 5; 6; 7] = [11; 11; 12; 12]%Z.
Proof.
  destruct (boundary_modelling_pass true boundary_CG (fun _ => true) boundary_cpr)
    as (st' & Hrun & Hn & _ & Hid & _).
  - done.
  - intros c it Hit. destruct c as [|[|[|c]]]; simpl in Hit;
      repeat (apply elem_of_cons in Hit as [->|Hit]);
      try (by vm_compute); by apply elem_of_nil in Hit.
  - by vm_compute.
  - exists st'. split; [exact Hrun|]. split; [exact Hn|exact Hid].
Defined.

(** In the boundary example cluster 1 is a child of the root and has
    two adjacent entries. *)
Lemma boundary_modelling_sets_rootAdj_witness :
  ∃ st', ModelBoundaries true boundary_CG (fun _ => true) boundary_cpr = (Ok tt, st') ∧
         m_rootAdj st' ≠ None.
Proof.
  apply (boundary_modelling_sets_rootAdj true boundary_CG (fun _ => true) boundary_cpr).
  - done.
  - intros c it Hit. destruct c as [|[|[|c]]]; simpl in Hit;
      repeat (apply elem_of_cons in Hit as [->|Hit]);
      try (by vm_compute); by apply elem_of_nil in Hit.
  - by vm_compute.
  - exists 1. split; [by left|]. split; [reflexivity|]. simpl. intros [=].
Defined.

(** The path 0 - 1 - 2 with the root as its only cluster: the outer-face
    entry becomes the source entry of edge 0. *)
Lemma root_only_sets_rootAdj_witness :
  let st := ClusterPlanRep_new rootOnly_CG (PlanRep_of 3 [(0, 1); (1, 2)]) in
  ModelBoundaries true rootOnly_CG (fun _ => true) st
  = (Ok tt, set_rootAdj (Some (adjSource (G st) 0)) st).
Proof.
  intros st. apply (root_only_sets_rootAdj true rootOnly_CG (fun _ => true) st 0).
  - reflexivity.
  - reflexivity.
Defined.

(* ================================================================== *)
(** ** Boundary insertion: the rotations *)

Section BoundaryRotation.

Variable debug : bool.
Variable CG : ClusterGraph.
Variable representsCombEmbedding : ClusterPlanRep -> bool.

Lemma length_insert_after a x l :
  a ∈ l -> length (insert_after a x l) = S (length l).
Proof.
  induction l as [|y l IH]; intros Ha; [by apply elem_of_nil in Ha|].
  simpl. case_decide; [done|]. simpl. f_equal. apply IH.
  apply elem_of_cons in Ha as [->|Ha]; done.
Qed.

Lemma elem_of_insert_after a x b l : b ∈ l -> b ∈ insert_after a x l.
Proof.
  induction l as [|y l IH]; intros Hb; [done|].
  simpl. case_decide.
  - apply elem_of_cons in Hb as [->|Hb]; [by left|]. right. by right.
  - apply elem_of_cons in Hb as [->|Hb]; [by left|]. right. by apply IH.
Qed.

(** An insertion of an edge between two entries that sit in the
    rotations of their nodes: each of the two nodes gets one entry
    more, every entry that was there stays, and every other rotation is
    untouched. *)
Lemma Graph_newEdge_rotations g a t :
  a ∈ adjEntries g (m_node g a) -> t ∈ adjEntries g (m_node g t) ->
  let g' := fst (Graph_newEdge g a t) in
  (∀ x, length (adjEntries g' x)
        = length (adjEntries g x) + entriesAt g x [a] + entriesAt g x [t]) ∧
  (∀ x b, b ∈ adjEntries g x -> b ∈ adjEntries g' x) ∧
  (∀ x, m_node g a ≠ x -> m_node g t ≠ x -> adjEntries g' x = adjEntries g x).
Proof.
  intros Ha Ht g'. subst g'. simpl. unfold entriesAt.
  split; [|split].
  - intros x. rewrite !filter_cons, !filter_nil. unfold alter, fn_alter.
    destruct (decide (m_node g t = x)) as [<-|Et].
    + destruct (decide (m_node g a = m_node g t)) as [Ea|Ea]; simpl.
      * rewrite Ea in Ha |- *.
        rewrite !length_insert_after; [nlia|done|by apply elem_of_insert_after].
      * rewrite length_insert_after; [nlia|done].
    + destruct (decide (m_node g a = x)) as [<-|Ea]; simpl.
      * rewrite length_insert_after; [nlia|done].
      * nlia.
  - intros x b Hb. unfold alter, fn_alter.
    destruct (decide (m_node g t = x)) as [<-|Et].
    + apply elem_of_insert_after.
      destruct (decide (m_node g a = m_node g t)) as [Ea|Ea]; [|done].
      rewrite Ea. by apply elem_of_insert_after.
    + destruct (decide (m_node g a = x)) as [<-|Ea]; [|done].
      by apply elem_of_insert_after.
  - intros x H1 H2. unfold alter, fn_alter. repeat case_decide; done.
Qed.

Lemma entriesAt_ext g g' x l :
  (∀ a, a ∈ l -> m_node g' a = m_node g a) -> entriesAt g' x l = entriesAt g x l.
Proof.
  intros H. unfold entriesAt. induction l as [|a l IH]; [done|].
  rewrite !filter_cons. rewrite (H a) by (by left).
  assert (IH' := IH (λ b Hb, H b (list_elem_of_further _ _ _ Hb))).
  case_decide; simpl; by rewrite IH'.
Qed.

Lemma entriesAt_cons g x a l :
  entriesAt g x (a :: l) = entriesAt g x [a] + entriesAt g x l.
Proof.
  unfold entriesAt. rewrite !filter_cons, filter_nil. by case_decide.
Qed.

(** The second loop of [insertBoundary], as the rotations see it. *)
Lemma connectEdges_rotations : ∀ tgts srcs g,
  length srcs = length tgts ->
  (∀ a, a ∈ srcs ∨ a ∈ tgts ->
        a < m_adjIdCount g ∧ a ∈ adjEntries g (m_node g a)) ->
  let g' := connectEdges g srcs tgts in
  (∀ x, length (adjEntries g' x)
        = length (adjEntries g x) + entriesAt g x srcs + entriesAt g x tgts) ∧
  (∀ x, (∀ a, a ∈ srcs ∨ a ∈ tgts -> m_node g a ≠ x) ->
        adjEntries g' x = adjEntries g x).
Proof.
  induction tgts as [|t tgts IH]; intros srcs g Hlen Hin g'; subst g'.
  - destruct srcs; [|done]. simpl. split; [|done].
    intros x. unfold entriesAt. simpl. lia.
  - destruct srcs as [|a srcs]; [done|]. simpl in Hlen. simpl.
    destruct (Hin a) as [Ha1 Ha2]; [left; by left|].
    destruct (Hin t) as [Ht1 Ht2]; [right; by left|].
    destruct (Graph_newEdge_rotations g a t Ha2 Ht2) as (Hl & Hm & Ho).
    destruct (Graph_newEdge_facts g a t)
      as (_ & _ & _ & _ & _ & Hac & _ & _ & _ & Hnode).
    set (g1 := fst (Graph_newEdge g a t)) in *.
    assert (Hsame : ∀ b, b ∈ srcs ∨ b ∈ tgts -> m_node g1 b = m_node g b).
    { intros b Hb. apply Hnode. apply Hin. destruct Hb; [left|right]; by right. }
    destruct (IH srcs g1) as [Hl1 Ho1]; [lia| |].
    { intros b Hb. rewrite (Hsame b Hb).
      destruct (Hin b) as [Hb1 Hb2]; [destruct Hb; [left|right]; by right|].
      split; [rewrite Hac; nlia|]. by apply Hm. }
    split.
    + intros x. rewrite Hl1, Hl.
      rewrite (entriesAt_ext g g1 x srcs), (entriesAt_ext g g1 x tgts).
      * rewrite (entriesAt_cons g x a srcs), (entriesAt_cons g x t tgts). lia.
      * intros b Hb. apply Hsame. by right.
      * intros b Hb. apply Hsame. by left.
    + intros x Hx. rewrite Ho1.
      * apply Ho; apply Hx; [left|right]; by left.
      * intros b Hb. rewrite (Hsame b Hb). apply Hx.
        destruct Hb; [left|right]; by right.
Qed.

(** The graph the second loop leaves. *)
Lemma insertBoundary_connect_graph C : ∀ tgts srcs s,
  length srcs = length tgts ->
  (debug = true -> ∀ st, representsCombEmbedding st = true) ->
  G (cpr (snd (insertBoundary_connect debug CG representsCombEmbedding C srcs tgts s)))
  = connectEdges (G (cpr s)) srcs tgts.
Proof.
  induction tgts as [|t tgts IH]; intros srcs s Hlen Hemb; [done|].
  destruct srcs as [|a srcs]; [done|]. simpl in Hlen.
  simpl. unfold setClusterBoundary, setEdgeClusterID.
  repeat first
    [ rewrite bind_bind | rewrite bind_ret | rewrite bind_gets
    | rewrite bind_deref_Some | rewrite bind_onCpr_modify
    | rewrite bind_onCpr_newEdge | rewrite bind_OGDF_ASSERT
    | progress simpl ].
  match goal with
  | |- context [debug && negb ?b] =>
      replace (debug && negb b) with false
        by (destruct debug; [rewrite Hemb|]; done)
  end.
  rewrite IH by (done || lia). done.
Qed.

(** One round of the first loop, as the rotations see it. *)
Lemma insertBoundary_split_rotations C leaf it isLast srcs0 tgts0 s :
  realizing s it ≠ None ->
  ∃ a1 a2 s',
    insertBoundary_split debug CG C leaf it isLast (srcs0, tgts0) s
    = (Ok (srcs0 ++ [a1], tgts0 ++ [a2]), s') ∧
    splits_rotations 1 s [a1] [a2] s' ∧
    (∀ a, realizing s a ≠ None -> realizing s' a ≠ None).
Proof.
  intros Hr.
  destruct (insertBoundary_split_post debug CG C leaf it isLast srcs0 tgts0 s Hr)
    as (a1 & a2 & s' & Hrun & Hpost).
  exists a1, a2, s'. split; [exact Hrun|].
  destruct (realizing s it) as [e0|] eqn:Er; [clear Hr|done].
  destruct (insertBoundary_split_run debug CG C leaf it isLast srcs0 tgts0 s e0 Er)
    as (s'' & Hrun' & HP & _).
  rewrite Hrun in Hrun'. injection Hrun' as Hlists <-.
  assert (HG : G (cpr s') = fst (Graph_split (G (cpr s)) e0)).
  { unfold G. rewrite HP. apply PlanRep_split_graph. }
  destruct (Graph_split_facts (G (cpr s)) e0)
    as (_ & _ & Hnc & _ & _ & _ & _ & _ & HaT & HaS & _).
  assert (Ha : (a1 = m_adjIdCount (G (cpr s)) ∧ a2 = S (m_adjIdCount (G (cpr s)))) ∨
               (a1 = S (m_adjIdCount (G (cpr s))) ∧ a2 = m_adjIdCount (G (cpr s)))).
  { clear HaT HaS. unfold G in *. rewrite !fn_lookup_insert in Hlists.
    destruct (directionAt leaf s it =? 1)%Z;
      apply pair_equal_spec in Hlists as [H1 H2];
      apply app_inj_tail in H1 as [_ H1]; apply app_inj_tail in H2 as [_ H2];
      [right|left]; split; congruence. }
  assert (Hadj : adjEntries (G (cpr s')) (m_nodeIdCount (G (cpr s)))
                 = [m_adjIdCount (G (cpr s)); S (m_adjIdCount (G (cpr s)))]).
  { rewrite HG. simpl. apply fn_lookup_insert. }
  split; [|by destruct Hpost as (_ & _ & _ & _ & _ & _ & _ & _ & _ & _ & _ & _ & _ & _ & ?)].
  unfold splits_rotations. split; [|split; [|split; [|split; [|split]]]].
  - rewrite HG. nlia.
  - done.
  - done.
  - intros x Hx. rewrite HG. simpl. rewrite fn_lookup_insert_ne; [done|nlia].
  - intros i Hi. assert (i = 0) as -> by lia. rewrite Nat.add_0_r, Hadj. done.
  - intros i a [H|H]; apply list_lookup_singleton_Some in H as [-> <-];
      rewrite Nat.add_0_r, Hadj; destruct Ha as [[-> ->]|[-> ->]];
      first [by left | right; by left].
Qed.

Lemma splits_rotations_app k1 k2 s s1 s2 l1 l2 l1' l2' :
  splits_rotations k1 s l1 l2 s1 -> splits_rotations k2 s1 l1' l2' s2 ->
  splits_rotations (k1 + k2) s (l1 ++ l1') (l2 ++ l2') s2.
Proof.
  unfold splits_rotations.
  intros (Hn1 & Hs1 & Ht1 & Ho1 & Hd1 & Hm1) (Hn2 & Hs2 & Ht2 & Ho2 & Hd2 & Hm2).
  split; [|split; [|split; [|split; [|split]]]].
  - nlia.
  - rewrite length_app. lia.
  - rewrite length_app. lia.
  - intros x Hx. rewrite Ho2 by nlia. by apply Ho1.
  - intros i Hi. destruct (decide (i < k1)) as [Hlt|Hge].
    + rewrite Ho2 by nlia. by apply Hd1.
    + replace (m_nodeIdCount (G (cpr s)) + i)
        with (m_nodeIdCount (G (cpr s1)) + (i - k1)) by nlia.
      apply Hd2. lia.
  - intros i a [H|H]; apply lookup_app_Some in H as [H|[Hi H]].
    + rewrite Ho2; [apply Hm1; by left|].
      apply lookup_lt_Some in H. nlia.
    + replace (m_nodeIdCount (G (cpr s)) + i)
        with (m_nodeIdCount (G (cpr s1)) + (i - length l1)) by nlia.
      apply Hm2. by left.
    + rewrite Ho2; [apply Hm1; by right|].
      apply lookup_lt_Some in H. nlia.
    + replace (m_nodeIdCount (G (cpr s)) + i)
        with (m_nodeIdCount (G (cpr s1)) + (i - length l2)) by nlia.
      apply Hm2. by right.
Qed.

(** The first loop. *)
Lemma insertBoundary_splits_rotations C leaf L : ∀ srcs0 tgts0 s,
  (∀ it, it ∈ L -> realizing s it ≠ None) ->
  ∃ srcs tgts s',
    insertBoundary_splits debug CG C leaf L (srcs0, tgts0) s
    = (Ok (srcs0 ++ srcs, tgts0 ++ tgts), s') ∧
    splits_rotations (length L) s srcs tgts s'.
Proof.
  induction L as [|it L IH]; intros srcs0 tgts0 s Hr.
  - exists [], [], s. rewrite !app_nil_r. split; [done|].
    unfold splits_rotations. simpl. rewrite Nat.add_0_r.
    repeat split; try done; try lia. intros i a [H|H]; done.
  - destruct (insertBoundary_split_rotations C leaf it (bool_decide (L = []))
                srcs0 tgts0 s) as (a1 & a2 & s1 & Hrun1 & Hrot1 & Hreal1).
    { apply Hr. by left. }
    destruct (IH (srcs0 ++ [a1]) (tgts0 ++ [a2]) s1)
      as (srcs & tgts & s2 & Hrun2 & Hrot2).
    { intros it' Hit'. apply Hreal1, Hr. by right. }
    exists (a1 :: srcs), (a2 :: tgts), s2. split.
    + simpl. erewrite bind_ok; [|exact Hrun1]. rewrite Hrun2.
      by rewrite <- !app_assoc.
    + apply (splits_rotations_app 1 (length L) s s1 s2 [a1] [a2]); done.
Qed.

Lemma entriesAt_app g x l1 l2 :
  entriesAt g x (l1 ++ l2) = entriesAt g x l1 + entriesAt g x l2.
Proof.
  induction l1 as [|a l1 IH]; [done|].
  rewrite <- app_comm_cons, (entriesAt_cons g x a (l1 ++ l2)), IH.
  rewrite (entriesAt_cons g x a l1). lia.
Qed.

Lemma entriesAt_none g x l :
  (∀ a, a ∈ l -> m_node g a ≠ x) -> entriesAt g x l = 0.
Proof.
  induction l as [|a l IH]; intros H; [done|].
  rewrite entriesAt_cons, IH by (intros b Hb; apply H; by right).
  unfold entriesAt. rewrite filter_cons, filter_nil.
  rewrite decide_False; [done|]. apply H. by left.
Qed.

(** Of entries that sit at the nodes [n0], [n0 + 1], ... in this order,
    one sits at each of these nodes. *)
Lemma entriesAt_one g l : ∀ n0 i,
  (∀ j a, l !! j = Some a -> m_node g a = n0 + j) ->
  i < length l -> entriesAt g (n0 + i) l = 1.
Proof.
  induction l as [|a l IH]; intros n0 i Hl Hi; [simpl in Hi; lia|].
  rewrite entriesAt_cons. unfold entriesAt at 1. rewrite filter_cons, filter_nil.
  pose proof (Hl 0 a eq_refl) as Ha. rewrite Nat.add_0_r in Ha.
  destruct i as [|i].
  - rewrite Nat.add_0_r. rewrite decide_True by done.
    rewrite entriesAt_none; [done|].
    intros b Hb. apply list_elem_of_lookup in Hb as [j Hj].
    rewrite (Hl (S j) b Hj). nlia.
  - rewrite decide_False by nlia.
    replace (n0 + S i) with (S n0 + i) by lia.
    rewrite IH; [done| |simpl in Hi; lia].
    intros j b Hj. rewrite (Hl (S j) b Hj). lia.
Qed.

(** X17. After [insertBoundary] (lines 238-351) every boundary node of
    the cluster has degree four (the two pieces of the edge it was put
    on and the two boundary edges that meet there, also when the cluster
    has a single outgoing edge and the boundary is a loop), and the
    rotation of every node that was there before is the one it was: the
    boundary is put in without touching the order of the edges around
    the old nodes. *)
Theorem boundary_nodes_have_degree_four C leaf s :
  (debug = true -> ∀ st, representsCombEmbedding st = true) ->
  (∀ it, it ∈ clusterAdjEntries CG C -> realizing s it ≠ None) ->
  ∃ s', insertBoundary debug CG representsCombEmbedding C leaf s = (Ok tt, s') ∧
    (∀ i, i < length (clusterAdjEntries CG C) ->
          degree (G (cpr s')) (m_nodeIdCount (G (cpr s)) + i) = 4) ∧
    (∀ x, x < m_nodeIdCount (G (cpr s)) ->
          adjEntries (G (cpr s')) x = adjEntries (G (cpr s)) x).
Proof.
  intros Hemb Hreal.
  assert (Hassert : ∀ st (k : unit -> M BoundaryState unit) s0,
    bind (OGDF_ASSERT debug (representsCombEmbedding st)) k s0 = k tt s0).
  { intros st k s0. rewrite bind_OGDF_ASSERT.
    destruct debug; [rewrite Hemb|]; done. }
  unfold insertBoundary. rewrite bind_gets. cbv beta. rewrite Hassert.
  set (L := clusterAdjEntries CG C) in *.
  destruct (decide (L = [])) as [HL|HL].
  { rewrite bool_decide_eq_true_2 by done. exists s. rewrite HL.
    split; [done|]. split; [simpl; lia|done]. }
  rewrite bool_decide_eq_false_2 by done.
  destruct (insertBoundary_splits_post debug CG C leaf L [] [] s Hreal)
    as (srcs & tgts & s1 & Hrun1 & Hpost1).
  destruct (insertBoundary_splits_rotations C leaf L [] [] s Hreal)
    as (srcs' & tgts' & s1' & Hrun1' & Hrot1).
  rewrite Hrun1 in Hrun1'. simpl in Hrun1'. injection Hrun1' as <- <- <-.
  erewrite bind_ok; [|exact Hrun1]. simpl.
  destruct Hpost1 as (_ & _ & Hnc1 & _ & _ & Hl1 & Hl2 & Hat1 & _).
  destruct Hrot1 as (_ & _ & _ & Hold1 & Hdeg1 & Hmem1).
  rewrite bind_OGDF_ASSERT, bool_decide_eq_true_2, andb_false_r by congruence.
  destruct tgts as [|flipper tgts]; [simpl in Hl2; by destruct L|].
  simpl. rewrite bind_ret.
  set (g := G (cpr s)) in *. set (g1 := G (cpr s1)) in *.
  assert (Hlen : length srcs = length (tgts ++ [flipper])).
  { rewrite length_app. simpl in *. lia. }
  assert (Hin : ∀ a, a ∈ srcs ∨ a ∈ tgts ++ [flipper] ->
                ∃ i, i < length L ∧ m_node g1 a = m_nodeIdCount g + i ∧
                     a < m_adjIdCount g1 ∧ a ∈ adjEntries g1 (m_node g1 a)).
  { intros a Ha.
    assert (∃ i, srcs !! i = Some a ∨ (flipper :: tgts) !! i = Some a)
      as [i Hi].
    { destruct Ha as [Ha|Ha].
      - apply list_elem_of_lookup in Ha as [i Hi]. exists i. by left.
      - assert (a ∈ flipper :: tgts) as Ha'.
        { apply elem_of_app in Ha as [?|?%list_elem_of_singleton];
            [by right|subst; by left]. }
        apply list_elem_of_lookup in Ha' as [i Hi]. exists i. by right. }
    exists i. destruct (Hat1 i a Hi) as [Ha1 Ha2].
    split; [|split; [done|split; [done|]]].
    - destruct Hi as [Hi|Hi]; apply lookup_lt_Some in Hi; lia.
    - rewrite Ha2. by apply Hmem1. }
  pose proof (insertBoundary_connect_graph C (tgts ++ [flipper]) srcs s1 Hlen Hemb)
    as HG2.
  destruct (insertBoundary_connect_post debug CG representsCombEmbedding C
              (tgts ++ [flipper]) srcs s1) as (s2 & Hrun2 & _); [done| |done|].
  { intros a Ha. by destruct (Hin a Ha) as (_ & _ & _ & ? & _). }
  rewrite Hrun2 in HG2. simpl in HG2.
  erewrite bind_ok; [|exact Hrun2]. rewrite bind_gets. cbv beta.
  unfold OGDF_ASSERT.
  replace (debug && negb (representsCombEmbedding (cpr (id s2)))) with false
    by (destruct debug; [rewrite Hemb|]; done).
  exists s2. split; [done|].
  destruct (connectEdges_rotations (tgts ++ [flipper]) srcs g1 Hlen) as [Hlen2 Hold2].
  { intros a Ha. by destruct (Hin a Ha) as (_ & _ & _ & ? & ?). }
  fold g1 in HG2. rewrite HG2. split.
  - intros i Hi. unfold degree. rewrite Hlen2, Hdeg1 by done.
    rewrite entriesAt_app, (Nat.add_comm (entriesAt _ _ tgts)).
    rewrite <- (entriesAt_cons g1 _ flipper tgts).
    rewrite !entriesAt_one; [done| |simpl in *; nlia| |nlia].
    + intros j a Hj. by destruct (Hat1 j a) as [_ ?]; [right|].
    + intros j a Hj. by destruct (Hat1 j a) as [_ ?]; [left|].
  - intros x Hx. rewrite Hold2; [by apply Hold1|].
    intros a Ha. destruct (Hin a Ha) as (i & _ & -> & _). nlia.
Qed.

End BoundaryRotation.

(** Cluster 1 of the boundary example: its boundary nodes 4 and 5 have
    degree four, and the rotations of the nodes 0 and 2, the ends of the
    edge 0 that leaves the cluster, are the ones of the copy. *)
Lemma boundary_nodes_have_degree_four_witness :
  ∃ s', insertBoundary true boundary_CG (fun _ => true) 1 true boundary_start
        = (Ok tt, s') ∧
        degree (G (cpr s')) 4 = 4 ∧ degree (G (cpr s')) 5 = 4 ∧
        adjEntries (G (cpr s')) 0 = adjEntries (G boundary_cpr) 0 ∧
        adjEntries (G (cpr s')) 2 = adjEntries (G boundary_cpr) 2.
Proof.
  destruct (boundary_nodes_have_degree_four true boundary_CG (fun _ => true) 1 true
              boundary_start (fun _ _ => eq_refl)
              ltac:(intros it Hit;
                    repeat (apply elem_of_cons in Hit as [->|Hit]);
                    [by vm_compute..|by apply elem_of_nil in Hit]))
    as (s' & Hrun & Hdeg & Hold).
  exists s'. split; [exact Hrun|].
  split; [exact (Hdeg 0 ltac:(vm_compute; lia))|].
  split; [exact (Hdeg 1 ltac:(vm_compute; lia))|].
  split; [exact (Hold 0 ltac:(vm_compute; lia))|exact (Hold 2 ltac:(vm_compute; lia))].
Defined.

(* ================================================================== *)
(** ** The GML output *)

Module GMLFacts.

Import Stdlib.Strings.String.StringSyntax.
Import GML.
#[local] Open Scope string_scope.
#[local] Open Scope cpr_scope.
#[local] Infix "+:+" := String.append (at level 60, right associativity).

Lemma linesWith_app p l1 l2 :
  linesWith p (l1 ++ l2) = linesWith p l1 ++ linesWith p l2.
Proof. apply List.filter_app. Qed.

Lemma prefix_append p s : String.prefix p (p +:+ s) = true.
Proof.
  induction p as [|a p IH]; simpl.
  - by destruct s.
  - by destruct (Ascii.ascii_dec a a).
Qed.

Lemma linesWith_hit p l ls :
  String.prefix p l = true -> linesWith p (l :: ls) = l :: linesWith p ls.
Proof. intros H. unfold linesWith. simpl. by rewrite H. Qed.

Lemma linesWith_miss p l ls :
  String.prefix p l = false -> linesWith p (l :: ls) = linesWith p ls.
Proof. intros H. unfold linesWith. simpl. by rewrite H. Qed.

Lemma linesWith_nil p : linesWith p [] = [].
Proof. reflexivity. Qed.

(** Picks the lines with a prefix out of a list of written lines. *)
Ltac lines_tac :=
  cbn [app];
  repeat first
    [ rewrite linesWith_miss by (vm_compute; reflexivity)
    | rewrite linesWith_hit by first [ apply prefix_append | vm_compute; reflexivity ] ];
  rewrite ?linesWith_nil; cbn [app]; rewrite ?app_nil_r;
  try reflexivity.

Section WriteGML.

Variable CG : ClusterGraph.
Variable EdgeType : Type.
Context `{EqDecision EdgeType}.
Variable generalization : EdgeType.
Variable show_EdgeType : EdgeType -> String.string.
Variable typeOfNode : node -> NodeType.
Variable typeOfEdge : edge -> EdgeType.
Variable isBrother : edge -> bool.
Variable isHalfBrother : edge -> bool.
Variable double : Type.
Variable show_double : double -> String.string.
Variable ten : double.

#[warnings="-notation-for-abbreviation"]
Notation writeNode := (writeNode CG typeOfNode double show_double ten).
#[warnings="-notation-for-abbreviation"]
Notation writeEdge :=
  (writeEdge EdgeType generalization show_EdgeType typeOfNode typeOfEdge
     isBrother isHalfBrother).
#[warnings="-notation-for-abbreviation"]
Notation writeGML :=
  (writeGML CG EdgeType generalization show_EdgeType typeOfNode typeOfEdge
     isBrother isHalfBrother double show_double ten).

(** Runs the output statements of the goal. *)
Ltac run_puts :=
  unfold put;
  repeat (first [ rewrite bind_bind | rewrite bind_modify | rewrite bind_gets
                | rewrite bind_ret | rewrite bind_deref_Some ];
          cbn [os id nextId]).

(** One node record: it gives the node the next id, writes it in the
    one line that starts with [id], and writes no line of an edge. *)
Lemma writeNode_run st drawing v w :
  (typeOfNode v = otherNodeType -> original st v ≠ None) ->
  ∃ new,
    writeNode st drawing v w
    = (Ok tt, mkWriter (os w ++ new) (<[v := nextId w]> (id w)) (nextId w + 1)%Z) ∧
    linesWith "    id " new = ["    id " +:+ pretty.pretty (nextId w) +:+ nl] ∧
    linesWith "    source " new = [] ∧ linesWith "    target " new = [].
Proof.
  intros Hori. unfold GML.writeNode.
  destruct (typeOfNode v) eqn:Et;
    try (destruct (original st v) as [o|] eqn:Eo; [|by destruct Hori]);
    run_puts;
    try (destruct (negb (index CG (clusterOf CG o) =? 0)%Z);
         [|destruct (4 <? degree (G st) v)%nat]);
    run_puts; unfold modify; cbn [os id nextId];
    (eexists; split; [rewrite <- !app_assoc; reflexivity|]);
    repeat split; lines_tac.
Qed.

(** One edge record: it changes neither the array nor the counter, and
    names the ends of the edge by their entries of the array. *)
Lemma writeEdge_run st e w :
  ∃ new,
    writeEdge st e w = (Ok tt, mkWriter (os w ++ new) (id w) (nextId w)) ∧
    linesWith "    id " new = [] ∧
    linesWith "    source " new
    = ["    source " +:+ pretty.pretty (id w (source (G st) e)) +:+ nl] ∧
    linesWith "    target " new
    = ["    target " +:+ pretty.pretty (id w (target (G st) e)) +:+ nl] ∧
    linesWith "      fill " new
    = if bool_decide (typeOfEdge e = generalization) then [fillLine "#FF0000"]
      else
        (if atGeneralization typeOfNode st e
         then [fillLine (if isBrother e then "#F0F000"
                         else if isHalfBrother e then "#FF00AF" else "#FF0000")]
         else [])
        ++ [fillLine (if isBrother e then "#F0F000"
                      else if isHalfBrother e then "#FF00AF"
                      else if isClusterBoundary st e then "#FF0000" else "#00000F")].
Proof.
  unfold GML.writeEdge.
  destruct (bool_decide (typeOfEdge e = generalization));
    destruct (atGeneralization typeOfNode st e);
    destruct (isBrother e); destruct (isHalfBrother e);
    destruct (isClusterBoundary st e);
    run_puts; unfold modify; cbn [os id nextId];
    (eexists; split; [rewrite <- !app_assoc; reflexivity|]);
    repeat split; lines_tac.
Qed.

(** The loop over the nodes. *)
Lemma writeNodes_run st drawing l : ∀ w,
  (∀ v, v ∈ l -> typeOfNode v = otherNodeType -> original st v ≠ None) ->
  ∃ new w',
    forEach (writeNode st drawing) l w = (Ok tt, w') ∧
    os w' = os w ++ new ∧
    nextId w' = (nextId w + Z.of_nat (length l))%Z ∧
    (∀ v, v ∉ l -> id w' v = id w v) ∧
    (NoDup l -> ∀ k v, l !! k = Some v -> id w' v = (nextId w + Z.of_nat k)%Z) ∧
    linesWith "    id " new
    = imap (fun k _ => "    id " +:+ pretty.pretty (nextId w + Z.of_nat k)%Z +:+ nl) l ∧
    linesWith "    source " new = [] ∧ linesWith "    target " new = [].
Proof.
  induction l as [|v l IH]; intros w Hori.
  - exists [], w. rewrite app_nil_r, Z.add_0_r. by repeat split.
  - destruct (writeNode_run st drawing v w) as (new1 & Hrun1 & Hid1 & Hs1 & Ht1).
    { apply Hori. by left. }
    destruct (IH (mkWriter (os w ++ new1) (<[v := nextId w]> (id w)) (nextId w + 1)%Z))
      as (new2 & w' & Hrun2 & Hos & Hnext & Hout & Hin & Hid2 & Hs2 & Ht2).
    { intros u Hu. apply Hori. by right. }
    cbn [os id nextId] in *.
    exists (new1 ++ new2), w'. split; [|split; [|split; [|split; [|split; [|split]]]]].
    + simpl. erewrite bind_ok; [|exact Hrun1]. exact Hrun2.
    + by rewrite Hos, app_assoc.
    + rewrite Hnext. simpl. lia.
    + intros u Hu. apply not_elem_of_cons in Hu as [Hne Hu].
      rewrite Hout by done. by rewrite fn_lookup_insert_ne.
    + intros Hnd k u Hk. apply list.NoDup_cons in Hnd as [Hv Hnd].
      destruct k as [|k]; simpl in Hk.
      * injection Hk as <-. rewrite Hout by done.
        rewrite fn_lookup_insert. lia.
      * rewrite (Hin Hnd k u Hk). lia.
    + rewrite linesWith_app, Hid1, Hid2. simpl. rewrite Z.add_0_r. f_equal.
      apply imap_ext. intros k u _. simpl. do 3 f_equal. lia.
    + by rewrite !linesWith_app, Hs1, Hs2, Ht1, Ht2.
Qed.

(** The loop over the edges. *)
Lemma writeEdges_run st l : ∀ w,
  ∃ new,
    forEach (writeEdge st) l w = (Ok tt, mkWriter (os w ++ new) (id w) (nextId w)) ∧
    linesWith "    id " new = [] ∧
    linesWith "    source " new
    = map (fun e => "    source " +:+ pretty.pretty (id w (source (G st) e)) +:+ nl) l ∧
    linesWith "    target " new
    = map (fun e => "    target " +:+ pretty.pretty (id w (target (G st) e)) +:+ nl) l.
Proof.
  induction l as [|e l IH]; intros w.
  - exists []. rewrite app_nil_r. by destruct w.
  - destruct (writeEdge_run st e w) as (new1 & Hrun1 & Hid1 & Hs1 & Ht1 & _).
    destruct (IH (mkWriter (os w ++ new1) (id w) (nextId w)))
      as (new2 & Hrun2 & Hid2 & Hs2 & Ht2).
    cbn [os id nextId] in *.
    exists (new1 ++ new2). split; [|split; [|split]].
    + simpl. erewrite bind_ok; [|exact Hrun1]. rewrite Hrun2. by rewrite app_assoc.
    + by rewrite linesWith_app, Hid1, Hid2.
    + by rewrite linesWith_app, Hs1, Hs2.
    + by rewrite linesWith_app, Ht1, Ht2.
Qed.

(** X14. The GML output numbers the nodes: when the nodes of the copy
    are pairwise different (and every node of a plain type has an
    original, which the method follows), [writeGML] ends well and only
    appends to the stream; the array [id] maps every node to its
    position in the list of nodes; the lines that start with [id] are
    these positions 0, 1, 2, ... in order, one for each node; and the
    [source] and [target] lines, one of each for every edge in the
    order of the edges, name the ends of the edge by their entries of
    the array. *)
Theorem writeGML_numbers_nodes st drawing w :
  NoDup (nodes (G st)) ->
  (∀ v, v ∈ nodes (G st) -> typeOfNode v = otherNodeType -> original st v ≠ None) ->
  ∃ w' new,
    writeGML st drawing w = (Ok tt, w') ∧ os w' = os w ++ new ∧
    (∀ k v, nodes (G st) !! k = Some v -> id w' v = Z.of_nat k) ∧
    linesWith "    id " new
    = imap (fun k _ => "    id " +:+ pretty.pretty (Z.of_nat k) +:+ nl) (nodes (G st)) ∧
    linesWith "    source " new
    = map (fun e => "    source " +:+ pretty.pretty (id w' (source (G st) e)) +:+ nl)
        (edges (G st)) ∧
    linesWith "    target " new
    = map (fun e => "    target " +:+ pretty.pretty (id w' (target (G st) e)) +:+ nl)
        (edges (G st)).
Proof.
  intros Hnd Hori. unfold GML.writeGML. run_puts.
  match goal with
  | |- ∃ w' new, _ ?w0 = _ ∧ _ => set (w1 := w0)
  end.
  destruct (writeNodes_run st drawing (nodes (G st)) w1 Hori)
    as (new1 & w2 & Hrun1 & Hos1 & _ & _ & Hid & Hid1 & Hs1 & Ht1).
  destruct (writeEdges_run st (edges (G st)) w2) as (new2 & Hrun2 & Hid2 & Hs2 & Ht2).
  erewrite bind_ok; [|exact Hrun1]. erewrite bind_ok; [|exact Hrun2].
  unfold modify. cbn [os id nextId].
  eexists _, _. split; [reflexivity|]. cbn [os id nextId].
  split; [|split; [|split; [|split]]].
  - rewrite Hos1. unfold w1. cbn [os]. rewrite <- !app_assoc. reflexivity.
  - intros k v Hk. rewrite (Hid Hnd k v Hk). unfold w1. cbn [nextId]. lia.
  - rewrite !linesWith_app, Hid1, Hid2. lines_tac.
  - rewrite !linesWith_app, Hs1, Hs2. lines_tac.
  - rewrite !linesWith_app, Ht1, Ht2. lines_tac.
Qed.

(** X15. The fill lines of an edge record.  A generalization is
    drawn red, with the one fill line [#FF0000].  Every other edge gets
    its colour from the flags in the order brother, half-brother,
    cluster boundary (red again), else [#00000F]; and when one of its
    ends is a generalization expander or merger, a second fill line is
    written in front of that one, so that the record has two.  The
    record changes neither the array [id] nor the counter. *)
Theorem edge_fill_lines st e w :
  ∃ w' new,
    writeEdge st e w = (Ok tt, w') ∧ os w' = os w ++ new ∧
    id w' = id w ∧ nextId w' = nextId w ∧
    length (linesWith "      fill " new)
    = (if bool_decide (typeOfEdge e = generalization) then 1
       else if atGeneralization typeOfNode st e then 2 else 1) ∧
    (typeOfEdge e = generalization ->
     linesWith "      fill " new = [fillLine "#FF0000"]) ∧
    (typeOfEdge e ≠ generalization ->
     list.last (linesWith "      fill " new)
     = Some (fillLine (if isBrother e then "#F0F000"
                       else if isHalfBrother e then "#FF00AF"
                       else if isClusterBoundary st e then "#FF0000"
                       else "#00000F"))).
Proof.
  destruct (writeEdge_run st e w) as (new & Hrun & _ & _ & _ & Hfill).
  eexists _, new. split; [exact Hrun|]. cbn [os id nextId].
  do 3 (split; [reflexivity|]). rewrite Hfill. split; [|split].
  - case_bool_decide; [done|]. by destruct (atGeneralization typeOfNode st e).
  - intros Hg. by rewrite bool_decide_eq_true_2.
  - intros Hg. rewrite bool_decide_eq_false_2 by done.
    by destruct (atGeneralization typeOfNode st e).
Qed.

Lemma colourCheckFrom_spec n : ∀ i j,
  colourCheckFrom n i = true -> (i ≤ j < i + Z.of_nat n)%Z -> colourCheck j = true.
Proof.
  induction n as [|n IH]; intros i j H Hj; [lia|].
  simpl in H. apply andb_prop in H as [H1 H2].
  destruct (decide (j = i)) as [->|Hne]; [done|].
  apply (IH (i + 1)%Z); [done|lia].
Qed.

Lemma colourCheck_all : colourCheckFrom (Z.to_nat 32639) 0 = true.
Proof. vm_compute. reflexivity. Qed.

Lemma colourCheck_at (i : Z) : (0 ≤ i ≤ 32638)%Z -> colourCheck i = true.
Proof.
  intros Hi. apply (colourCheckFrom_spec _ 0 i colourCheck_all).
  rewrite Z2Nat.id by lia. lia.
Qed.

(** X16. The fill colour of a node of a plain type whose original lies
    in a cluster with an index [i] other than 0: the record has the one
    fill line with the colour [clusterColour i].  For 1 <= i <= 63 the
    colour is the three bytes i, i and 4 i; up to i = 254 it has the
    six digits of a colour, and from 255 on (as far as the arithmetic
    does not overflow) it has more than six. *)
Theorem cluster_fill_colour st drawing v o w :
  typeOfNode v = otherNodeType -> original st v = Some o ->
  index CG (clusterOf CG o) ≠ 0%Z ->
  let i := index CG (clusterOf CG o) in
  ∃ w' new,
    writeNode st drawing v w = (Ok tt, w') ∧ os w' = os w ++ new ∧
    linesWith "      fill " new = [fillLine ("#" +:+ clusterColour i)] ∧
    ((1 ≤ i ≤ 63)%Z ->
     clusterColour i = byteHex i +:+ byteHex i +:+ byteHex (4 * i)) ∧
    ((0 ≤ i ≤ 254)%Z -> String.length (clusterColour i) = 6) ∧
    ((255 ≤ i ≤ 32638)%Z -> 6 < String.length (clusterColour i)).
Proof.
  intros Et Eo Hi i. unfold GML.writeNode. rewrite Et. cbv zeta. rewrite Eo.
  run_puts. fold i.
  replace (i =? 0)%Z with false by (symmetry; by apply Z.eqb_neq).
  cbn [negb]. run_puts. unfold modify. cbn [os id nextId].
  eexists _, _. split; [reflexivity|]. cbn [os].
  split; [rewrite <- !app_assoc; reflexivity|].
  split; [lines_tac|].
  assert (Hcheck : (0 ≤ i ≤ 32638)%Z -> colourCheck i = true)
    by apply colourCheck_at.
  unfold colourCheck in Hcheck. cbv zeta in Hcheck.
  split; [|split]; intros Hr;
    (apply andb_prop in Hcheck as [H1 H2]; [|lia]).
  - replace ((1 <=? i)%Z && (i <=? 63)%Z) with true in H1
      by (symmetry; apply andb_true_intro; split; lia).
    by apply String.eqb_eq in H1.
  - replace (i <=? 254)%Z with true in H2 by (symmetry; lia).
    by apply Nat.eqb_eq in H2.
  - replace (i <=? 254)%Z with false in H2 by (symmetry; lia).
    by apply Nat.ltb_lt in H2.
Qed.

End WriteGML.

(** The component example: three nodes, numbered 0, 1 and 2. *)
Lemma writeGML_numbers_nodes_witness :
  ∃ w', GMLExample.writeGML GMLExample.start = (Ok tt, w') ∧
        id w' 0 = 0%Z ∧ id w' 1 = 1%Z ∧ id w' 2 = 2%Z.
Proof.
  destruct (writeGML_numbers_nodes path_CG bool true GMLExample.show_EdgeType
              GMLExample.typeOfNode GMLExample.typeOfEdge (fun _ => false)
              (fun _ => false) unit GMLExample.show_double tt
              GMLExample.copy_of_path GMLExample.drawing GMLExample.start)
    as (w' & new & Hrun & _ & Hid & _).
  - apply (bool_decide_unpack _). vm_compute. exact I.
  - intros v Hv _.
    assert (Hn : nodes (G GMLExample.copy_of_path) = [0; 1; 2])
      by (vm_compute; reflexivity).
    rewrite Hn in Hv.
    repeat (apply elem_of_cons in Hv as [->|Hv]); [by vm_compute..|].
    by apply elem_of_nil in Hv.
  - exists w'. split; [exact Hrun|].
    split; [|split]; [apply (Hid 0 0)|apply (Hid 1 1)|apply (Hid 2 2)];
      vm_compute; reflexivity.
Defined.

(** Node 0 of the component example lies in cluster 2, whose index is
    12: its colour is [0c0c30]. *)
Lemma cluster_fill_colour_witness :
  ∃ w' new,
    GMLExample.writeNode 0 GMLExample.start = (Ok tt, w') ∧
    os w' = os GMLExample.start ++ new ∧
    linesWith "      fill " new = [fillLine "#0c0c30"].
Proof.
  destruct (cluster_fill_colour path_CG GMLExample.typeOfNode unit
              GMLExample.show_double tt GMLExample.copy_of_path GMLExample.drawing
              0 0 GMLExample.start)
    as (w' & new & Hrun & Hos & Hfill & _).
  - reflexivity.
  - vm_compute. reflexivity.
  - vm_compute. discriminate.
  - exists w', new. split; [exact Hrun|]. split; [exact Hos|exact Hfill].
Defined.

End GMLFacts.
